(** * Invoice management server: store, query engine and status simulator

    A shallow embedding of [server/index.ts] (the Express server of the
    invoice-management repository) and of the parts of the JavaScript
    run-time its list endpoint relies on: [parseInt], [String.prototype]
    ([toLowerCase], [includes], relational comparison),
    [Array.prototype.slice] and [Array.prototype.sort].  The client
    ([App.tsx], [services/api.ts], [InvoiceTable.tsx], [FileUpload.tsx])
    is embedded as far as it decides what the server is asked and what is
    shown of the answer.

    The server runs on Node.js (README: "Node.js 18+"), whose engine sorts
    arrays with TimSort (V8, [third_party/v8/builtins/array-sort.tq]).
    ECMAScript fixes the result of [Array.prototype.sort] only for a
    consistent comparator; the comparator of the list endpoint never
    returns 0, so for records with equal keys the order is the one the
    engine's algorithm produces.  The algorithm is therefore modelled step
    by step, on the list of elements, in [Module V8]. *)

From Stdlib Require Import List ZArith String Ascii Bool Lia Permutation.
From Stdlib Require Import QArith Qround.
Import ListNotations.

Local Open Scope Z_scope.

(* ================================================================== *)
(** ** JavaScript values and built-ins used by the server *)
(* ================================================================== *)

Module JS.

(** A string is a sequence of code units.  The model covers code units
    below 256 (one [ascii] each). *)

(** The values a record field can hold.  Numbers are integers here: every
    number the server stores (amount, fileSize, time stamps) is an integer
    a double represents exactly.  [JUndefined] is also the value read from
    a key the record does not have. *)
Inductive value : Type :=
  | JUndefined
  | JNumber (n : Z)
  | JString (s : string)
  | JDate (t : Z).

(** ToNumber after ToPrimitive (hint number); [None] is NaN.  A string
    operand is only ever compared with another string (both operands of
    the comparator are read from the same field), so StringToNumber is not
    modelled. *)
Definition toNumber (v : value) : option Z :=
  match v with
  | JUndefined => None
  | JNumber n => Some n
  | JDate t => Some t
  | JString _ => None
  end.

(** [a < b] (IsLessThan): two strings are compared by code units, anything
    else as numbers, and a comparison with NaN is false. *)
Definition lt (a b : value) : bool :=
  match a, b with
  | JString s, JString t => String.ltb s t
  | _, _ =>
      match toNumber a, toNumber b with
      | Some x, Some y => x <? y
      | _, _ => false
      end
  end.

(** [a > b] is [b < a]. *)
Definition gt (a b : value) : bool := lt b a.

(** [String.prototype.toLowerCase] on code units below 256: the letters
    A-Z and the Latin-1 capitals U+00C0-U+00DE (U+00D7 apart) move up by
    32, every other code unit stays. *)
Definition lowerChar (c : ascii) : ascii :=
  let n := nat_of_ascii c in
  if ((65 <=? n) && (n <=? 90) ||
      (192 <=? n) && (n <=? 214) ||
      (216 <=? n) && (n <=? 222))%nat
  then ascii_of_nat (n + 32) else c.

Fixpoint toLowerCase (s : string) : string :=
  match s with
  | EmptyString => EmptyString
  | String c s' => String (lowerChar c) (toLowerCase s')
  end.

(** [s.startsWith(p)]. *)
Fixpoint startsWith (p s : string) : bool :=
  match p, s with
  | EmptyString, _ => true
  | String a p', String b s' => Ascii.eqb a b && startsWith p' s'
  | String _ _, EmptyString => false
  end.

(** [s.includes(p)]: [p] occurs in [s] at some position. *)
Fixpoint includes (s p : string) : bool :=
  startsWith p s ||
  match s with
  | EmptyString => false
  | String _ s' => includes s' p
  end.

(** StrWhiteSpaceChar, below 256. *)
Definition isWhiteSpace (c : ascii) : bool :=
  let n := nat_of_ascii c in
  ((9 <=? n) && (n <=? 13) || (n =? 32) || (n =? 160))%nat.

Fixpoint trimStart (s : string) : string :=
  match s with
  | String c s' => if isWhiteSpace c then trimStart s' else s
  | EmptyString => s
  end.

(** The value of a digit in the given radix (10 or 16). *)
Definition digitValue (radix : Z) (c : ascii) : option Z :=
  let n := Z.of_nat (nat_of_ascii c) in
  let d :=
    if (48 <=? n) && (n <=? 57) then Some (n - 48)
    else if (97 <=? n) && (n <=? 102) then Some (n - 87)
    else if (65 <=? n) && (n <=? 70) then Some (n - 55)
    else None in
  match d with
  | Some v => if v <? radix then Some v else None
  | None => None
  end.

(** The longest prefix of digits, read as a number; [None] when the prefix
    is empty. *)
Fixpoint parseDigits (radix : Z) (acc : option Z) (s : string) : option Z :=
  match s with
  | EmptyString => acc
  | String c s' =>
      match digitValue radix c with
      | Some d =>
          parseDigits radix
            (Some (match acc with Some a => a * radix + d | None => d end)) s'
      | None => acc
      end
  end.

(** [parseInt(s)] with no radix: leading white space is dropped, then a
    sign, then a [0x]/[0X] prefix selects radix 16; [None] is NaN.  The
    result here is the integer the digits denote; the program's is the
    double nearest to it, which is that integer as long as it is a safe
    integer ([isSafeInteger] below) and is rounded, or infinite, beyond. *)
Definition parseInt (s : string) : option Z :=
  let s := trimStart s in
  let '(sign, s) :=
    match s with
    | String "-" s' => (-1, s')
    | String "+" s' => (1, s')
    | _ => (1, s)
    end in
  let '(radix, s) :=
    match s with
    | String "0" (String "x" s') => (16, s')
    | String "0" (String "X" s') => (16, s')
    | _ => (10, s)
    end in
  match parseDigits radix None s with
  | Some n => Some (sign * n)
  | None => None
  end.

(** [parseInt(x as string) || dflt], for a query parameter that may be
    absent: NaN and 0 are falsy. *)
Definition parseIntOr (x : option string) (dflt : Z) : Z :=
  match x with
  | None => dflt
  | Some s =>
      match parseInt s with
      | Some 0 => dflt
      | Some n => n
      | None => dflt
      end
  end.

(** [(x as string) || dflt]: absent and the empty string are falsy. *)
Definition stringOr (x : option string) (dflt : string) : string :=
  match x with
  | None => dflt
  | Some EmptyString => dflt
  | Some s => s
  end.

(** [l.slice(start, end)]: a negative index counts from the end, and both
    bounds are clamped to the length. *)
Definition slice {A : Type} (l : list A) (start end_ : Z) : list A :=
  let len := Z.of_nat (List.length l) in
  let k := if start <? 0 then Z.max (len + start) 0 else Z.min start len in
  let final := if end_ <? 0 then Z.max (len + end_) 0 else Z.min end_ len in
  firstn (Z.to_nat (final - k)) (skipn (Z.to_nat k) l).

(** [Number.MAX_SAFE_INTEGER], 2^53 - 1. *)
Definition MAX_SAFE_INTEGER : Z := 9007199254740991.

(** [Number.isSafeInteger(n)] on an integer: up to this size the integers
    are doubles, and sums, differences and products of them that stay
    within it are exact. *)
Definition isSafeInteger (n : Z) : Prop := Z.abs n <= MAX_SAFE_INTEGER.

(** The character of a decimal digit. *)
Definition digitChar (d : Z) : ascii := ascii_of_nat (Z.to_nat (48 + d)).

(** The decimal digits of [n], a natural number, put in front of [acc]:
    the last digit first, then the digits of [n / 10].  [fuel] bounds the
    number of divisions. *)
Fixpoint digits (fuel : nat) (n : Z) (acc : string) : string :=
  let acc' := String (digitChar (n mod 10)) acc in
  match fuel with
  | O => acc'
  | S fuel' => if n <? 10 then acc' else digits fuel' (n / 10) acc'
  end.

(** [n.toString()] on a safe integer: the decimal digits, after a minus
    sign for a negative number.  (From 10^21 on JavaScript prints an
    exponent instead; the numbers of the client are used as safe integers
    only.) *)
Definition numberToString (n : Z) : string :=
  if n <? 0
  then String "-" (digits (Z.to_nat (Z.log2 (- n))) (- n) EmptyString)
  else digits (Z.to_nat (Z.log2 n)) n EmptyString.

(** [s.substring(start, end)]: both bounds are clamped to [0, length] and
    swapped when they come in the wrong order. *)
Definition substring (s : string) (start end_ : Z) : string :=
  let len := Z.of_nat (String.length s) in
  let finalStart := Z.min (Z.max start 0) len in
  let finalEnd := Z.min (Z.max end_ 0) len in
  let from := Z.min finalStart finalEnd in
  let to := Z.max finalStart finalEnd in
  String.substring (Z.to_nat from) (Z.to_nat (to - from)) s.

(** [Math.ceil(a / b)] on two integers, the quotient taken exactly (the
    double that JavaScript divides to has the same ceiling as long as
    [a] is below 2^53). *)
Definition ceilOfQuotient (a b : Z) : Z :=
  Qceiling (inject_Z a / inject_Z b).

End JS.

(* ================================================================== *)
(** ** [Array.prototype.sort] as V8 implements it (TimSort) *)
(* ================================================================== *)

(** The work array is a list.  A run is the list of its elements, the
    stack of pending runs is a list of runs with the most recent run (the
    rightmost in the array) first, and the part of the array not yet cut
    into runs is the remaining list.  Positions inside a run are natural
    numbers.  Every comparison the engine makes is made here, with the
    same operands in the same order, so the result is the engine's also
    for a comparator that is not consistent.

    Loops whose bound is not the structure of a list carry a fuel argument
    that is at least the number of iterations; [Section SortFuel] below
    proves, loop by loop, that more fuel than the bound given changes
    nothing. *)

Module V8.

Section TimSort.

Context {A : Type}.
(** [sortState.Compare]: the user comparator; a negative result orders its
    first argument before the second. *)
Variable Compare : A -> A -> Z.

Definition kMinGallopWins : nat := 7.

(** [ComputeMinRunLength]: [n] itself below 64, otherwise the six leading
    bits of [n], plus one if a lower bit is set. *)
Fixpoint ComputeMinRunLength_loop (fuel n r : nat) : nat :=
  match fuel with
  | O => (n + r)%nat
  | S fuel' =>
      if (64 <=? n)%nat
      then ComputeMinRunLength_loop fuel' (Nat.div2 n)
             (if Nat.odd n then 1%nat else r)
      else (n + r)%nat
  end.

Definition ComputeMinRunLength (n : nat) : nat :=
  ComputeMinRunLength_loop n n 0.

(** The loop of [CountAndMakeRun] from the third element on: elements are
    taken while they continue the run ([order < 0] for a descending run,
    [order >= 0] for an ascending one, comparing each element with the one
    before it).  Returns the elements taken and the rest. *)
Fixpoint run_extend (isDescending : bool) (previousElement : A)
    (l : list A) : list A * list A :=
  match l with
  | [] => ([], [])
  | currentElement :: l' =>
      let order := Compare currentElement previousElement in
      if (if isDescending then 0 <=? order else order <? 0)
      then ([], l)
      else
        let '(taken, rest) := run_extend isDescending currentElement l' in
        (currentElement :: taken, rest)
  end.

(** [CountAndMakeRun(low, high)] on the array part [l]: the longest run at
    the start of [l], reversed in place if it descends, and the rest. *)
Definition CountAndMakeRun (l : list A) : list A * list A :=
  match l with
  | [] => ([], [])
  | [x] => ([x], [])
  | elementHigh :: elementLow :: l' =>
      let order := Compare elementLow elementHigh in
      let isDescending := order <? 0 in
      let '(taken, rest) := run_extend isDescending elementLow l' in
      let run := elementHigh :: elementLow :: taken in
      (if isDescending then rev run else run, rest)
  end.

(** The binary search shared by [BinaryInsertionSort] and the gallops:
    while [left < right], probe the middle and move [right] down to it when
    [goLeft mid], [left] above it otherwise. *)
Fixpoint bisect (fuel : nat) (goLeft : nat -> bool) (left right : nat)
    : nat :=
  match fuel with
  | O => right
  | S fuel' =>
      if (left <? right)%nat then
        let mid := (left + Nat.div2 (right - left))%nat in
        if goLeft mid then bisect fuel' goLeft left mid
        else bisect fuel' goLeft (mid + 1)%nat right
      else right
  end.

Definition insertAt (k : nat) (x : A) (l : list A) : list A :=
  firstn k l ++ x :: skipn k l.

(** [BinaryInsertionSort(low, start, high)]: [run] is the sorted part
    [low, start), [ext] the elements of [start, high), inserted one by one
    at the position the binary search finds. *)
Fixpoint BinaryInsertionSort (run ext : list A) : list A :=
  match ext with
  | [] => run
  | pivot :: ext' =>
      let left :=
        bisect (List.length run)
          (fun mid => Compare pivot (nth mid run pivot) <? 0)
          0%nat (List.length run) in
      BinaryInsertionSort (insertAt left pivot run) ext'
  end.

(** The galloping loop: [offset] goes 1, 3, 7, ... until it reaches
    [maxOfs] or [stop offset] holds; returns [(lastOfs, offset)]. *)
Fixpoint gallop (fuel : nat) (stop : nat -> bool) (maxOfs lastOfs offset : nat)
    : nat * nat :=
  match fuel with
  | O => (lastOfs, offset)
  | S fuel' =>
      if (offset <? maxOfs)%nat then
        if stop offset then (lastOfs, offset)
        else gallop fuel' stop maxOfs offset (2 * offset + 1)%nat
      else (lastOfs, offset)
  end.

(** [GallopLeft(array, key, base, length, hint)] on the run [a]: the
    number of elements of [a] that go before [key] when [key] is put
    before the elements equal to it.  The second component of the pair
    below is [lastOfs + 1] (in the engine [lastOfs] can be -1 before it is
    incremented). *)
Definition GallopLeft (a : list A) (key : A) (hint : nat) : nat :=
  let length := List.length a in
  let order := Compare (nth hint a key) key in
  let '(offset, lastOfs1) :=
    if order <? 0 then
      let maxOfs := (length - hint)%nat in
      let '(lastOfs, offset) :=
        gallop maxOfs
          (fun ofs => 0 <=? Compare (nth (hint + ofs) a key) key)
          maxOfs 0%nat 1%nat in
      let offset := Nat.min offset maxOfs in
      ((offset + hint)%nat, (lastOfs + hint + 1)%nat)
    else
      let maxOfs := (hint + 1)%nat in
      let '(lastOfs, offset) :=
        gallop maxOfs
          (fun ofs => Compare (nth (hint - ofs) a key) key <? 0)
          maxOfs 0%nat 1%nat in
      let offset := Nat.min offset maxOfs in
      ((hint - lastOfs)%nat, (hint + 1 - offset)%nat) in
  bisect (offset - lastOfs1)
    (fun m => negb (Compare (nth m a key) key <? 0)) lastOfs1 offset.

(** [GallopRight(array, key, base, length, hint)]: the same with [key] put
    after the elements equal to it. *)
Definition GallopRight (a : list A) (key : A) (hint : nat) : nat :=
  let length := List.length a in
  let order := Compare key (nth hint a key) in
  let '(offset, lastOfs1) :=
    if order <? 0 then
      let maxOfs := (hint + 1)%nat in
      let '(lastOfs, offset) :=
        gallop maxOfs
          (fun ofs => 0 <=? Compare key (nth (hint - ofs) a key))
          maxOfs 0%nat 1%nat in
      let offset := Nat.min offset maxOfs in
      ((hint - lastOfs)%nat, (hint + 1 - offset)%nat)
    else
      let maxOfs := (length - hint)%nat in
      let '(lastOfs, offset) :=
        gallop maxOfs
          (fun ofs => Compare key (nth (hint + ofs) a key) <? 0)
          maxOfs 0%nat 1%nat in
      let offset := Nat.min offset maxOfs in
      ((offset + hint)%nat, (lastOfs + hint + 1)%nat) in
  bisect (offset - lastOfs1)
    (fun m => Compare key (nth m a key) <? 0) lastOfs1 offset.

(** A run split into its elements but the last, and the last one. *)
Definition unsnoc (l : list A) : option (list A * A) :=
  match rev l with
  | [] => None
  | x :: r => Some (rev r, x)
  end.

(** [MergeLow(baseA, lengthA, baseB, lengthB)]: run [a] has been copied to
    the temporary array, the merge fills the array from the left.  [out]
    is the part already written, [a] and [b] what is left of the two runs.
    [galloping] tells the inner loop the engine is in: one pair at a time,
    or galloping.  The label [Succeed] leaves [out ++ a ++ b] (one of [a],
    [b] is empty then for a consistent comparator), the label [CopyB]
    leaves [out ++ b ++ a].  Returns the merged run and
    [sortState.minGallop]. *)
Fixpoint MergeLow_loop (fuel : nat) (galloping : bool)
    (minGallop nofWinsA nofWinsB : nat) (out a b : list A)
    : list A * nat :=
  match fuel with
  | O => (out ++ a ++ b, minGallop)
  | S fuel' =>
      if galloping then
        match b with
        | [] => (out ++ a ++ b, minGallop)
        | b0 :: b' =>
            let minGallop := Nat.max 1 (minGallop - 1) in
            let nofWinsA := GallopRight a b0 0 in
            let out := out ++ firstn nofWinsA a in
            let a := skipn nofWinsA a in
            if ((0 <? nofWinsA) && (List.length a =? 1))%nat
            then (out ++ b ++ a, minGallop)
            else if ((0 <? nofWinsA) && (List.length a =? 0))%nat
            then (out ++ a ++ b, minGallop)
            else
              let out := out ++ [b0] in
              match b', a with
              | [], _ => (out ++ a ++ b', minGallop)
              | _, [] => (out ++ a ++ b', minGallop)
              | _ :: _, a0 :: a' =>
                  let nofWinsB := GallopLeft b' a0 0 in
                  let out := out ++ firstn nofWinsB b' in
                  let b := skipn nofWinsB b' in
                  if ((0 <? nofWinsB) && (List.length b =? 0))%nat
                  then (out ++ a ++ b, minGallop)
                  else
                    let out := out ++ [a0] in
                    if (List.length a' =? 1)%nat
                    then (out ++ b ++ a', minGallop)
                    else if ((kMinGallopWins <=? nofWinsA) ||
                             (kMinGallopWins <=? nofWinsB))%nat
                    then MergeLow_loop fuel' true minGallop
                           nofWinsA nofWinsB out a' b
                    else MergeLow_loop fuel' false (minGallop + 1)
                           0 0 out a' b
              end
        end
      else
        match a, b with
        | a0 :: a', b0 :: b' =>
            let order := Compare b0 a0 in
            if order <? 0 then
              let out := out ++ [b0] in
              let nofWinsB := (nofWinsB + 1)%nat in
              if (List.length b' =? 0)%nat
              then (out ++ a ++ b', minGallop)
              else if (minGallop <=? nofWinsB)%nat
              then MergeLow_loop fuel' true (minGallop + 1)
                     0 nofWinsB out a b'
              else MergeLow_loop fuel' false minGallop 0 nofWinsB out a b'
            else
              let out := out ++ [a0] in
              let nofWinsA := (nofWinsA + 1)%nat in
              if (List.length a' =? 1)%nat
              then (out ++ b ++ a', minGallop)
              else if (minGallop <=? nofWinsA)%nat
              then MergeLow_loop fuel' true (minGallop + 1)
                     nofWinsA 0 out a' b
              else MergeLow_loop fuel' false minGallop nofWinsA 0 out a' b
        | _, _ => (out ++ a ++ b, minGallop)
        end
  end.

Definition MergeLow (minGallop : nat) (a b : list A) : list A * nat :=
  match b with
  | [] => (a, minGallop)
  | b0 :: b' =>
      if (List.length b' =? 0)%nat then ([b0] ++ a, minGallop)
      else if (List.length a =? 1)%nat then ([b0] ++ b' ++ a, minGallop)
      else
        MergeLow_loop (List.length a + List.length b') false
          minGallop 0 0 [b0] a b'
  end.

(** [MergeHigh]: run [b] has been copied to the temporary array, the merge
    fills the array from the right, so [out] grows at its front and the
    runs are consumed from their last elements.  [Succeed] leaves
    [a ++ b ++ out], [CopyA] leaves [b ++ a ++ out]. *)
Fixpoint MergeHigh_loop (fuel : nat) (galloping : bool)
    (minGallop nofWinsA nofWinsB : nat) (a b out : list A)
    : list A * nat :=
  match fuel with
  | O => (a ++ b ++ out, minGallop)
  | S fuel' =>
      if galloping then
        match unsnoc b with
        | None => (a ++ b ++ out, minGallop)
        | Some (b', bLast) =>
            let minGallop := Nat.max 1 (minGallop - 1) in
            let k := GallopRight a bLast (List.length a - 1) in
            let nofWinsA := (List.length a - k)%nat in
            let out := skipn k a ++ out in
            let a := firstn k a in
            if ((0 <? nofWinsA) && (List.length a =? 0))%nat
            then (a ++ b ++ out, minGallop)
            else
              let out := bLast :: out in
              if (List.length b' =? 1)%nat
              then (b' ++ a ++ out, minGallop)
              else
                match unsnoc a with
                | None => (a ++ b' ++ out, minGallop)
                | Some (a', aLast) =>
                    let k := GallopLeft b' aLast (List.length b' - 1) in
                    let nofWinsB := (List.length b' - k)%nat in
                    let out := skipn k b' ++ out in
                    let b := firstn k b' in
                    if ((0 <? nofWinsB) && (List.length b =? 1))%nat
                    then (b ++ a ++ out, minGallop)
                    else if ((0 <? nofWinsB) && (List.length b =? 0))%nat
                    then (a ++ b ++ out, minGallop)
                    else
                      let out := aLast :: out in
                      if (List.length a' =? 0)%nat
                      then (a' ++ b ++ out, minGallop)
                      else if ((kMinGallopWins <=? nofWinsA) ||
                               (kMinGallopWins <=? nofWinsB))%nat
                      then MergeHigh_loop fuel' true minGallop
                             nofWinsA nofWinsB a' b out
                      else MergeHigh_loop fuel' false (minGallop + 1)
                             0 0 a' b out
                end
        end
      else
        match unsnoc a, unsnoc b with
        | Some (a', aLast), Some (b', bLast) =>
            let order := Compare bLast aLast in
            if order <? 0 then
              let out := aLast :: out in
              let nofWinsA := (nofWinsA + 1)%nat in
              if (List.length a' =? 0)%nat
              then (a' ++ b ++ out, minGallop)
              else if (minGallop <=? nofWinsA)%nat
              then MergeHigh_loop fuel' true (minGallop + 1)
                     nofWinsA 0 a' b out
              else MergeHigh_loop fuel' false minGallop nofWinsA 0 a' b out
            else
              let out := bLast :: out in
              let nofWinsB := (nofWinsB + 1)%nat in
              if (List.length b' =? 1)%nat
              then (b' ++ a ++ out, minGallop)
              else if (minGallop <=? nofWinsB)%nat
              then MergeHigh_loop fuel' true (minGallop + 1)
                     0 nofWinsB a b' out
              else MergeHigh_loop fuel' false minGallop 0 nofWinsB a b' out
        | _, _ => (a ++ b ++ out, minGallop)
        end
  end.

Definition MergeHigh (minGallop : nat) (a b : list A) : list A * nat :=
  match unsnoc a with
  | None => (b, minGallop)
  | Some (a', aLast) =>
      if (List.length a' =? 0)%nat then (b ++ [aLast], minGallop)
      else if (List.length b =? 1)%nat then (b ++ a' ++ [aLast], minGallop)
      else
        MergeHigh_loop (List.length a' + List.length b) false
          minGallop 0 0 a' b [aLast]
  end.

(** [MergeAt(i)] on the runs [a] (run i) and [b] (run i+1): the elements
    of [a] that already precede [b] and the elements of [b] that already
    follow [a] stay, the rest is merged from the shorter side. *)
Definition MergeAt (minGallop : nat) (a b : list A) : list A * nat :=
  match b with
  | [] => (a ++ b, minGallop)
  | keyRight :: _ =>
      let k := GallopRight a keyRight 0 in
      let a' := skipn k a in
      match unsnoc a' with
      | None => (a ++ b, minGallop)
      | Some (_, keyLeft) =>
          let lengthB := GallopLeft b keyLeft (List.length b - 1) in
          let b' := firstn lengthB b in
          if (lengthB =? 0)%nat then (a ++ b, minGallop)
          else
            let '(merged, minGallop) :=
              if (List.length a' <=? List.length b')%nat
              then MergeLow minGallop a' b'
              else MergeHigh minGallop a' b' in
            (firstn k a ++ merged ++ skipn lengthB b, minGallop)
      end
  end.

(** [RunInvariantEstablished(pendingRuns, n)] for the run at position
    [n] from the bottom, given the runs from that one downwards. *)
Definition RunInvariantEstablished (runs : list (list A)) : bool :=
  match runs with
  | rN :: rNM :: rNMM :: _ =>
      (List.length rNM + List.length rN <? List.length rNMM)%nat
  | _ => true
  end.

(** [MergeCollapse]: merge neighbouring runs until the run lengths grow
    fast enough down the stack. *)
Fixpoint MergeCollapse (fuel : nat) (minGallop : nat)
    (runs : list (list A)) : list (list A) * nat :=
  match fuel with
  | O => (runs, minGallop)
  | S fuel' =>
      match runs with
      | r0 :: r1 :: below =>
          if negb (RunInvariantEstablished runs) ||
             negb (RunInvariantEstablished (r1 :: below))
          then
            match below with
            | r2 :: below' =>
                if (List.length r2 <? List.length r0)%nat then
                  let '(m, minGallop) := MergeAt minGallop r2 r1 in
                  MergeCollapse fuel' minGallop (r0 :: m :: below')
                else
                  let '(m, minGallop) := MergeAt minGallop r1 r0 in
                  MergeCollapse fuel' minGallop (m :: below)
            | [] =>
                let '(m, minGallop) := MergeAt minGallop r1 r0 in
                MergeCollapse fuel' minGallop (m :: below)
            end
          else if (List.length r1 <=? List.length r0)%nat then
            let '(m, minGallop) := MergeAt minGallop r1 r0 in
            MergeCollapse fuel' minGallop (m :: below)
          else (runs, minGallop)
      | _ => (runs, minGallop)
      end
  end.

(** [MergeForceCollapse]: merge until one run is left. *)
Fixpoint MergeForceCollapse (fuel : nat) (minGallop : nat)
    (runs : list (list A)) : list (list A) * nat :=
  match fuel with
  | O => (runs, minGallop)
  | S fuel' =>
      match runs with
      | r0 :: r1 :: below =>
          match below with
          | r2 :: below' =>
              if (List.length r2 <? List.length r0)%nat then
                let '(m, minGallop) := MergeAt minGallop r2 r1 in
                MergeForceCollapse fuel' minGallop (r0 :: m :: below')
              else
                let '(m, minGallop) := MergeAt minGallop r1 r0 in
                MergeForceCollapse fuel' minGallop (m :: below)
          | [] =>
              let '(m, minGallop) := MergeAt minGallop r1 r0 in
              MergeForceCollapse fuel' minGallop (m :: below)
          end
      | _ => (runs, minGallop)
      end
  end.

(** The main loop of [ArrayTimSortImpl]: cut the next run off [remaining],
    extend a short one to [minRunLength] by binary insertion, push it and
    collapse. *)
Fixpoint ArrayTimSortImpl_loop (fuel : nat) (minRunLength : nat)
    (minGallop : nat) (runs : list (list A)) (remaining : list A)
    : list (list A) * nat :=
  match remaining with
  | [] => (runs, minGallop)
  | _ :: _ =>
      match fuel with
      | O => (remaining :: runs, minGallop)
      | S fuel' =>
          let '(run, rest) := CountAndMakeRun remaining in
          let '(run, rest) :=
            if (List.length run <? minRunLength)%nat then
              let forcedRunLength :=
                Nat.min minRunLength (List.length remaining) in
              let n := (forcedRunLength - List.length run)%nat in
              (BinaryInsertionSort run (firstn n rest), skipn n rest)
            else (run, rest) in
          let '(runs, minGallop) :=
            MergeCollapse (S (List.length runs)) minGallop (run :: runs) in
          ArrayTimSortImpl_loop fuel' minRunLength minGallop runs rest
      end
  end.

(** [ArrayTimSortImpl]: the sorted array is the one run left at the end. *)
Definition ArrayTimSortImpl (l : list A) : list A :=
  if (List.length l <? 2)%nat then l
  else
    let minRunLength := ComputeMinRunLength (List.length l) in
    let '(runs, minGallop) :=
      ArrayTimSortImpl_loop (List.length l) minRunLength kMinGallopWins
        [] l in
    let '(runs, _) :=
      MergeForceCollapse (List.length runs) minGallop runs in
    List.concat (rev runs).

End TimSort.

(** [array.sort(comparefn)] for an array without holes and without
    [undefined] elements (the list endpoint sorts records). *)
Definition sort {A : Type} (comparefn : A -> A -> Z) (l : list A) : list A :=
  ArrayTimSortImpl comparefn l.

End V8.

(* ================================================================== *)
(** ** The server: [server/index.ts] *)
(* ================================================================== *)

(** *** Data model ([server/types.ts]) *)

Inductive Status : Type := Pending | Processing | Processed | Failed.

(** The string a status is in the program. *)
Definition statusString (s : Status) : string :=
  match s with
  | Pending => "Pending"
  | Processing => "Processing"
  | Processed => "Processed"
  | Failed => "Failed"
  end%string.

(** Time stamps ([Date] objects) are held as milliseconds since the
    epoch. *)
Record Invoice : Type := mkInvoice {
  id : string;
  fileName : string;
  fileSize : Z;
  clientName : string;
  amount : Z;
  uploadDate : Z;
  status : Status;
  filePath : string;
  processingStartTime : option Z;
  processingEndTime : option Z
}.

Record InvoiceListResponse : Type := mkResponse {
  data : list Invoice;
  total : Z;
  page : Z;
  limit : Z
}.

(** *** The in-memory store: [const invoices = new Map<string, Invoice>()]

    A [Map] iterates in insertion order, and the list endpoint sorts what
    it iterates, so the store is an association list in insertion
    order. *)
Definition Store : Type := list (string * Invoice).

(** [invoices.get(key)]. *)
Fixpoint Map_get (key : string) (m : Store) : option Invoice :=
  match m with
  | [] => None
  | (k, v) :: m' => if String.eqb k key then Some v else Map_get key m'
  end.

(** [invoices.set(key, v)]: an existing key keeps its position. *)
Fixpoint Map_set (key : string) (v : Invoice) (m : Store) : Store :=
  match m with
  | [] => [(key, v)]
  | (k, v0) :: m' =>
      if String.eqb k key then (k, v) :: m'
      else (k, v0) :: Map_set key v m'
  end.

(** [Array.from(invoices.values())]. *)
Definition Map_values (m : Store) : list Invoice := map snd m.

(** An assignment to fields of the object [invoices.get(key)] returned:
    the record held under [key] is replaced by [f] of it, in place. *)
Fixpoint Map_mutate (key : string) (f : Invoice -> Invoice) (m : Store)
    : Store :=
  match m with
  | [] => []
  | (k, v) :: m' =>
      if String.eqb k key then (k, f v) :: m'
      else (k, v) :: Map_mutate key f m'
  end.

(** *** Helper functions *)

Definition mockClients : list string :=
  [ "Acme Corporation"; "TechFlow Solutions"; "Global Dynamics";
    "Innovate Industries"; "NextGen Systems"; "Prime Enterprises";
    "Digital Horizons"; "Strategic Partners"; "Future Ventures";
    "Elite Services" ]%string.

(** [Math.random()] is an argument [u], a rational in [0, 1). *)
Definition generateMockAmount (u : Q) : Z :=
  Qfloor (u * 10000) + 100.

Definition getRandomClient (u : Q) : string :=
  nth (Z.to_nat (Qfloor (u * inject_Z (Z.of_nat (List.length mockClients)))))
    mockClients EmptyString.

(** *** The list endpoint: [GET /api/invoices] *)

(** [req.query]: each parameter is a string or absent. *)
Record Query : Type := mkQuery {
  q_page : option string;
  q_limit : option string;
  q_sortBy : option string;
  q_sortOrder : option string;
  q_status : option string;
  q_search : option string
}.

(** [invoice[sortBy as keyof Invoice]]: the field named [sortBy], and
    [undefined] for any other name.  (A name the record inherits, such as
    [toString], reads the same object from every record; like [undefined]
    it is neither less nor greater than itself.) *)
Definition getField (sortBy : string) (invoice : Invoice) : JS.value :=
  if String.eqb sortBy "id" then JS.JString (id invoice)
  else if String.eqb sortBy "fileName" then JS.JString (fileName invoice)
  else if String.eqb sortBy "fileSize" then JS.JNumber (fileSize invoice)
  else if String.eqb sortBy "clientName" then JS.JString (clientName invoice)
  else if String.eqb sortBy "amount" then JS.JNumber (amount invoice)
  else if String.eqb sortBy "uploadDate" then JS.JDate (uploadDate invoice)
  else if String.eqb sortBy "status"
       then JS.JString (statusString (status invoice))
  else if String.eqb sortBy "filePath" then JS.JString (filePath invoice)
  else if String.eqb sortBy "processingStartTime" then
    match processingStartTime invoice with
    | Some t => JS.JDate t
    | None => JS.JUndefined
    end
  else if String.eqb sortBy "processingEndTime" then
    match processingEndTime invoice with
    | Some t => JS.JDate t
    | None => JS.JUndefined
    end
  else JS.JUndefined.

(** [new Date(v).getTime()]: the time value of a date, NaN (held as
    [JUndefined], which compares the same way) for [undefined]. *)
Definition getTime (v : JS.value) : JS.value :=
  match v with
  | JS.JDate t => JS.JNumber t
  | JS.JNumber n => JS.JNumber n
  | _ => JS.JUndefined
  end.

(** The comparator passed to [filteredInvoices.sort]. *)
Definition compareInvoices (sortBy sortOrder : string) (a b : Invoice) : Z :=
  let aValue := getField sortBy a in
  let bValue := getField sortBy b in
  let '(aValue, bValue) :=
    if String.eqb sortBy "uploadDate"
    then (getTime aValue, getTime bValue)
    else (aValue, bValue) in
  if String.eqb sortOrder "asc"
  then (if JS.gt aValue bValue then 1 else -1)
  else (if JS.lt aValue bValue then 1 else -1).

(** The status filter: applied when [status] is truthy and not ["all"]. *)
Definition statusFilter (status_ : option string) (l : list Invoice)
    : list Invoice :=
  match status_ with
  | None => l
  | Some s =>
      if negb (String.eqb s EmptyString) && negb (String.eqb s "all")
      then filter (fun invoice => String.eqb (statusString (status invoice)) s) l
      else l
  end.

(** The search filter: applied when [search] is truthy. *)
Definition searchFilter (search : option string) (l : list Invoice)
    : list Invoice :=
  match search with
  | None => l
  | Some s =>
      if negb (String.eqb s EmptyString) then
        let searchLower := JS.toLowerCase s in
        filter (fun invoice =>
                  JS.includes (JS.toLowerCase (fileName invoice)) searchLower ||
                  JS.includes (JS.toLowerCase (clientName invoice)) searchLower)
               l
      else l
  end.

(** The handler of [GET /api/invoices], on the store and the query. *)
Definition listInvoices (invoices : Store) (q : Query) : InvoiceListResponse :=
  let page := JS.parseIntOr (q_page q) 1 in
  let limit := JS.parseIntOr (q_limit q) 10 in
  let sortBy := JS.stringOr (q_sortBy q) "uploadDate" in
  let sortOrder := JS.stringOr (q_sortOrder q) "desc" in
  let filteredInvoices := Map_values invoices in
  let filteredInvoices := statusFilter (q_status q) filteredInvoices in
  let filteredInvoices := searchFilter (q_search q) filteredInvoices in
  let filteredInvoices :=
    V8.sort (compareInvoices sortBy sortOrder) filteredInvoices in
  let startIndex := (page - 1) * limit in
  let endIndex := startIndex + limit in
  let paginatedInvoices := JS.slice filteredInvoices startIndex endIndex in
  {| data := paginatedInvoices;
     total := Z.of_nat (List.length filteredInvoices);
     page := page;
     limit := limit |}.

(** *** The status simulator and the upload endpoint *)

(** A pending [setTimeout]: the call of [simulateProcessing] scheduled by
    the upload handler (Start), or the callback [simulateProcessing]
    schedules (Finish), with the delay in milliseconds. *)
Inductive Timer : Type :=
  | StartTimer (invoiceId : string) (delay : Z)
  | FinishTimer (invoiceId : string) (delay : Z).

Definition timerId (t : Timer) : string :=
  match t with
  | StartTimer i _ => i
  | FinishTimer i _ => i
  end.

(** The state of the process: the store and the timers not yet fired. *)
Record Server : Type := mkServer {
  invoices : Store;
  timers : list Timer
}.

Definition initialServer : Server := {| invoices := []; timers := [] |}.

(** [invoice.status = 'Processing'; invoice.processingStartTime = now]. *)
Definition startFields (now : Z) (invoice : Invoice) : Invoice :=
  {| id := id invoice;
     fileName := fileName invoice;
     fileSize := fileSize invoice;
     clientName := clientName invoice;
     amount := amount invoice;
     uploadDate := uploadDate invoice;
     status := Processing;
     filePath := filePath invoice;
     processingStartTime := Some now;
     processingEndTime := processingEndTime invoice |}.

(** [updatedInvoice.status = isSuccess ? 'Processed' : 'Failed';
    updatedInvoice.processingEndTime = now]. *)
Definition finishFields (isSuccess : bool) (now : Z) (invoice : Invoice)
    : Invoice :=
  {| id := id invoice;
     fileName := fileName invoice;
     fileSize := fileSize invoice;
     clientName := clientName invoice;
     amount := amount invoice;
     uploadDate := uploadDate invoice;
     status := if isSuccess then Processed else Failed;
     filePath := filePath invoice;
     processingStartTime := processingStartTime invoice;
     processingEndTime := Some now |}.

(** [simulateProcessing(invoiceId)], run at time [now]; [u] is the value
    [Math.random()] returns for the processing time. *)
Definition simulateProcessing (invoiceId : string) (now : Z) (u : Q)
    (s : Server) : Server :=
  match Map_get invoiceId (invoices s) with
  | None => s
  | Some _ =>
      let processingTime := Qfloor (u * 30000) + 15000 in
      {| invoices := Map_mutate invoiceId (startFields now) (invoices s);
         timers := timers s ++ [FinishTimer invoiceId processingTime] |}
  end.

(** The callback [simulateProcessing] passes to [setTimeout], run at time
    [now]; [u] is the value [Math.random()] returns for the outcome. *)
Definition finishProcessing (invoiceId : string) (now : Z) (u : Q)
    (s : Server) : Server :=
  match Map_get invoiceId (invoices s) with
  | None => s
  | Some _ =>
      let isSuccess := negb (Qle_bool (8 # 10) u) in
      {| invoices :=
           Map_mutate invoiceId (finishFields isSuccess now) (invoices s);
         timers := timers s |}
  end.

(** One uploaded file as multer hands it over, with what the environment
    supplies while the handler builds its record: the identifier from
    [uuidv4()], the two values of [Math.random()] and the clock. *)
Record UploadedFile : Type := mkFile {
  originalname : string;
  size : Z;
  path : string;
  uuid : string;
  uClient : Q;
  uAmount : Q;
  now : Z
}.

(** The body of [files.forEach] in [POST /api/invoices/upload]. *)
Definition createInvoice (s : Server) (file : UploadedFile) : Server :=
  let invoice :=
    {| id := uuid file;
       fileName := originalname file;
       fileSize := size file;
       clientName := getRandomClient (uClient file);
       amount := generateMockAmount (uAmount file);
       uploadDate := now file;
       status := Pending;
       filePath := path file;
       processingStartTime := None;
       processingEndTime := None |} in
  {| invoices := Map_set (id invoice) invoice (invoices s);
     timers := timers s ++ [StartTimer (id invoice) 1000] |}.

(** The upload handler on the state: with no file the request is refused
    (status 400) and nothing changes. *)
Definition uploadInvoices (files : list UploadedFile) (s : Server) : Server :=
  fold_left createInvoice files s.

(** What can happen to the process: an upload request, or the [k]-th
    pending timer fires at time [t] and its callback draws [u]. *)
Inductive Event : Type :=
  | EUpload (files : list UploadedFile)
  | EFire (k : nat) (t : Z) (u : Q).

Definition removeNth {A : Type} (k : nat) (l : list A) : list A :=
  firstn k l ++ skipn (S k) l.

Definition fire (k : nat) (t : Z) (u : Q) (s : Server) : Server :=
  match nth_error (timers s) k with
  | None => s
  | Some timer =>
      let s' := {| invoices := invoices s;
                   timers := removeNth k (timers s) |} in
      match timer with
      | StartTimer invoiceId _ => simulateProcessing invoiceId t u s'
      | FinishTimer invoiceId _ => finishProcessing invoiceId t u s'
      end
  end.

Definition step (s : Server) (e : Event) : Server :=
  match e with
  | EUpload files => uploadInvoices files s
  | EFire k t u => fire k t u s
  end.

(** [uuidv4()] returns identifiers that are new: not in the store and not
    given to another file of the same request. *)
Definition freshIds (s : Server) (e : Event) : Prop :=
  match e with
  | EUpload files =>
      NoDup (map uuid files) /\
      forall f, In f files -> Map_get (uuid f) (invoices s) = None
  | EFire _ _ _ => True
  end.

(** The states the process can be in. *)
Inductive reachable : Server -> Prop :=
  | reachable_init : reachable initialServer
  | reachable_step : forall s e,
      reachable s -> freshIds s e -> reachable (step s e).

(** One move of a status along Pending -> Processing -> Processed/Failed,
    or no move. *)
Definition forward (s s' : Status) : Prop :=
  s = s' \/
  (s = Pending /\ s' = Processing) \/
  (s = Processing /\ (s' = Processed \/ s' = Failed)).

Definition terminal (s : Status) : Prop := s = Processed \/ s = Failed.

(** *** The single-record endpoint and the upload request *)

(** What a handler answers: a JSON body, or a status code with the body
    [{ error: message }]. *)
Inductive Reply (A : Type) : Type :=
  | Json (body : A)
  | Refused (code : Z) (error : string).

Arguments Json {A} body.
Arguments Refused {A} code error.

(** The handler of [GET /api/invoices/:id]. *)
Definition getInvoice (invoices : Store) (id_ : string) : Reply Invoice :=
  match Map_get id_ invoices with
  | None => Refused 404 "Invoice not found"
  | Some invoice => Json invoice
  end.

(** The record the upload handler builds for one file. *)
Definition newInvoice (file : UploadedFile) : Invoice :=
  {| id := uuid file;
     fileName := originalname file;
     fileSize := size file;
     clientName := getRandomClient (uClient file);
     amount := generateMockAmount (uAmount file);
     uploadDate := now file;
     status := Pending;
     filePath := path file;
     processingStartTime := None;
     processingEndTime := None |}.

(** [UploadResponse] ([server/types.ts]). *)
Record UploadResponse : Type := mkUploadResponse {
  success : bool;
  createdInvoices : list Invoice;
  message : string
}.

(** The handler of [POST /api/invoices/upload] on the files multer hands
    over: with no file the request is refused and nothing changes;
    otherwise the response carries the records in the order of the
    files. *)
Definition postUpload (files : list UploadedFile) (s : Server)
    : Server * Reply UploadResponse :=
  match files with
  | [] => (s, Refused 400 "No files uploaded")
  | _ :: _ =>
      (uploadInvoices files s,
       Json {| success := true;
               createdInvoices := map newInvoice files;
               message :=
                 ("Successfully uploaded " ++
                  JS.numberToString (Z.of_nat (List.length files)) ++
                  " invoice(s)")%string |})
  end.

(** An error handed to the error middleware: a [multer.MulterError] with
    its code, or any other [Error]; both carry a message. *)
Inductive UploadError : Type :=
  | MulterError (code message : string)
  | OtherError (message : string).

Definition errorMessage (error : UploadError) : string :=
  match error with
  | MulterError _ m => m
  | OtherError m => m
  end.

(** [fileFilter] of the multer configuration, on the media type the file
    part declares ([file.mimetype]): [None] accepts the file. *)
Definition fileFilter (mimetype : string) : option UploadError :=
  if String.eqb mimetype "application/pdf" then None
  else Some (OtherError "Only PDF files are allowed").

(** The error handling middleware: status code and error message. *)
Definition errorMiddleware (error : UploadError) : Z * string :=
  let tooLarge :=
    match error with
    | MulterError code _ => String.eqb code "LIMIT_FILE_SIZE"
    | OtherError _ => false
    end in
  if tooLarge
  then (400, "File size too large. Maximum size is 10MB."%string)
  else if String.eqb (errorMessage error) "Only PDF files are allowed"
  then (400, "Only PDF files are allowed"%string)
  else (500, "Internal server error"%string).

(** What [upload.array('invoices')] makes of a request: it raises an
    error (the one [fileFilter] gave it, or a [MulterError] of its own,
    with a code such as [LIMIT_FILE_SIZE] or [LIMIT_UNEXPECTED_FILE]), or
    it hands the files it has stored to the handler.  Which of the two it
    does with a request is multer's affair and is not modelled: the route
    takes the outcome as it comes. *)
Definition MulterOutcome : Type := (UploadError + list UploadedFile)%type.

(** The route [POST /api/invoices/upload] on the outcome of multer:
    an error goes to the error middleware and the handler does not run;
    the stored files go to the handler. *)
Definition uploadRoute (outcome : MulterOutcome) (s : Server)
    : Server * Reply UploadResponse :=
  match outcome with
  | inl error =>
      let '(code, msg) := errorMiddleware error in (s, Refused code msg)
  | inr files => postUpload files s
  end.

(* ================================================================== *)
(** ** The client *)
(* ================================================================== *)

(** *** [services/api.ts] *)

Module api.

(** The parameters of [api.getInvoices]; an absent one is [undefined]. *)
Record Params : Type := mkParams {
  page : option Z;
  limit : option Z;
  sortBy : option string;
  sortOrder : option string;
  status : option string;
  search : option string
}.

(** A number parameter as [searchParams.append(key, value.toString())]
    sends it: no number is [undefined] or the empty string. *)
Definition appendNumber (value : option Z) : option string :=
  match value with
  | None => None
  | Some n => Some (JS.numberToString n)
  end.

(** A string parameter: [undefined] and the empty string are not sent. *)
Definition appendString (value : option string) : option string :=
  match value with
  | None => None
  | Some s => if String.eqb s EmptyString then None else Some s
  end.

(** [api.getInvoices(params)]: the query the server receives. *)
Definition getInvoices (params : Params) : Query :=
  {| q_page := appendNumber (page params);
     q_limit := appendNumber (limit params);
     q_sortBy := appendString (sortBy params);
     q_sortOrder := appendString (sortOrder params);
     q_status := appendString (status params);
     q_search := appendString (search params) |}.

End api.

(** *** [App.tsx] *)

Module App.

(** The test of the auto-refresh effect: some record shown is Pending or
    Processing. *)
Definition hasProcessingInvoices (invoices : list Invoice) : bool :=
  existsb (fun invoice =>
             String.eqb (statusString (status invoice)) "Pending" ||
             String.eqb (statusString (status invoice)) "Processing")
          invoices.

Record SortConfig : Type := mkSortConfig {
  field : string;
  direction : string
}.

Record FilterConfig : Type := mkFilterConfig {
  status : string;
  search : string
}.

(** The state of [App] that the list request is built from. *)
Record State : Type := mkState {
  currentPage : Z;
  itemsPerPage : Z;
  sortConfig : SortConfig;
  filters : FilterConfig
}.

Definition initialState : State :=
  {| currentPage := 1;
     itemsPerPage := 10;
     sortConfig := {| field := "uploadDate"; direction := "desc" |};
     filters := {| status := "all"; search := EmptyString |} |}.

(** The parameters [fetchInvoices] passes to [api.getInvoices]. *)
Definition fetchParams (st : State) : api.Params :=
  {| api.page := Some (currentPage st);
     api.limit := Some (itemsPerPage st);
     api.sortBy := Some (field (sortConfig st));
     api.sortOrder := Some (direction (sortConfig st));
     api.status :=
       if String.eqb (status (filters st)) "all" then None
       else Some (status (filters st));
     api.search := Some (search (filters st)) |}.

(** The query the server receives from [fetchInvoices]. *)
Definition fetchInvoices (st : State) : Query :=
  api.getInvoices (fetchParams st).

(** [setTotalPages(Math.ceil(response.total / itemsPerPage))]. *)
Definition totalPages (response : InvoiceListResponse) (st : State) : Z :=
  JS.ceilOfQuotient (total response) (itemsPerPage st).

Definition handleSort (field_ : string) (st : State) : State :=
  {| currentPage := 1;
     itemsPerPage := itemsPerPage st;
     sortConfig :=
       {| field := field_;
          direction :=
            if String.eqb (field (sortConfig st)) field_ &&
               String.eqb (direction (sortConfig st)) "asc"
            then "desc"%string else "asc"%string |};
     filters := filters st |}.

Definition handleFilterChange (newFilters : FilterConfig) (st : State)
    : State :=
  {| currentPage := 1;
     itemsPerPage := itemsPerPage st;
     sortConfig := sortConfig st;
     filters := newFilters |}.

Definition handlePageChange (page : Z) (st : State) : State :=
  {| currentPage := page;
     itemsPerPage := itemsPerPage st;
     sortConfig := sortConfig st;
     filters := filters st |}.

End App.

(** *** [components/InvoiceTable.tsx] *)

Module InvoiceTable.

Definition truncateName (name : string) (maxLength : Z) : string :=
  if Z.of_nat (String.length name) <=? maxLength then name
  else (JS.substring name 0 maxLength ++ "...")%string.

End InvoiceTable.

(** *** [components/FileUpload.tsx] *)

Module FileUpload.

(** [poll] inside [pollInvoiceStatus]: each run asks the server for the
    record once.  [answers] are the answers the server gives to the
    successive requests ([None]: the request fails and the error is
    caught); the result is every status the poll has shown, so its length
    is the number of requests that were answered. *)
Fixpoint poll (maxAttempts attempts : Z) (answers : list (option Status))
    : list Status :=
  match answers with
  | [] => []
  | None :: _ => []
  | Some st :: answers' =>
      st ::
      (if match st with Processed | Failed => true | _ => false end ||
          (maxAttempts <=? attempts)
       then []
       else poll maxAttempts (attempts + 1) answers')
  end.

Definition pollInvoiceStatus (answers : list (option Status)) : list Status :=
  poll 60 0 answers.

End FileUpload.

(* ================================================================== *)
(** ** Notions the properties are stated with *)
(* ================================================================== *)

(** A record passes the status filter: no filter is asked for (absent,
    empty or "all"), or the record's status is the one asked for. *)
Definition passesStatus (status_ : option string) (invoice : Invoice) : bool :=
  match status_ with
  | None => true
  | Some s =>
      String.eqb s EmptyString || String.eqb s "all" ||
      String.eqb (statusString (status invoice)) s
  end.

(** A record passes the text filter: no text is given, or the lower-cased
    file name or client name includes the lower-cased text. *)
Definition passesSearch (search : option string) (invoice : Invoice) : bool :=
  match search with
  | None => true
  | Some s =>
      String.eqb s EmptyString ||
      JS.includes (JS.toLowerCase (fileName invoice)) (JS.toLowerCase s) ||
      JS.includes (JS.toLowerCase (clientName invoice)) (JS.toLowerCase s)
  end.

(** The records of the store that pass both filters. *)
Definition passing (store : Store) (q : Query) : list Invoice :=
  filter (fun invoice =>
            passesStatus (q_status q) invoice &&
            passesSearch (q_search q) invoice)
         (Map_values store).

(** The filtered records in the order the engine has sorted them. *)
Definition sortedInvoices (store : Store) (q : Query) : list Invoice :=
  V8.sort (compareInvoices (JS.stringOr (q_sortBy q) "uploadDate")
                           (JS.stringOr (q_sortOrder q) "desc"))
          (passing store q).

(** The query with its page parameter replaced. *)
Definition withPage (q : Query) (page_ : option string) : Query :=
  mkQuery page_ (q_limit q) (q_sortBy q) (q_sortOrder q)
          (q_status q) (q_search q).

(** The query with its status parameter replaced. *)
Definition withStatus (q : Query) (status_ : option string) : Query :=
  mkQuery (q_page q) (q_limit q) (q_sortBy q) (q_sortOrder q)
          status_ (q_search q).


(** The pipeline of the specification with chosen filter stages: the
    stages are applied to all records, then sort, then paginate. *)
Definition pipeline (stages : list Invoice -> list Invoice)
    (store : Store) (q : Query) : InvoiceListResponse :=
  let page := JS.parseIntOr (q_page q) 1 in
  let limit := JS.parseIntOr (q_limit q) 10 in
  let sorted :=
    V8.sort (compareInvoices (JS.stringOr (q_sortBy q) "uploadDate")
                             (JS.stringOr (q_sortOrder q) "desc"))
            (stages (Map_values store)) in
  {| data := JS.slice sorted ((page - 1) * limit) ((page - 1) * limit + limit);
     total := Z.of_nat (List.length sorted);
     page := page;
     limit := limit |}.

(** The engine with no status filter at all: only the text filter. *)
Definition listWithoutStatusFilter (store : Store) (q : Query)
    : InvoiceListResponse :=
  pipeline (searchFilter (q_search q)) store q.








(** The names under which a record holds a field. *)
Definition fieldNames : list string :=
  [ "id"; "fileName"; "fileSize"; "clientName"; "amount"; "uploadDate";
    "status"; "filePath"; "processingStartTime"; "processingEndTime" ]%string.

(** [sortBy] names no field of a record. *)
Definition absentKey (sortBy : string) : Prop := ~ In sortBy fieldNames.

(** The status of the record held under an identifier. *)
Definition statusOf (s : Server) (i : string) : option Status :=
  option_map status (Map_get i (invoices s)).

(** What the timers say about the records: an identifier has at most one
    pending timer; a pending Start belongs to a Pending record and a
    pending Finish to a Processing record. *)
Definition timersAgree (s : Server) : Prop :=
  NoDup (map timerId (timers s)) /\
  (forall i d, In (StartTimer i d) (timers s) ->
               statusOf s i = Some Pending) /\
  (forall i d, In (FinishTimer i d) (timers s) ->
               statusOf s i = Some Processing).

(** *** Notions for the order the sort produces *)

(** Every element of [l1] has a smaller key than every element of [l2]. *)
Definition below {A : Type} (key : A -> Z) (l1 l2 : list A) : Prop :=
  forall x y, In x l1 -> In y l2 -> key x < key y.

(** Every key of [l] is smaller than [z]. *)
Definition allBelow {A : Type} (key : A -> Z) (l : list A) (z : Z) : Prop :=
  forall x, In x l -> key x < z.

(** Every key of [l] is greater than [z]. *)
Definition allAbove {A : Type} (key : A -> Z) (l : list A) (z : Z) : Prop :=
  forall x, In x l -> z < key x.

(** No element of [l1] has the key of an element of [l2]. *)
Definition apart {A : Type} (key : A -> Z) (l1 l2 : list A) : Prop :=
  forall x y, In x l1 -> In y l2 -> key x <> key y.

(** No key of [l] is [z]. *)
Definition allApart {A : Type} (key : A -> Z) (l : list A) (z : Z) : Prop :=
  forall x, In x l -> key x <> z.

(** The keys grow strictly along [l]. *)
Fixpoint increasing {A : Type} (key : A -> Z) (l : list A) : Prop :=
  match l with
  | [] => True
  | x :: l' => allAbove key l' (key x) /\ increasing key l'
  end.

(** The keys of [l] are pairwise distinct. *)
Definition distinctKeys {A : Type} (key : A -> Z) (l : list A) : Prop :=
  NoDup (map key l).

(** What both gallops return, in terms of the test [P m] that tells
    whether the key goes before the element at position [m]. *)
Definition bracketed (P : nat -> bool) (n r : nat) : Prop :=
  (r <= n)%nat /\
  (r = 0%nat \/ P (r - 1)%nat = false) /\
  (r = n \/ P r = true).

(** *** Notions for the helper functions and the invariants of the store *)

(** A value [Math.random()] can return: a rational in [0, 1). *)
Definition unitInterval (u : Q) : Prop := (0 <= u)%Q /\ (u < 1)%Q.

(** The amount and the client of a record are ones the helper functions
    can draw. *)
Definition wellDrawn (r : Invoice) : Prop :=
  100 <= amount r <= 10099 /\ In (clientName r) mockClients.

(** Every value the event draws with [Math.random()] for a new record is
    in [0, 1). *)
Definition validDraws (e : Event) : Prop :=
  match e with
  | EUpload files =>
      forall f, In f files ->
        unitInterval (uClient f) /\ unitInterval (uAmount f)
  | EFire _ _ _ => True
  end.

(** [r'] has the fields of [r] that are written once, when the record is
    created. *)
Definition persistent (r r' : Invoice) : Prop :=
  id r' = id r /\ fileName r' = fileName r /\ fileSize r' = fileSize r /\
  clientName r' = clientName r /\ amount r' = amount r /\
  uploadDate r' = uploadDate r /\ filePath r' = filePath r.

(** The two processing time stamps are set as far as the status says. *)
Definition stampsAgree (r : Invoice) : Prop :=
  match status r with
  | Pending => processingStartTime r = None /\ processingEndTime r = None
  | Processing => processingStartTime r <> None /\ processingEndTime r = None
  | Processed | Failed =>
      processingStartTime r <> None /\ processingEndTime r <> None
  end.

(** The entries and the timers an upload of [files] adds. *)
Definition newEntries (files : list UploadedFile) : Store :=
  map (fun f => (uuid f, newInvoice f)) files.

Definition newTimers (files : list UploadedFile) : list Timer :=
  map (fun f => StartTimer (uuid f) 1000) files.

(** What [fire k t u] does in a state whose timers agree with its
    records: nothing when there is no [k]-th timer; a Start marks its
    Pending record and schedules the Finish; a Finish settles its
    Processing record. *)
Inductive fired (s : Server) (k : nat) (t : Z) (u : Q) : Prop :=
  | fired_none :
      nth_error (timers s) k = None -> fire k t u s = s -> fired s k t u
  | fired_start (i : string) (d : Z) (r : Invoice) :
      nth_error (timers s) k = Some (StartTimer i d) ->
      Map_get i (invoices s) = Some r ->
      status r = Pending ->
      fire k t u s =
        {| invoices := Map_mutate i (startFields t) (invoices s);
           timers := removeNth k (timers s) ++
                     [FinishTimer i (Qfloor (u * 30000) + 15000)] |} ->
      fired s k t u
  | fired_finish (i : string) (d : Z) (r : Invoice) :
      nth_error (timers s) k = Some (FinishTimer i d) ->
      Map_get i (invoices s) = Some r ->
      status r = Processing ->
      fire k t u s =
        {| invoices :=
             Map_mutate i (finishFields (negb (Qle_bool (8 # 10) u)) t)
                        (invoices s);
           timers := removeNth k (timers s) |} ->
      fired s k t u.

(** What one event does to the record under the identifier [i]. *)
Inductive moved (s : Server) (e : Event) (i : string) : Prop :=
  | moved_created (f : UploadedFile) :
      Map_get i (invoices s) = None ->
      Map_get i (invoices (step s e)) = Some (newInvoice f) ->
      uuid f = i ->
      (exists files, e = EUpload files /\ In f files) ->
      moved s e i
  | moved_absent :
      Map_get i (invoices s) = None ->
      Map_get i (invoices (step s e)) = None ->
      moved s e i
  | moved_kept (r : Invoice) :
      Map_get i (invoices s) = Some r ->
      Map_get i (invoices (step s e)) = Some r ->
      moved s e i
  | moved_started (r : Invoice) (t : Z) :
      Map_get i (invoices s) = Some r ->
      status r = Pending ->
      Map_get i (invoices (step s e)) = Some (startFields t r) ->
      (exists k u, e = EFire k t u) ->
      moved s e i
  | moved_finished (r : Invoice) (t : Z) (isSuccess : bool) :
      Map_get i (invoices s) = Some r ->
      status r = Processing ->
      Map_get i (invoices (step s e)) = Some (finishFields isSuccess t r) ->
      (exists k u, e = EFire k t u) ->
      moved s e i.

(** No key occurs twice, and every record is held under its own [id]. *)
Definition keyed (m : Store) : Prop :=
  NoDup (map fst m) /\ forall k r, Map_get k m = Some r -> id r = k.

(** Every record that is not finished has its timer. *)
Definition timersCover (s : Server) : Prop :=
  forall i r, Map_get i (invoices s) = Some r ->
    (status r = Pending -> exists d, In (StartTimer i d) (timers s)) /\
    (status r = Processing -> exists d, In (FinishTimer i d) (timers s)).

(** The clock readings of an event lie between [c] and [c']. *)
Definition timely (c c' : Z) (e : Event) : Prop :=
  match e with
  | EUpload files => forall f, In f files -> c <= now f <= c'
  | EFire _ t _ => c <= t <= c'
  end.

(** The states the process can be in when the clock reads [c], with a
    clock that never runs backwards. *)
Inductive reachableAt : Z -> Server -> Prop :=
  | reachableAt_init : forall c, reachableAt c initialServer
  | reachableAt_step : forall c c' s e,
      reachableAt c s -> freshIds s e -> c <= c' -> timely c c' e ->
      reachableAt c' (step s e).

(** The time stamps of a record are in order and not after [c]. *)
Definition stampsOrdered (c : Z) (r : Invoice) : Prop :=
  uploadDate r <= c /\
  (forall t1, processingStartTime r = Some t1 -> uploadDate r <= t1 <= c) /\
  (forall t1 t2, processingStartTime r = Some t1 ->
                 processingEndTime r = Some t2 -> t1 <= t2 <= c).

(** *** Notions for the pages and the order of the response *)

(** A decimal digit, and a string of nothing but decimal digits. *)
Definition isDigit (c : ascii) : bool :=
  let n := nat_of_ascii c in ((48 <=? n) && (n <=? 57))%nat.

Fixpoint allDigits (s : string) : bool :=
  match s with
  | EmptyString => true
  | String c s' => isDigit c && allDigits s'
  end.

(** The query with its sort order replaced. *)
Definition withSortOrder (q : Query) (sortOrder : option string) : Query :=
  mkQuery (q_page q) (q_limit q) (q_sortBy q) sortOrder
          (q_status q) (q_search q).

(** The number a sort field holds, for the fields that hold one. *)
Definition numericField (sortBy : string) : option (Invoice -> Z) :=
  if String.eqb sortBy "amount" then Some amount
  else if String.eqb sortBy "fileSize" then Some fileSize
  else if String.eqb sortBy "uploadDate" then Some uploadDate
  else None.

(** The page [p] of a query: the records the engine returns when the page
    parameter is [p] written in decimal. *)
Definition pageOf (store : Store) (q : Query) (p : Z) : list Invoice :=
  data (listInvoices store (withPage q (Some (JS.numberToString p)))).

(** A status that ends the polling of the upload form. *)
Definition finished (st : Status) : bool :=
  match st with
  | Processed | Failed => true
  | _ => false
  end.

(* ================================================================== *)
(** ** Sample data *)
(* ================================================================== *)

(** A record as the upload handler creates it. *)
Definition sampleInvoice (i file client : string) (amt date : Z) : Invoice :=
  {| id := i;
     fileName := file;
     fileSize := 2048;
     clientName := client;
     amount := amt;
     uploadDate := date;
     status := Pending;
     filePath := ("uploads/" ++ file)%string;
     processingStartTime := None;
     processingEndTime := None |}.

(** The store after the records of [l] have been put into it in order. *)
Definition storeOf (l : list Invoice) : Store :=
  fold_left (fun m r => Map_set (id r) r m) l [].

(** Amounts 500, 100, 100, 900, in upload order. *)
Definition fourAmounts : Store :=
  storeOf [ sampleInvoice "inv-1" "a.pdf" "Acme Corporation" 500 1000;
            sampleInvoice "inv-2" "b.pdf" "Global Dynamics" 100 2000;
            sampleInvoice "inv-3" "c.pdf" "Elite Services" 100 3000;
            sampleInvoice "inv-4" "d.pdf" "Prime Enterprises" 900 4000 ].

(** Two records whose file names are not in upload order. *)
Definition twoFiles : Store :=
  storeOf [ sampleInvoice "inv-1" "b.pdf" "Acme Corporation" 500 1000;
            sampleInvoice "inv-2" "a.pdf" "Acme Corporation" 500 1000 ].

(** Five records, and two records. *)
Definition fiveInvoices : Store :=
  storeOf [ sampleInvoice "inv-1" "jan.pdf" "Acme Corporation" 1200 1000;
            sampleInvoice "inv-2" "feb.pdf" "Global Dynamics" 340 2000;
            sampleInvoice "inv-3" "mar.pdf" "Elite Services" 9900 3000;
            sampleInvoice "inv-4" "apr.pdf" "Prime Enterprises" 100 4000;
            sampleInvoice "inv-5" "may.pdf" "Future Ventures" 5600 5000 ].

Definition twoInvoices : Store :=
  storeOf [ sampleInvoice "inv-1" "jan.pdf" "Acme Corporation" 1200 1000;
            sampleInvoice "inv-2" "feb.pdf" "Global Dynamics" 340 2000 ].

(** A query that only sets the sort parameters. *)
Definition sortQuery (sortBy sortOrder : string) : Query :=
  mkQuery None None (Some sortBy) (Some sortOrder) None None.

(** A query that only sets page and limit. *)
Definition pageQuery (page limit : string) : Query :=
  mkQuery (Some page) (Some limit) None None None None.

(** One uploaded file with what the environment draws for it. *)
Definition sampleFile : UploadedFile :=
  {| originalname := "jan.pdf";
     size := 2048;
     path := "uploads/1-jan.pdf";
     uuid := "inv-1";
     uClient := 3 # 10;
     uAmount := 1 # 2;
     now := 1000 |}.

(** The process after that file has been uploaded, and after its Start
    timer has fired at time 2000. *)
Definition afterUpload : Server := step initialServer (EUpload [sampleFile]).

Definition afterStart : Server := step afterUpload (EFire 0 2000 (1 # 4)).

(** A query that only sets the status filter. *)
Definition statusQuery (status_ : string) : Query :=
  mkQuery None None None None (Some status_) None.

(* ================================================================== *)
(** * Properties *)
(* ================================================================== *)

(** ** A solver for permutations of concatenations *)

Section PermSolver.
Context {A : Type}.
Implicit Types (x : A) (a l r : list A).

Lemma bring_here a r : Permutation (a ++ r) (a ++ r).
Proof. reflexivity. Qed.
Lemma bring_skip_app a (y : list A) r r' :
  Permutation r (a ++ r') -> Permutation (y ++ r) (a ++ y ++ r').
Proof.
  intros H. rewrite H. rewrite !app_assoc.
  apply Permutation_app_tail, Permutation_app_comm.
Qed.
Lemma bring_skip_cons a (y : A) r r' :
  Permutation r (a ++ r') -> Permutation (y :: r) (a ++ y :: r').
Proof. intros H. rewrite H. apply Permutation_middle. Qed.
Lemma bringc_here x r : Permutation (x :: r) (x :: r).
Proof. reflexivity. Qed.
Lemma bringc_skip_app x (y : list A) r r' :
  Permutation r (x :: r') -> Permutation (y ++ r) (x :: y ++ r').
Proof. intros H. rewrite H. symmetry. apply Permutation_middle. Qed.
Lemma bringc_skip_cons x (y : A) r r' :
  Permutation r (x :: r') -> Permutation (y :: r) (x :: y :: r').
Proof. intros H. rewrite H. apply perm_swap. Qed.
Lemma perm_by_app a l r r' :
  Permutation r (a ++ r') -> Permutation l r' -> Permutation (a ++ l) r.
Proof. intros H1 H2. rewrite H1, H2. reflexivity. Qed.
Lemma perm_by_cons x l r r' :
  Permutation r (x :: r') -> Permutation l r' -> Permutation (x :: l) r.
Proof. intros H1 H2. rewrite H1, H2. reflexivity. Qed.
End PermSolver.

Ltac bring_block :=
  first [ apply bring_here
        | eapply bring_skip_app; bring_block
        | eapply bring_skip_cons; bring_block ].
Ltac bring_elem :=
  first [ apply bringc_here
        | eapply bringc_skip_app; bring_elem
        | eapply bringc_skip_cons; bring_elem ].
Ltac perm_cancel :=
  lazymatch goal with
  | |- Permutation [] [] => apply perm_nil
  | |- Permutation (?x :: ?l) ?r =>
      eapply perm_by_cons; [ bring_elem | perm_cancel ]
  | |- Permutation (?a ++ ?l) ?r =>
      eapply perm_by_app; [ bring_block | perm_cancel ]
  end.
Ltac perm_norm :=
  repeat (rewrite <- ?app_assoc; cbn [app]); rewrite ?app_nil_r.
Ltac perm_solve :=
  perm_norm;
  lazymatch goal with
  | |- Permutation ?l ?r =>
      rewrite <- (app_nil_r l); rewrite <- (app_nil_r r)
  end;
  repeat (rewrite <- ?app_assoc; cbn [app]);
  perm_cancel.


(** ** The sort returns a permutation of its input, whatever the comparator *)

Ltac cut_list k l :=
  let f := fresh "f" in
  let s := fresh "s" in
  let E := fresh "E" in
  pose proof (firstn_skipn k l) as E;
  set (f := firstn k l) in *; set (s := skipn k l) in *;
  clearbody f s;
  first [ subst l | rewrite <- E ].

Section SortPermutation.

Context {A : Type}.
Variable Compare : A -> A -> Z.

Lemma unsnoc_Some (l l' : list A) (x : A) :
  V8.unsnoc l = Some (l', x) -> l = l' ++ [x].
Proof.
  unfold V8.unsnoc. intros H.
  destruct (rev l) as [|y r] eqn:E; [discriminate|].
  injection H as <- <-.
  rewrite <- (rev_involutive l), E. reflexivity.
Qed.

Lemma unsnoc_None (l : list A) : V8.unsnoc l = None -> l = [].
Proof.
  unfold V8.unsnoc. intros H.
  destruct (rev l) as [|y r] eqn:E; [|discriminate].
  rewrite <- (rev_involutive l), E. reflexivity.
Qed.

Lemma run_extend_app (d : bool) (p : A) (l taken rest : list A) :
  V8.run_extend Compare d p l = (taken, rest) -> l = taken ++ rest.
Proof.
  revert p taken rest.
  induction l as [|c l IH]; intros p taken rest; simpl.
  - intros [= <- <-]. reflexivity.
  - destruct (if d then _ else _).
    + intros [= <- <-]. reflexivity.
    + destruct (V8.run_extend Compare d c l) as [t r] eqn:E.
      intros [= <- <-]. simpl. f_equal. eauto.
Qed.

Lemma CountAndMakeRun_perm (l run rest : list A) :
  V8.CountAndMakeRun Compare l = (run, rest) -> Permutation (run ++ rest) l.
Proof.
  unfold V8.CountAndMakeRun.
  destruct l as [|x0 [|x1 l]].
  - intros [= <- <-]. reflexivity.
  - intros [= <- <-]. reflexivity.
  - destruct (V8.run_extend _ _ _ _) as [t r] eqn:E.
    apply run_extend_app in E. subst l.
    intros [= <- <-].
    destruct (_ <? 0).
    + change (x0 :: x1 :: t ++ r) with ((x0 :: x1 :: t) ++ r).
      apply Permutation_app_tail. symmetry.
      apply (Permutation_rev (x0 :: x1 :: t)).
    + reflexivity.
Qed.

Lemma insertAt_perm (k : nat) (x : A) (l : list A) :
  Permutation (V8.insertAt k x l) (x :: l).
Proof.
  unfold V8.insertAt. cut_list k l. perm_solve.
Qed.

Lemma BinaryInsertionSort_perm (ext run : list A) :
  Permutation (V8.BinaryInsertionSort Compare run ext) (run ++ ext).
Proof.
  revert run. induction ext as [|p ext IH]; intros run; simpl.
  - rewrite app_nil_r. reflexivity.
  - rewrite IH, insertAt_perm. perm_solve.
Qed.

Lemma MergeLow_loop_perm (fuel : nat) :
  forall (g : bool) (mg nA nB : nat) (out a b : list A),
    Permutation (fst (V8.MergeLow_loop Compare fuel g mg nA nB out a b))
                (out ++ a ++ b).
Proof.
  induction fuel as [|fuel IH]; intros g mg nA nB out a b.
  - reflexivity.
  - cbn [V8.MergeLow_loop]. destruct g.
    + destruct b as [|b0 b']; [reflexivity|].
      generalize (V8.GallopRight Compare a b0 0). intros n.
      cut_list n a.
      repeat match goal with
      | |- context [if ?c then _ else _] => destruct c
      end; cbn [fst].
      all: try (solve [perm_solve]).
      destruct s as [|a0 a']; [cbn [fst]; perm_solve|].
      generalize (V8.GallopLeft Compare (a :: b') a0 0). intros n2.
      cut_list n2 (a :: b').
      repeat match goal with
      | |- context [if ?c then _ else _] => destruct c
      end; cbn [fst]; rewrite ?IH.
      all: solve [perm_solve].
    + destruct a as [|a0 a']; [reflexivity|].
      destruct b as [|b0 b']; [reflexivity|].
      repeat match goal with
      | |- context [if ?c then _ else _] => destruct c
      end; cbn [fst]; rewrite ?IH; perm_solve.
Qed.

Lemma MergeLow_perm (mg : nat) (a b : list A) :
  Permutation (fst (V8.MergeLow Compare mg a b)) (a ++ b).
Proof.
  unfold V8.MergeLow.
  destruct b as [|b0 b']; cbn [fst].
  - rewrite app_nil_r. reflexivity.
  - destruct b' as [|b1 b'']; cbn [Datatypes.length Nat.eqb fst];
      [perm_solve|].
    destruct (_ =? 1)%nat; cbn [fst]; rewrite ?MergeLow_loop_perm; perm_solve.
Qed.

Lemma MergeHigh_loop_perm (fuel : nat) :
  forall (g : bool) (mg nA nB : nat) (a b out : list A),
    Permutation (fst (V8.MergeHigh_loop Compare fuel g mg nA nB a b out))
                (a ++ b ++ out).
Proof.
  induction fuel as [|fuel IH]; intros g mg nA nB a b out.
  - reflexivity.
  - cbn [V8.MergeHigh_loop]. destruct g.
    + destruct (V8.unsnoc b) as [[b' bLast]|] eqn:Eb; [|reflexivity].
      apply unsnoc_Some in Eb. subst b.
      generalize (V8.GallopRight Compare a bLast (Datatypes.length a - 1)).
      intros k. cut_list k a.
      destruct (_ && _); [cbn [fst]; perm_solve|].
      destruct (_ =? 1)%nat; [cbn [fst]; perm_solve|].
      destruct (V8.unsnoc f) as [[a' aLast]|] eqn:Ea; [|cbn [fst]; perm_solve].
      apply unsnoc_Some in Ea. subst f.
      generalize (V8.GallopLeft Compare b' aLast (Datatypes.length b' - 1)).
      intros k2. cut_list k2 b'.
      repeat match goal with
      | |- context [if ?c then _ else _] => destruct c
      end; cbn [fst]; rewrite ?IH; perm_solve.
    + destruct (V8.unsnoc a) as [[a' aLast]|] eqn:Ea; [|reflexivity].
      destruct (V8.unsnoc b) as [[b' bLast]|] eqn:Eb; [|reflexivity].
      apply unsnoc_Some in Ea, Eb. subst a b.
      repeat match goal with
      | |- context [if ?c then _ else _] => destruct c
      end; cbn [fst]; rewrite ?IH; perm_solve.
Qed.

Lemma MergeHigh_perm (mg : nat) (a b : list A) :
  Permutation (fst (V8.MergeHigh Compare mg a b)) (a ++ b).
Proof.
  unfold V8.MergeHigh.
  destruct (V8.unsnoc a) as [[a' aLast]|] eqn:Ea.
  - apply unsnoc_Some in Ea. subst a.
    destruct a' as [|a1 a'']; cbn [Datatypes.length Nat.eqb fst];
      [perm_solve|].
    destruct (_ =? 1)%nat; cbn [fst]; rewrite ?MergeHigh_loop_perm; perm_solve.
  - apply unsnoc_None in Ea. subst a. reflexivity.
Qed.

Lemma MergeAt_perm (mg : nat) (a b : list A) :
  Permutation (fst (V8.MergeAt Compare mg a b)) (a ++ b).
Proof.
  unfold V8.MergeAt.
  destruct b as [|keyRight b']; [reflexivity|].
  generalize (V8.GallopRight Compare a keyRight 0). intros k.
  destruct (V8.unsnoc (skipn k a)) as [[a' keyLeft]|] eqn:Ea; [|reflexivity].
  generalize (V8.GallopLeft Compare (keyRight :: b') keyLeft
                (Datatypes.length (keyRight :: b') - 1)).
  intros lengthB.
  destruct (lengthB =? 0)%nat; [reflexivity|].
  set (b := keyRight :: b').
  assert (H : Permutation
                (fst (if (Datatypes.length (skipn k a) <=?
                          Datatypes.length (firstn lengthB b))%nat
                      then V8.MergeLow Compare mg (skipn k a) (firstn lengthB b)
                      else V8.MergeHigh Compare mg (skipn k a) (firstn lengthB b)))
                (skipn k a ++ firstn lengthB b)).
  { destruct (_ <=? _)%nat; [apply MergeLow_perm | apply MergeHigh_perm]. }
  destruct (if (_ <=? _)%nat then _ else _) as [merged mg'].
  cbn [fst] in *. rewrite H.
  rewrite <- (firstn_skipn k a) at 3.
  rewrite <- (firstn_skipn lengthB b) at 3.
  perm_solve.
Qed.

Ltac merge_at_step IH :=
  match goal with
  | |- context [V8.MergeAt Compare ?mg ?a ?b] =>
      let H := fresh "H" in
      pose proof (MergeAt_perm mg a b) as H;
      destruct (V8.MergeAt Compare mg a b) as [? ?];
      cbn [fst] in H; rewrite IH; cbn [List.concat]; rewrite H
  end.

Lemma MergeCollapse_perm (fuel : nat) :
  forall (mg : nat) (runs : list (list A)),
    Permutation (List.concat (fst (V8.MergeCollapse Compare fuel mg runs)))
                (List.concat runs).
Proof.
  induction fuel as [|fuel IH]; intros mg runs.
  - reflexivity.
  - cbn [V8.MergeCollapse].
    destruct runs as [|r0 [|r1 below]]; try reflexivity.
    destruct (_ || _).
    + destruct below as [|r2 below'].
      * merge_at_step IH. perm_solve.
      * destruct (_ <? _)%nat; merge_at_step IH; cbn [List.concat]; perm_solve.
    + destruct (_ <=? _)%nat; [|reflexivity].
      merge_at_step IH. perm_solve.
Qed.

Lemma MergeForceCollapse_perm (fuel : nat) :
  forall (mg : nat) (runs : list (list A)),
    Permutation
      (List.concat (fst (V8.MergeForceCollapse Compare fuel mg runs)))
      (List.concat runs).
Proof.
  induction fuel as [|fuel IH]; intros mg runs.
  - reflexivity.
  - cbn [V8.MergeForceCollapse].
    destruct runs as [|r0 [|r1 below]]; try reflexivity.
    destruct below as [|r2 below'].
    + merge_at_step IH. perm_solve.
    + destruct (_ <? _)%nat; merge_at_step IH; cbn [List.concat]; perm_solve.
Qed.

Lemma ArrayTimSortImpl_loop_perm (fuel : nat) :
  forall (minRun mg : nat) (runs : list (list A)) (remaining : list A),
    Permutation
      (List.concat
         (fst (V8.ArrayTimSortImpl_loop Compare fuel minRun mg runs remaining)))
      (List.concat runs ++ remaining).
Proof.
  induction fuel as [|fuel IH]; intros minRun mg runs remaining.
  - destruct remaining; cbn; perm_solve.
  - cbn [V8.ArrayTimSortImpl_loop].
    destruct remaining as [|x remaining']; [cbn; rewrite app_nil_r; reflexivity|].
    set (remaining := x :: remaining').
    destruct (V8.CountAndMakeRun Compare remaining) as [run rest] eqn:Erun.
    apply CountAndMakeRun_perm in Erun.
    assert (H : forall run' rest',
               (if (Datatypes.length run <? minRun)%nat
                then (V8.BinaryInsertionSort Compare run
                        (firstn (Nat.min minRun (Datatypes.length remaining)
                                 - Datatypes.length run) rest),
                      skipn (Nat.min minRun (Datatypes.length remaining)
                             - Datatypes.length run) rest)
                else (run, rest)) = (run', rest') ->
               Permutation (run' ++ rest') remaining).
    { intros run' rest'. destruct (_ <? _)%nat; intros [= <- <-].
      - rewrite BinaryInsertionSort_perm, <- app_assoc, firstn_skipn.
        exact Erun.
      - exact Erun. }
    destruct (if (_ <? _)%nat then _ else _) as [run' rest'].
    specialize (H _ _ eq_refl).
    pose proof (MergeCollapse_perm (S (Datatypes.length runs)) mg
                  (run' :: runs)) as HC.
    destruct (V8.MergeCollapse _ _ _ _) as [runs' mg'].
    cbn [fst List.concat] in HC.
    rewrite IH, HC, <- H. perm_solve.
Qed.

Lemma ArrayTimSortImpl_perm (l : list A) :
  Permutation (V8.ArrayTimSortImpl Compare l) l.
Proof.
  unfold V8.ArrayTimSortImpl.
  destruct (_ <? 2)%nat; [reflexivity|].
  pose proof (ArrayTimSortImpl_loop_perm (Datatypes.length l)
                (V8.ComputeMinRunLength (Datatypes.length l))
                V8.kMinGallopWins [] l) as H.
  destruct (V8.ArrayTimSortImpl_loop _ _ _ _ _ _) as [runs mg].
  pose proof (MergeForceCollapse_perm (Datatypes.length runs) mg runs) as HF.
  destruct (V8.MergeForceCollapse _ _ _ _) as [runs' mg'].
  cbn [fst List.concat app] in *.
  rewrite <- H, <- HF.
  clear. induction runs' as [|r runs' IH]; cbn.
  - reflexivity.
  - rewrite concat_app. cbn. rewrite app_nil_r, IH. perm_solve.
Qed.

End SortPermutation.

(** ** The fuel of every loop of the sort is enough

    Each lemma says that a loop started with at least as much fuel as its
    bound returns the same result whatever the fuel; every call in
    [Module V8] passes the bound itself. *)

Section SortFuel.
Context {A : Type}.
Variable Compare : A -> A -> Z.

Lemma div2_lt (n : nat) : (0 < n)%nat -> (Nat.div2 n < n)%nat.
Proof. intros H. apply Nat.lt_div2. exact H. Qed.

Lemma div2_le (n : nat) : (Nat.div2 n <= n)%nat.
Proof.
  destruct n; [simpl; lia|]. apply Nat.lt_le_incl, Nat.lt_div2. lia.
Qed.

Lemma ComputeMinRunLength_loop_fuel (f1 : nat) :
  forall (f2 n r : nat), (n <= f1)%nat -> (n <= f2)%nat ->
    V8.ComputeMinRunLength_loop f1 n r = V8.ComputeMinRunLength_loop f2 n r.
Proof.
  induction f1 as [|f1 IH]; intros f2 n r H1 H2.
  - assert (n = 0)%nat by lia. subst n. destruct f2; reflexivity.
  - destruct f2 as [|f2].
    + assert (n = 0)%nat by lia. subst n. reflexivity.
    + cbn [V8.ComputeMinRunLength_loop].
      destruct (64 <=? n)%nat eqn:E; [|reflexivity].
      apply Nat.leb_le in E.
      pose proof (div2_lt n ltac:(lia)).
      apply IH; lia.
Qed.

Lemma bisect_fuel (goLeft : nat -> bool) (f1 : nat) :
  forall (f2 left right : nat),
    (right - left <= f1)%nat -> (right - left <= f2)%nat ->
    V8.bisect f1 goLeft left right = V8.bisect f2 goLeft left right.
Proof.
  induction f1 as [|f1 IH]; intros f2 left right H1 H2.
  - destruct f2; cbn [V8.bisect]; [reflexivity|].
    destruct (left <? right)%nat eqn:E; [|reflexivity].
    apply Nat.ltb_lt in E. lia.
  - destruct f2 as [|f2]; cbn [V8.bisect].
    + destruct (left <? right)%nat eqn:E; [|reflexivity].
      apply Nat.ltb_lt in E. lia.
    + destruct (left <? right)%nat eqn:E; [|reflexivity].
      apply Nat.ltb_lt in E.
      pose proof (div2_lt (right - left) ltac:(lia)).
      cbv zeta. revert H. generalize (Nat.div2 (right - left)). intros d H.
      destruct (goLeft _); apply IH; lia.
Qed.

Lemma gallop_fuel (stop : nat -> bool) (maxOfs : nat) (f1 : nat) :
  forall (f2 lastOfs offset : nat),
    (maxOfs - offset <= f1)%nat -> (maxOfs - offset <= f2)%nat ->
    V8.gallop f1 stop maxOfs lastOfs offset =
    V8.gallop f2 stop maxOfs lastOfs offset.
Proof.
  induction f1 as [|f1 IH]; intros f2 lastOfs offset H1 H2.
  - destruct f2; cbn [V8.gallop]; [reflexivity|].
    destruct (offset <? maxOfs)%nat eqn:E; [|reflexivity].
    apply Nat.ltb_lt in E. lia.
  - destruct f2 as [|f2]; cbn [V8.gallop].
    + destruct (offset <? maxOfs)%nat eqn:E; [|reflexivity].
      apply Nat.ltb_lt in E. lia.
    + destruct (offset <? maxOfs)%nat eqn:E; [|reflexivity].
      apply Nat.ltb_lt in E.
      destruct (stop _); [reflexivity|]. apply IH; lia.
Qed.

Ltac lengths :=
  repeat match goal with
  | H : skipn _ _ = _ |- _ =>
      apply (f_equal (@Datatypes.length A)) in H;
      rewrite length_skipn in H; cbn [Datatypes.length] in H
  | H : V8.unsnoc _ = Some _ |- _ => apply unsnoc_Some in H; subst
  | H : V8.unsnoc _ = None |- _ => apply unsnoc_None in H; subst
  end;
  cbn [Datatypes.length] in *;
  rewrite ?length_app, ?length_skipn, ?length_firstn in *;
  cbn [Datatypes.length] in *; try lia.

Lemma MergeLow_loop_fuel (f1 : nat) :
  forall (f2 : nat) (g : bool) (mg nA nB : nat) (out a b : list A),
    (Datatypes.length a + Datatypes.length b <= f1)%nat ->
    (Datatypes.length a + Datatypes.length b <= f2)%nat ->
    V8.MergeLow_loop Compare f1 g mg nA nB out a b =
    V8.MergeLow_loop Compare f2 g mg nA nB out a b.
Proof.
  induction f1 as [|f1 IH]; intros f2 g mg nA nB out a b H1 H2.
  - destruct a, b; cbn [Datatypes.length] in H1; try lia.
    destruct f2, g; reflexivity.
  - destruct f2 as [|f2].
    + destruct a, b; cbn [Datatypes.length] in H2; try lia.
      destruct g; reflexivity.
    + cbn [V8.MergeLow_loop].
      destruct g.
      * destruct b as [|b0 b']; [reflexivity|].
        cbv zeta.
        generalize (V8.GallopRight Compare a b0 0). intros n.
        destruct (_ && _); [reflexivity|].
        destruct (_ && _); [reflexivity|].
        destruct b' as [|b1 b'']; [reflexivity|].
        destruct (skipn n a) as [|a0 a'] eqn:Ea; [reflexivity|].
        generalize (V8.GallopLeft Compare (b1 :: b'') a0 0). intros n2.
        destruct (_ && _); [reflexivity|].
        destruct (_ =? 1)%nat; [reflexivity|].
        destruct (_ || _); apply IH; lengths.
      * destruct a as [|a0 a']; [reflexivity|].
        destruct b as [|b0 b']; [reflexivity|].
        cbv zeta.
        destruct (_ <? 0).
        -- destruct (_ =? 0)%nat; [reflexivity|].
           destruct (_ <=? _)%nat; apply IH; lengths.
        -- destruct (_ =? 1)%nat; [reflexivity|].
           destruct (_ <=? _)%nat; apply IH; lengths.
Qed.

Lemma MergeHigh_loop_fuel (f1 : nat) :
  forall (f2 : nat) (g : bool) (mg nA nB : nat) (a b out : list A),
    (Datatypes.length a + Datatypes.length b <= f1)%nat ->
    (Datatypes.length a + Datatypes.length b <= f2)%nat ->
    V8.MergeHigh_loop Compare f1 g mg nA nB a b out =
    V8.MergeHigh_loop Compare f2 g mg nA nB a b out.
Proof.
  induction f1 as [|f1 IH]; intros f2 g mg nA nB a b out H1 H2.
  - destruct a, b; cbn [Datatypes.length] in H1; try lia.
    destruct f2, g; reflexivity.
  - destruct f2 as [|f2].
    + destruct a, b; cbn [Datatypes.length] in H2; try lia.
      destruct g; reflexivity.
    + cbn [V8.MergeHigh_loop].
      destruct g.
      * destruct (V8.unsnoc b) as [[b' bLast]|] eqn:Eb; [|reflexivity].
        cbv zeta.
        generalize (V8.GallopRight Compare a bLast (Datatypes.length a - 1)).
        intros k.
        destruct (_ && _); [reflexivity|].
        destruct (_ =? 1)%nat; [reflexivity|].
        destruct (V8.unsnoc (firstn k a)) as [[a' aLast]|] eqn:Ea;
          [|reflexivity].
        generalize (V8.GallopLeft Compare b' aLast (Datatypes.length b' - 1)).
        intros k2.
        destruct (_ && _); [reflexivity|].
        destruct (_ && _); [reflexivity|].
        destruct (_ =? 0)%nat; [reflexivity|].
        apply unsnoc_Some in Ea, Eb. subst b.
        apply (f_equal (@Datatypes.length A)) in Ea.
        rewrite length_firstn, length_app in Ea. cbn [Datatypes.length] in Ea.
        rewrite length_app in H1, H2. cbn [Datatypes.length] in H1, H2.
        destruct (_ || _); apply IH; rewrite length_firstn; lia.
      * destruct (V8.unsnoc a) as [[a' aLast]|] eqn:Ea; [|reflexivity].
        destruct (V8.unsnoc b) as [[b' bLast]|] eqn:Eb; [|reflexivity].
        cbv zeta.
        apply unsnoc_Some in Ea, Eb. subst a b.
        rewrite !length_app in H1, H2. cbn [Datatypes.length] in H1, H2.
        destruct (_ <? 0).
        -- destruct (_ =? 0)%nat; [reflexivity|].
           destruct (_ <=? _)%nat; apply IH; rewrite ?length_app;
             cbn [Datatypes.length]; lia.
        -- destruct (_ =? 1)%nat; [reflexivity|].
           destruct (_ <=? _)%nat; apply IH; rewrite ?length_app;
             cbn [Datatypes.length]; lia.
Qed.

Lemma MergeCollapse_fuel (f1 : nat) :
  forall (f2 mg : nat) (runs : list (list A)),
    (Datatypes.length runs <= f1)%nat -> (Datatypes.length runs <= f2)%nat ->
    V8.MergeCollapse Compare f1 mg runs = V8.MergeCollapse Compare f2 mg runs.
Proof.
  induction f1 as [|f1 IH]; intros f2 mg runs H1 H2.
  - destruct runs; cbn [Datatypes.length] in H1; [|lia].
    destruct f2; reflexivity.
  - destruct f2 as [|f2].
    + destruct runs; cbn [Datatypes.length] in H2; [|lia]. reflexivity.
    + cbn [V8.MergeCollapse].
      destruct runs as [|r0 [|r1 below]]; try reflexivity.
      cbn [Datatypes.length] in H1, H2.
      destruct (_ || _).
      * destruct below as [|r2 below']; cbn [Datatypes.length] in H1, H2.
        -- destruct (V8.MergeAt _ _ _ _). apply IH; cbn; lia.
        -- destruct (_ <? _)%nat; destruct (V8.MergeAt _ _ _ _);
             apply IH; cbn; lia.
      * destruct (_ <=? _)%nat; [|reflexivity].
        destruct (V8.MergeAt _ _ _ _). apply IH; cbn; lia.
Qed.

Lemma MergeForceCollapse_fuel (f1 : nat) :
  forall (f2 mg : nat) (runs : list (list A)),
    (Datatypes.length runs <= f1)%nat -> (Datatypes.length runs <= f2)%nat ->
    V8.MergeForceCollapse Compare f1 mg runs =
    V8.MergeForceCollapse Compare f2 mg runs.
Proof.
  induction f1 as [|f1 IH]; intros f2 mg runs H1 H2.
  - destruct runs; cbn [Datatypes.length] in H1; [|lia].
    destruct f2; reflexivity.
  - destruct f2 as [|f2].
    + destruct runs; cbn [Datatypes.length] in H2; [|lia]. reflexivity.
    + cbn [V8.MergeForceCollapse].
      destruct runs as [|r0 [|r1 below]]; try reflexivity.
      cbn [Datatypes.length] in H1, H2.
      destruct below as [|r2 below']; cbn [Datatypes.length] in H1, H2.
      * destruct (V8.MergeAt _ _ _ _). apply IH; cbn; lia.
      * destruct (_ <? _)%nat; destruct (V8.MergeAt _ _ _ _);
          apply IH; cbn; lia.
Qed.

Lemma run_extend_length (d : bool) (p : A) (l taken rest : list A) :
  V8.run_extend Compare d p l = (taken, rest) ->
  (Datatypes.length taken + Datatypes.length rest = Datatypes.length l)%nat.
Proof.
  intros H. apply run_extend_app in H. subst l.
  rewrite length_app. reflexivity.
Qed.

Lemma CountAndMakeRun_length (l run rest : list A) :
  V8.CountAndMakeRun Compare l = (run, rest) ->
  (Datatypes.length run + Datatypes.length rest = Datatypes.length l)%nat /\
  (l <> [] -> (0 < Datatypes.length run)%nat).
Proof.
  intros H. split.
  - apply CountAndMakeRun_perm, Permutation_length in H.
    rewrite length_app in H. exact H.
  - intros Hl. unfold V8.CountAndMakeRun in H.
    destruct l as [|x0 [|x1 l]]; [congruence| |].
    + injection H as <- <-. cbn. lia.
    + destruct (V8.run_extend _ _ _ _) as [t r].
      destruct (_ <? 0); injection H as <- <-;
        rewrite ?length_app; cbn; lia.
Qed.

Lemma BinaryInsertionSort_length (run ext : list A) :
  Datatypes.length (V8.BinaryInsertionSort Compare run ext) =
  (Datatypes.length run + Datatypes.length ext)%nat.
Proof.
  rewrite (Permutation_length (BinaryInsertionSort_perm Compare ext run)).
  apply length_app.
Qed.

Lemma ArrayTimSortImpl_loop_fuel (f1 : nat) :
  forall (f2 minRun mg : nat) (runs : list (list A)) (remaining : list A),
    (Datatypes.length remaining <= f1)%nat ->
    (Datatypes.length remaining <= f2)%nat ->
    V8.ArrayTimSortImpl_loop Compare f1 minRun mg runs remaining =
    V8.ArrayTimSortImpl_loop Compare f2 minRun mg runs remaining.
Proof.
  induction f1 as [|f1 IH]; intros f2 minRun mg runs remaining H1 H2.
  - destruct remaining; cbn [Datatypes.length] in H1; [|lia].
    destruct f2; reflexivity.
  - destruct f2 as [|f2].
    + destruct remaining; cbn [Datatypes.length] in H2; [|lia]. reflexivity.
    + cbn [V8.ArrayTimSortImpl_loop].
      destruct remaining as [|x remaining']; [reflexivity|].
      set (remaining := x :: remaining') in *.
      destruct (V8.CountAndMakeRun Compare remaining) as [run rest] eqn:Erun.
      apply CountAndMakeRun_length in Erun. destruct Erun as [Elen Epos].
      specialize (Epos ltac:(discriminate)).
      assert (H : forall run' rest',
                 (if (Datatypes.length run <? minRun)%nat
                  then (V8.BinaryInsertionSort Compare run
                          (firstn (Nat.min minRun (Datatypes.length remaining)
                                   - Datatypes.length run) rest),
                        skipn (Nat.min minRun (Datatypes.length remaining)
                               - Datatypes.length run) rest)
                  else (run, rest)) = (run', rest') ->
                 (Datatypes.length rest' < Datatypes.length remaining)%nat).
      { intros run' rest'. destruct (_ <? _)%nat; intros [= <- <-].
        - rewrite length_skipn. lia.
        - lia. }
      destruct (if (_ <? _)%nat then _ else _) as [run' rest'].
      specialize (H _ _ eq_refl).
      destruct (V8.MergeCollapse _ _ _ _) as [runs' mg'].
      apply IH; lia.
Qed.

End SortFuel.

(** ** A comparator that is negative on every pair reverses the array *)

Section SortNegative.

Context {A : Type}.
Variable Compare : A -> A -> Z.

Lemma ComputeMinRunLength_loop_le (fuel : nat) :
  forall n r : nat, (r <= 1)%nat ->
    (V8.ComputeMinRunLength_loop fuel n r <= n + r)%nat.
Proof.
  induction fuel as [|fuel IH]; intros n r Hr; cbn [V8.ComputeMinRunLength_loop].
  - lia.
  - destruct (64 <=? n)%nat eqn:E; [|lia].
    apply Nat.leb_le in E.
    pose proof (div2_lt n ltac:(lia)) as Hd.
    specialize (IH (Nat.div2 n) (if Nat.odd n then 1 else r)%nat
                   ltac:(destruct (Nat.odd n); lia)).
    revert IH Hd. generalize (Nat.div2 n). intros d IH Hd.
    destruct (Nat.odd n); lia.
Qed.

Lemma ComputeMinRunLength_le (n : nat) : (V8.ComputeMinRunLength n <= n)%nat.
Proof.
  unfold V8.ComputeMinRunLength.
  pose proof (ComputeMinRunLength_loop_le n n 0 ltac:(lia)). lia.
Qed.

Lemma run_extend_all_negative (l : list A) :
  forall p : A,
    (forall a b, In a (p :: l) -> In b (p :: l) -> Compare a b < 0) ->
    V8.run_extend Compare true p l = (l, []).
Proof.
  induction l as [|c l IH]; intros p H; cbn [V8.run_extend].
  - reflexivity.
  - assert (Hc : (0 <=? Compare c p) = false).
    { apply Z.leb_gt. apply H; simpl; auto. }
    rewrite Hc. rewrite IH; [reflexivity|].
    intros a b Ha Hb. apply H; right; assumption.
Qed.

Lemma sort_all_negative (l : list A) :
  (forall a b, In a l -> In b l -> Compare a b < 0) ->
  V8.sort Compare l = rev l.
Proof.
  intros H. unfold V8.sort, V8.ArrayTimSortImpl.
  destruct l as [|x0 [|x1 l]]; try reflexivity.
  change (Datatypes.length (x0 :: x1 :: l) <? 2)%nat with false. cbv iota.
  change (Datatypes.length (x0 :: x1 :: l))
    with (S (Datatypes.length (x1 :: l))) at 1.
  cbn [V8.ArrayTimSortImpl_loop V8.CountAndMakeRun].
  assert (Hc : (Compare x1 x0 <? 0) = true).
  { apply Z.ltb_lt. apply H; simpl; auto. }
  rewrite Hc.
  rewrite run_extend_all_negative
    by (intros a b Ha Hb; apply H; right; assumption).
  assert (Hlen : (Datatypes.length (rev (x0 :: x1 :: l)) <?
                  V8.ComputeMinRunLength (Datatypes.length (x0 :: x1 :: l)))%nat
                 = false).
  { apply Nat.ltb_ge. rewrite length_rev.
    apply ComputeMinRunLength_le. }
  rewrite Hlen.
  cbn [Datatypes.length V8.MergeCollapse V8.ArrayTimSortImpl_loop].
  destruct (Datatypes.length (x1 :: l)) eqn:E; [discriminate E|].
  cbn [V8.ArrayTimSortImpl_loop Datatypes.length V8.MergeForceCollapse
       rev List.concat app].
  rewrite app_nil_r. reflexivity.
Qed.

End SortNegative.

(** ** With pairwise distinct keys the sort sorts *)

Lemma bisect_bracket (goLeft : nat -> bool) (fuel : nat) :
  forall left right : nat,
    (left <= right)%nat -> (right - left <= fuel)%nat ->
    let r := V8.bisect fuel goLeft left right in
    (left <= r <= right)%nat /\
    (r = left \/ goLeft (r - 1)%nat = false) /\
    (r = right \/ goLeft r = true).
Proof.
  induction fuel as [|fuel IH]; intros left right Hle Hfuel;
    cbn [V8.bisect].
  - assert (left = right) by lia. subst. cbv zeta. auto with arith.
  - destruct (left <? right)%nat eqn:E.
    + apply Nat.ltb_lt in E.
      pose proof (div2_lt (right - left) ltac:(lia)) as Hd.
      cbv zeta. revert Hd. generalize (Nat.div2 (right - left)).
      intros d Hd.
      destruct (goLeft (left + d)%nat) eqn:Eg.
      * destruct (IH left (left + d)%nat ltac:(lia) ltac:(lia))
          as [Hr [Hl Hg]].
        split; [lia|]. split; [exact Hl|].
        destruct Hg as [Hg|Hg]; [|auto]. right. rewrite Hg. exact Eg.
      * destruct (IH (left + d + 1)%nat right ltac:(lia) ltac:(lia))
          as [Hr [Hl Hg]].
        split; [lia|]. split; [|exact Hg].
        destruct Hl as [Hl|Hl]; [|auto]. right. rewrite Hl.
        replace (left + d + 1 - 1)%nat with (left + d)%nat by lia. exact Eg.
    + apply Nat.ltb_ge in E. assert (left = right) by lia. subst.
      cbv zeta. auto with arith.
Qed.

Lemma gallop_bracket (stop : nat -> bool) (maxOfs : nat) (fuel : nat) :
  forall lastOfs offset : nat,
    (lastOfs < offset)%nat -> (maxOfs - offset <= fuel)%nat ->
    let '(lo, ofs) := V8.gallop fuel stop maxOfs lastOfs offset in
    (lo < ofs)%nat /\
    (lo = lastOfs \/ (stop lo = false /\ lo < maxOfs)%nat) /\
    ((maxOfs <= ofs)%nat \/ ((ofs < maxOfs)%nat /\ stop ofs = true)).
Proof.
  induction fuel as [|fuel IH]; intros lastOfs offset Hlt Hfuel;
    cbn [V8.gallop].
  - split; [exact Hlt|]. split; [auto|]. left. lia.
  - destruct (offset <? maxOfs)%nat eqn:E.
    + apply Nat.ltb_lt in E.
      destruct (stop offset) eqn:Es.
      * split; [exact Hlt|]. split; [auto|]. right. auto.
      * specialize (IH offset (2 * offset + 1)%nat ltac:(lia) ltac:(lia)).
        destruct (V8.gallop fuel stop maxOfs offset (2 * offset + 1))
          as [lo ofs].
        destruct IH as [H1 [H2 H3]].
        split; [exact H1|]. split; [|exact H3].
        right. destruct H2 as [->|H2]; auto.
    + apply Nat.ltb_ge in E.
      split; [exact Hlt|]. split; [auto|]. left. exact E.
Qed.

Section Gallops.

Context {A : Type}.
Variable Compare : A -> A -> Z.

Lemma GallopRight_bracketed (a : list A) (key : A) (hint : nat) :
  (hint < Datatypes.length a)%nat ->
  bracketed (fun m => Compare key (nth m a key) <? 0)
            (Datatypes.length a) (V8.GallopRight Compare a key hint).
Proof.
  intros Hhint. unfold V8.GallopRight. cbv zeta.
  set (P := fun m => Compare key (nth m a key) <? 0).
  set (n := Datatypes.length a) in *.
  change (Compare key (nth hint a key) <? 0) with (P hint).
  destruct (P hint) eqn:Eh.
  - (* gallop left *)
    pose proof (gallop_bracket
                  (fun ofs => 0 <=? Compare key (nth (hint - ofs) a key))
                  (hint + 1) (hint + 1) 0 1 ltac:(lia) ltac:(lia)) as G.
    destruct (V8.gallop _ _ _ _ _) as [lo ofs].
    destruct G as [G1 [G2 G3]].
    assert (Hlo : P (hint - lo)%nat = true /\ (lo <= hint)%nat).
    { destruct G2 as [->|[G2 G2']].
      - rewrite Nat.sub_0_r. split; [exact Eh|lia].
      - split; [|lia]. unfold P. apply Z.ltb_lt. apply Z.leb_gt in G2.
        exact G2. }
    destruct Hlo as [Hlo Hlo'].
    pose proof (bisect_bracket P
                  (hint - lo - (hint + 1 - Nat.min ofs (hint + 1)))
                  (hint + 1 - Nat.min ofs (hint + 1)) (hint - lo)
                  ltac:(lia) ltac:(lia)) as B.
    cbv zeta in B.
    change (fun m : nat => Compare key (nth m a key) <? 0) with P.
    set (r := V8.bisect _ _ _ _) in *.
    destruct B as [B1 [B2 B3]].
    split; [lia|]. split.
    + destruct B2 as [B2|B2]; [|auto].
      destruct G3 as [G3|[G3 G3']].
      * left. lia.
      * right. rewrite B2.
        replace (hint + 1 - Nat.min ofs (hint + 1) - 1)%nat
          with (hint - ofs)%nat by lia.
        unfold P. apply Z.ltb_ge. apply Z.leb_le in G3'. exact G3'.
    + right. destruct B3 as [B3|B3]; [|exact B3]. rewrite B3. exact Hlo.
  - (* gallop right *)
    pose proof (gallop_bracket
                  (fun ofs => Compare key (nth (hint + ofs) a key) <? 0)
                  (n - hint) (n - hint) 0 1 ltac:(lia) ltac:(lia)) as G.
    destruct (V8.gallop _ _ _ _ _) as [lo ofs].
    destruct G as [G1 [G2 G3]].
    assert (Hlo : P (hint + lo)%nat = false /\ (lo < n - hint)%nat).
    { destruct G2 as [->|[G2 G2']].
      - rewrite Nat.add_0_r. split; [exact Eh|lia].
      - split; [exact G2|lia]. }
    destruct Hlo as [Hlo Hlo'].
    pose proof (bisect_bracket P
                  (Nat.min ofs (n - hint) + hint - (lo + hint + 1))
                  (lo + hint + 1) (Nat.min ofs (n - hint) + hint)
                  ltac:(lia) ltac:(lia)) as B.
    cbv zeta in B.
    change (fun m : nat => Compare key (nth m a key) <? 0) with P.
    set (r := V8.bisect _ _ _ _) in *.
    destruct B as [B1 [B2 B3]].
    split; [lia|]. split.
    + right. destruct B2 as [B2|B2]; [|exact B2]. rewrite B2.
      replace (lo + hint + 1 - 1)%nat with (hint + lo)%nat by lia.
      exact Hlo.
    + destruct B3 as [B3|B3]; [|auto].
      destruct G3 as [G3|[G3 G3']].
      * left. lia.
      * right. rewrite B3.
        replace (Nat.min ofs (n - hint) + hint)%nat
          with (hint + ofs)%nat by lia.
        exact G3'.
Qed.

Lemma GallopLeft_bracketed (a : list A) (key : A) (hint : nat) :
  (hint < Datatypes.length a)%nat ->
  bracketed (fun m => negb (Compare (nth m a key) key <? 0))
            (Datatypes.length a) (V8.GallopLeft Compare a key hint).
Proof.
  intros Hhint. unfold V8.GallopLeft. cbv zeta.
  set (P := fun m => negb (Compare (nth m a key) key <? 0)).
  set (n := Datatypes.length a) in *.
  assert (HP : forall m, (Compare (nth m a key) key <? 0) = negb (P m)).
  { intros m. unfold P. rewrite negb_involutive. reflexivity. }
  rewrite (HP hint).
  destruct (P hint) eqn:Eh; cbn [negb].
  - (* key <= a[hint]: gallop left *)
    pose proof (gallop_bracket
                  (fun ofs => Compare (nth (hint - ofs) a key) key <? 0)
                  (hint + 1) (hint + 1) 0 1 ltac:(lia) ltac:(lia)) as G.
    destruct (V8.gallop _ _ _ _ _) as [lo ofs].
    destruct G as [G1 [G2 G3]].
    assert (Hlo : P (hint - lo)%nat = true /\ (lo <= hint)%nat).
    { destruct G2 as [->|[G2 G2']].
      - rewrite Nat.sub_0_r. split; [exact Eh|lia].
      - split; [|lia]. unfold P. rewrite G2. reflexivity. }
    destruct Hlo as [Hlo Hlo'].
    pose proof (bisect_bracket P
                  (hint - lo - (hint + 1 - Nat.min ofs (hint + 1)))
                  (hint + 1 - Nat.min ofs (hint + 1)) (hint - lo)
                  ltac:(lia) ltac:(lia)) as B.
    cbv zeta in B.
    change (fun m : nat => negb (Compare (nth m a key) key <? 0)) with P.
    set (r := V8.bisect _ _ _ _) in *.
    destruct B as [B1 [B2 B3]].
    split; [lia|]. split.
    + destruct B2 as [B2|B2]; [|auto].
      destruct G3 as [G3|[G3 G3']].
      * left. lia.
      * right. rewrite B2.
        replace (hint + 1 - Nat.min ofs (hint + 1) - 1)%nat
          with (hint - ofs)%nat by lia.
        unfold P. rewrite G3'. reflexivity.
    + right. destruct B3 as [B3|B3]; [|exact B3]. rewrite B3. exact Hlo.
  - (* a[hint] < key: gallop right *)
    pose proof (gallop_bracket
                  (fun ofs => 0 <=? Compare (nth (hint + ofs) a key) key)
                  (n - hint) (n - hint) 0 1 ltac:(lia) ltac:(lia)) as G.
    destruct (V8.gallop _ _ _ _ _) as [lo ofs].
    destruct G as [G1 [G2 G3]].
    assert (Hlo : P (hint + lo)%nat = false /\ (lo < n - hint)%nat).
    { destruct G2 as [->|[G2 G2']].
      - rewrite Nat.add_0_r. split; [exact Eh|lia].
      - split; [|lia]. unfold P. apply negb_false_iff, Z.ltb_lt.
        apply Z.leb_gt in G2. exact G2. }
    destruct Hlo as [Hlo Hlo'].
    pose proof (bisect_bracket P
                  (Nat.min ofs (n - hint) + hint - (lo + hint + 1))
                  (lo + hint + 1) (Nat.min ofs (n - hint) + hint)
                  ltac:(lia) ltac:(lia)) as B.
    cbv zeta in B.
    change (fun m : nat => negb (Compare (nth m a key) key <? 0)) with P.
    set (r := V8.bisect _ _ _ _) in *.
    destruct B as [B1 [B2 B3]].
    split; [lia|]. split.
    + right. destruct B2 as [B2|B2]; [|exact B2]. rewrite B2.
      replace (lo + hint + 1 - 1)%nat with (hint + lo)%nat by lia.
      exact Hlo.
    + destruct B3 as [B3|B3]; [|auto].
      destruct G3 as [G3|[G3 G3']].
      * left. lia.
      * right. rewrite B3.
        replace (Nat.min ofs (n - hint) + hint)%nat
          with (hint + ofs)%nat by lia.
        unfold P. apply negb_true_iff, Z.ltb_ge. apply Z.leb_le in G3'.
        exact G3'.
Qed.

End Gallops.

(** *** Lists with increasing keys *)

Section Order.

Context {A : Type}.
Variable key : A -> Z.
Implicit Types (x y : A) (l : list A) (z : Z).

Lemma allBelow_nil z : allBelow key [] z <-> True.
Proof. split; [auto | intros _ x []]. Qed.

Lemma allBelow_cons x l z :
  allBelow key (x :: l) z <-> key x < z /\ allBelow key l z.
Proof.
  unfold allBelow. simpl. split.
  - intros H. split; [apply H; auto | intros y Hy; apply H; auto].
  - intros [H1 H2] y [<-|Hy]; auto.
Qed.

Lemma allBelow_app l1 l2 z :
  allBelow key (l1 ++ l2) z <-> allBelow key l1 z /\ allBelow key l2 z.
Proof.
  unfold allBelow. split.
  - intros H. split; intros x Hx; apply H, in_or_app; auto.
  - intros [H1 H2] x Hx. apply in_app_or in Hx. destruct Hx; auto.
Qed.

Lemma allAbove_nil z : allAbove key [] z <-> True.
Proof. split; [auto | intros _ x []]. Qed.

Lemma allAbove_cons x l z :
  allAbove key (x :: l) z <-> z < key x /\ allAbove key l z.
Proof.
  unfold allAbove. simpl. split.
  - intros H. split; [apply H; auto | intros y Hy; apply H; auto].
  - intros [H1 H2] y [<-|Hy]; auto.
Qed.

Lemma allAbove_app l1 l2 z :
  allAbove key (l1 ++ l2) z <-> allAbove key l1 z /\ allAbove key l2 z.
Proof.
  unfold allAbove. split.
  - intros H. split; intros x Hx; apply H, in_or_app; auto.
  - intros [H1 H2] x Hx. apply in_app_or in Hx. destruct Hx; auto.
Qed.

Lemma allApart_nil z : allApart key [] z <-> True.
Proof. split; [auto | intros _ x []]. Qed.

Lemma allApart_cons x l z :
  allApart key (x :: l) z <-> key x <> z /\ allApart key l z.
Proof.
  unfold allApart. simpl. split.
  - intros H. split; [apply H; auto | intros y Hy; apply H; auto].
  - intros [H1 H2] y [<-|Hy]; auto.
Qed.

Lemma allApart_app l1 l2 z :
  allApart key (l1 ++ l2) z <-> allApart key l1 z /\ allApart key l2 z.
Proof.
  unfold allApart. split.
  - intros H. split; intros x Hx; apply H, in_or_app; auto.
  - intros [H1 H2] x Hx. apply in_app_or in Hx. destruct Hx; auto.
Qed.

Lemma below_nil_l l : below key [] l <-> True.
Proof. split; [auto | intros _ x y []]. Qed.

Lemma below_nil_r l : below key l [] <-> True.
Proof. split; [auto | intros _ x y _ []]. Qed.

Lemma below_cons_l x l1 l2 :
  below key (x :: l1) l2 <-> allAbove key l2 (key x) /\ below key l1 l2.
Proof.
  unfold below, allAbove. simpl. split.
  - intros H. split; [intros y Hy; apply H; auto|].
    intros x' y Hx Hy. apply H; auto.
  - intros [H1 H2] x' y [<-|Hx] Hy; auto.
Qed.

Lemma below_cons_r y l1 l2 :
  below key l1 (y :: l2) <-> allBelow key l1 (key y) /\ below key l1 l2.
Proof.
  unfold below, allBelow. simpl. split.
  - intros H. split; [intros x Hx; apply H; auto|].
    intros x y' Hx Hy. apply H; auto.
  - intros [H1 H2] x y' Hx [<-|Hy]; auto.
Qed.

Lemma below_app_l l1 l2 l3 :
  below key (l1 ++ l2) l3 <-> below key l1 l3 /\ below key l2 l3.
Proof.
  unfold below. split.
  - intros H. split; intros x y Hx Hy; apply H; auto; apply in_or_app; auto.
  - intros [H1 H2] x y Hx Hy. apply in_app_or in Hx. destruct Hx; auto.
Qed.

Lemma below_app_r l1 l2 l3 :
  below key l1 (l2 ++ l3) <-> below key l1 l2 /\ below key l1 l3.
Proof.
  unfold below. split.
  - intros H. split; intros x y Hx Hy; apply H; auto; apply in_or_app; auto.
  - intros [H1 H2] x y Hx Hy. apply in_app_or in Hy. destruct Hy; auto.
Qed.

Lemma apart_nil_l l : apart key [] l <-> True.
Proof. split; [auto | intros _ x y []]. Qed.

Lemma apart_nil_r l : apart key l [] <-> True.
Proof. split; [auto | intros _ x y _ []]. Qed.

Lemma apart_cons_l x l1 l2 :
  apart key (x :: l1) l2 <-> allApart key l2 (key x) /\ apart key l1 l2.
Proof.
  unfold apart, allApart. simpl. split.
  - intros H. split; [intros y Hy E; apply (H x y); auto|].
    intros x' y Hx Hy. apply H; auto.
  - intros [H1 H2] x' y [<-|Hx] Hy; auto.
    intros E. apply (H1 y Hy). auto.
Qed.

Lemma apart_cons_r y l1 l2 :
  apart key l1 (y :: l2) <-> allApart key l1 (key y) /\ apart key l1 l2.
Proof.
  unfold apart, allApart. simpl. split.
  - intros H. split; [intros x Hx; apply H; auto|].
    intros x y' Hx Hy. apply H; auto.
  - intros [H1 H2] x y' Hx [<-|Hy]; auto.
Qed.

Lemma apart_app_l l1 l2 l3 :
  apart key (l1 ++ l2) l3 <-> apart key l1 l3 /\ apart key l2 l3.
Proof.
  unfold apart. split.
  - intros H. split; intros x y Hx Hy; apply H; auto; apply in_or_app; auto.
  - intros [H1 H2] x y Hx Hy. apply in_app_or in Hx. destruct Hx; auto.
Qed.

Lemma apart_app_r l1 l2 l3 :
  apart key l1 (l2 ++ l3) <-> apart key l1 l2 /\ apart key l1 l3.
Proof.
  unfold apart. split.
  - intros H. split; intros x y Hx Hy; apply H; auto; apply in_or_app; auto.
  - intros [H1 H2] x y Hx Hy. apply in_app_or in Hy. destruct Hy; auto.
Qed.

Lemma increasing_nil : increasing key [] <-> True.
Proof. reflexivity. Qed.

Lemma increasing_cons x l :
  increasing key (x :: l) <-> allAbove key l (key x) /\ increasing key l.
Proof. reflexivity. Qed.

Lemma increasing_app l1 l2 :
  increasing key (l1 ++ l2) <->
  increasing key l1 /\ increasing key l2 /\ below key l1 l2.
Proof.
  induction l1 as [|x l1 IH]; cbn [app increasing].
  - rewrite below_nil_l. tauto.
  - rewrite IH, allAbove_app, below_cons_l. tauto.
Qed.

Lemma increasing_rev_decreasing l :
  increasing key (rev l) <->
  match l with
  | [] => True
  | x :: l' => allBelow key l' (key x) /\ increasing key (rev l')
  end.
Proof.
  destruct l as [|x l]; cbn [rev]; [reflexivity|].
  rewrite increasing_app. cbn [increasing].
  rewrite below_cons_r, below_nil_r.
  unfold allBelow, allAbove. split.
  - intros [H1 [_ [H2 _]]]. split; [|exact H1].
    intros y Hy. apply H2. apply in_rev in Hy. exact Hy.
  - intros [H1 H2]. repeat split; auto.
    + intros y [].
    + intros y Hy. apply H1. apply in_rev. exact Hy.
Qed.

Lemma increasing_nth l :
  increasing key l ->
  forall (i j : nat) (d d' : A),
    (i < j)%nat -> (j < Datatypes.length l)%nat ->
    key (nth i l d) < key (nth j l d').
Proof.
  induction l as [|x l IH]; intros Hinc i j d d' Hij Hj;
    cbn [Datatypes.length] in Hj; [lia|].
  destruct Hinc as [Hx Hinc].
  destruct j as [|j]; [lia|]. destruct i as [|i]; cbn [nth].
  - apply Hx. apply nth_In. lia.
  - apply IH; [exact Hinc | lia | lia].
Qed.

(** A position [r] in an increasing list, bracketed by the key [z]: the
    element before it is below [z] and the element at it is above. *)
Lemma increasing_boundary l z (r : nat) (d : A) :
  increasing key l ->
  (r <= Datatypes.length l)%nat ->
  (r = 0%nat \/ key (nth (r - 1) l d) < z) ->
  (r = Datatypes.length l \/ z < key (nth r l d)) ->
  allBelow key (firstn r l) z /\ allAbove key (skipn r l) z.
Proof.
  intros Hinc Hr Hlo Hhi. split.
  - intros x Hx.
    destruct (In_nth _ _ d Hx) as [i [Hi Hn]].
    rewrite length_firstn in Hi.
    rewrite nth_firstn in Hn.
    assert (Ei : (i <? r)%nat = true) by (apply Nat.ltb_lt; lia).
    rewrite Ei in Hn. subst x.
    destruct Hlo as [->|Hlo]; [lia|].
    destruct (Nat.eq_dec i (r - 1)) as [->|Hne]; [exact Hlo|].
    pose proof (increasing_nth l Hinc i (r - 1)%nat d d
                  ltac:(lia) ltac:(lia)). lia.
  - intros y Hy.
    destruct (In_nth _ _ d Hy) as [j [Hj Hn]].
    rewrite length_skipn in Hj.
    rewrite nth_skipn in Hn. subst y.
    destruct Hhi as [->|Hhi]; [lia|].
    destruct (Nat.eq_dec j 0) as [->|Hne].
    + rewrite Nat.add_0_r. exact Hhi.
    + pose proof (increasing_nth l Hinc r (r + j)%nat d d
                    ltac:(lia) ltac:(lia)). lia.
Qed.

End Order.

Create Rewrite HintDb order.

#[export] Hint Rewrite
  @allBelow_nil @allBelow_cons @allBelow_app
  @allAbove_nil @allAbove_cons @allAbove_app
  @allApart_nil @allApart_cons @allApart_app
  @below_nil_l @below_nil_r @below_cons_l @below_cons_r
  @below_app_l @below_app_r
  @apart_nil_l @apart_nil_r @apart_cons_l @apart_cons_r
  @apart_app_l @apart_app_r
  @increasing_nil @increasing_cons @increasing_app : order.

Ltac order_split :=
  repeat match goal with
  | H : _ /\ _ |- _ => destruct H
  | H : True |- _ => clear H
  | |- _ /\ _ => split
  | |- True => exact I
  end.

Ltac order_saturate key :=
  repeat match goal with
  | H : allBelow key ?l ?z, Hx : In ?x ?l |- _ =>
      lazymatch goal with
      | _ : key x < z |- _ => fail
      | _ => pose proof (H x Hx)
      end
  | H : allAbove key ?l ?z, Hx : In ?x ?l |- _ =>
      lazymatch goal with
      | _ : z < key x |- _ => fail
      | _ => pose proof (H x Hx)
      end
  | H : allApart key ?l ?z, Hx : In ?x ?l |- _ =>
      lazymatch goal with
      | _ : key x <> z |- _ => fail
      | _ => pose proof (H x Hx)
      end
  | H : below key ?l1 ?l2, Hx : In ?x ?l1, Hy : In ?y ?l2 |- _ =>
      lazymatch goal with
      | _ : key x < key y |- _ => fail
      | _ => pose proof (H x y Hx Hy)
      end
  | H : apart key ?l1 ?l2, Hx : In ?x ?l1, Hy : In ?y ?l2 |- _ =>
      lazymatch goal with
      | _ : key x <> key y |- _ => fail
      | _ => pose proof (H x y Hx Hy)
      end
  end.

Ltac order_atom key :=
  first
    [ assumption
    | lazymatch goal with
      | |- below key _ _ => intros ?x ?y ?Hx ?Hy
      | |- apart key _ _ => intros ?x ?y ?Hx ?Hy
      | |- allBelow key _ _ => intros ?x ?Hx
      | |- allAbove key _ _ => intros ?x ?Hx
      | |- allApart key _ _ => intros ?x ?Hx
      | |- _ => idtac
      end;
      order_saturate key; lia ].

Ltac order key :=
  autorewrite with order in *; order_split; order_atom key.

Section SortSorted.

Context {A : Type}.
Variable Compare : A -> A -> Z.
Variable key : A -> Z.
Hypothesis Hcmp :
  forall a b, key a <> key b -> (Compare a b <? 0) = (key a <? key b).

Lemma bracketed_boundary (a : list A) (k : A) (r : nat) :
  bracketed (fun m => Compare k (nth m a k) <? 0) (Datatypes.length a) r ->
  increasing key a -> allApart key a (key k) ->
  allBelow key (firstn r a) (key k) /\ allAbove key (skipn r a) (key k).
Proof.
  intros [Hr [Hlo Hhi]] Hinc Hap.
  apply (increasing_boundary key a (key k) r k Hinc Hr).
  - destruct (Nat.eq_dec r 0) as [E|E]; [auto|].
    destruct Hlo as [Hlo|Hlo]; [contradiction|]. right.
    pose proof (Hap (nth (r - 1) a k) ltac:(apply nth_In; lia)) as Hne.
    rewrite Hcmp in Hlo by congruence. apply Z.ltb_ge in Hlo. lia.
  - destruct (Nat.eq_dec r (Datatypes.length a)) as [E|E]; [auto|].
    destruct Hhi as [Hhi|Hhi]; [contradiction|]. right.
    pose proof (Hap (nth r a k) ltac:(apply nth_In; lia)) as Hne.
    rewrite Hcmp in Hhi by congruence. apply Z.ltb_lt in Hhi. exact Hhi.
Qed.

Lemma GallopRight_boundary (a : list A) (k : A) (hint : nat) :
  increasing key a -> (hint < Datatypes.length a)%nat ->
  allApart key a (key k) ->
  allBelow key (firstn (V8.GallopRight Compare a k hint) a) (key k) /\
  allAbove key (skipn (V8.GallopRight Compare a k hint) a) (key k).
Proof.
  intros Hinc Hhint Hap.
  apply bracketed_boundary; [|exact Hinc|exact Hap].
  apply GallopRight_bracketed. exact Hhint.
Qed.

Lemma GallopLeft_boundary (a : list A) (k : A) (hint : nat) :
  increasing key a -> (hint < Datatypes.length a)%nat ->
  allApart key a (key k) ->
  allBelow key (firstn (V8.GallopLeft Compare a k hint) a) (key k) /\
  allAbove key (skipn (V8.GallopLeft Compare a k hint) a) (key k).
Proof.
  intros Hinc Hhint Hap.
  destruct (GallopLeft_bracketed Compare a k hint Hhint) as [Hr [Hlo Hhi]].
  set (r := V8.GallopLeft Compare a k hint) in *.
  apply (increasing_boundary key a (key k) r k Hinc Hr).
  - destruct Hlo as [Hlo|Hlo]; [auto|].
    destruct (Nat.eq_dec r 0) as [E|E]; [auto|]. right.
    pose proof (Hap (nth (r - 1) a k) ltac:(apply nth_In; lia)) as Hne.
    apply negb_false_iff in Hlo.
    rewrite Hcmp in Hlo by exact Hne. apply Z.ltb_lt in Hlo. exact Hlo.
  - destruct Hhi as [Hhi|Hhi]; [auto|].
    destruct (Nat.eq_dec r (Datatypes.length a)) as [E|E]; [auto|]. right.
    pose proof (Hap (nth r a k) ltac:(apply nth_In; lia)) as Hne.
    apply negb_true_iff in Hhi.
    rewrite Hcmp in Hhi by exact Hne. apply Z.ltb_ge in Hhi. lia.
Qed.


(** [l] cut at position [n], remembering that the first part is empty
    when [n] is 0 and that the second part is empty when [n] reaches the
    length. *)
Lemma cut_at (n : nat) (l : list A) :
  exists f s, l = f ++ s /\ firstn n l = f /\ skipn n l = s /\
              (n = 0%nat -> f = []) /\
              (s = [] -> (Datatypes.length l <= n)%nat) /\
              Datatypes.length f = Nat.min n (Datatypes.length l) /\
              Datatypes.length s = (Datatypes.length l - n)%nat.
Proof.
  exists (firstn n l), (skipn n l).
  split; [symmetry; apply firstn_skipn|]. split; [reflexivity|].
  split; [reflexivity|]. split; [|split; [|split]].
  - intros ->. reflexivity.
  - intros H. apply (f_equal (@Datatypes.length A)) in H.
    rewrite length_skipn in H. cbn in H. lia.
  - apply length_firstn.
  - apply length_skipn.
Qed.

Lemma length1 (l : list A) :
  (Datatypes.length l =? 1)%nat = true -> exists y, l = [y].
Proof.
  destruct l as [|y [|z l]]; cbn; try discriminate.
  intros _. exists y. reflexivity.
Qed.

Lemma length0 (l : list A) :
  (Datatypes.length l =? 0)%nat = true -> l = [].
Proof. destruct l; cbn; [reflexivity | discriminate]. Qed.

Ltac in_cases :=
  repeat match goal with
  | H : In _ (_ ++ _) |- _ => apply in_app_or in H; destruct H as [H|H]
  | H : In _ (_ :: _) |- _ => destruct H as [H|H]; [subst|]
  | H : In _ [] |- _ => destruct H
  end.

Lemma MergeLow_loop_sorted (top : A) (fuel : nat) :
  forall (g : bool) (mg nA nB : nat) (out a b : list A),
    (Datatypes.length a + Datatypes.length b <= fuel)%nat ->
    increasing key out -> increasing key a -> increasing key b ->
    below key out a -> below key out b -> apart key a b ->
    In top a -> allBelow key b (key top) ->
    increasing key (fst (V8.MergeLow_loop Compare fuel g mg nA nB out a b)).
Proof.
  induction fuel as [|fuel IH];
    intros g mg nA nB out a b Hfuel Hout Ha Hb Hoa Hob Hab Htop Hbt.
  { destruct a; [destruct Htop | cbn in Hfuel; lia]. }
  cbn [V8.MergeLow_loop]. destruct g.
  - (* galloping *)
    destruct b as [|b0 b']; [cbn [fst]; order key|].
    cbv zeta.
    assert (Ha0 : (0 < Datatypes.length a)%nat)
      by (destruct a; [destruct Htop | cbn; lia]).
    assert (Hapb0 : allApart key a (key b0))
      by (intros x Hx; apply Hab; [exact Hx | left; reflexivity]).
    pose proof (GallopRight_boundary a b0 0 Ha Ha0 Hapb0) as [Hf Hs].
    revert Hf Hs.
    destruct (cut_at (V8.GallopRight Compare a b0 0) a)
      as [f [s [Ea [-> [-> [Hn0 [Hsn _]]]]]]].
    generalize dependent (V8.GallopRight Compare a b0 0). intros n Hn0 Hsn.
    intros Hf Hs. subst a.
    assert (Htops : In top s).
    { in_cases; [|assumption]. exfalso. order key. }
    clear Htop.
    destruct ((0 <? n)%nat && (Datatypes.length s =? 1)%nat) eqn:E1.
    { apply andb_true_iff in E1. destruct E1 as [_ E1].
      apply length1 in E1. destruct E1 as [y ->]. in_cases.
      cbn [fst]. order key. }
    destruct ((0 <? n)%nat && (Datatypes.length s =? 0)%nat) eqn:E2.
    { apply andb_true_iff in E2. destruct E2 as [_ E2].
      apply length0 in E2. subst s. destruct Htops. }
    destruct b' as [|b1 b'']; [cbn [fst]; order key|].
    destruct s as [|a0 a1']; [destruct Htops|].
    set (bb := b1 :: b'') in *.
    assert (Hbb : (0 < Datatypes.length bb)%nat) by (cbn; lia).
    clearbody bb. clear b1 b''.
    assert (Hbi : increasing key bb) by order key.
    assert (Hapa0 : allApart key bb (key a0)).
    { intros x Hx E. apply (Hab a0 x); [|right; exact Hx|congruence].
      apply in_or_app. right. left. reflexivity. }
    pose proof (GallopLeft_boundary bb a0 0 Hbi Hbb Hapa0) as [Hf2 Hs2].
    revert Hf2 Hs2.
    destruct (cut_at (V8.GallopLeft Compare bb a0 0) bb)
      as [f2 [s2 [Eb [-> [-> [Hn20 [Hsn2 _]]]]]]].
    generalize dependent (V8.GallopLeft Compare bb a0 0). intros n2 Hn20 Hsn2.
    intros Hf2 Hs2. subst bb.
    destruct ((0 <? n2)%nat && (Datatypes.length s2 =? 0)%nat) eqn:E3.
    { apply andb_true_iff in E3. destruct E3 as [_ E3].
      apply length0 in E3. subst s2. cbn [fst]. order key. }
    assert (Htop' : In top a1').
    { destruct Htops as [->|H]; [|exact H]. exfalso.
      destruct s2 as [|y s2].
      - specialize (Hsn2 eq_refl). rewrite app_nil_r in Hsn2, Hbb.
        assert (n2 <> 0)%nat by lia.
        assert ((0 <? n2)%nat = true) by (apply Nat.ltb_lt; lia).
        rewrite H0 in E3. cbn in E3. discriminate.
      - order key. }
    clear Htops.
    destruct (Datatypes.length a1' =? 1)%nat eqn:E4.
    { apply length1 in E4. destruct E4 as [y ->]. in_cases.
      cbn [fst]. order key. }
    rewrite !length_app in Hfuel. cbn [Datatypes.length] in Hfuel.
    rewrite !length_app in Hfuel.
    destruct (_ || _); apply (IH _ _ _ _ _ a1' s2); try exact Htop';
      try lia; order key.
  - (* one pair at a time *)
    destruct a as [|a0 a']; [destruct Htop|].
    destruct b as [|b0 b']; [cbn [fst]; order key|].
    cbv zeta.
    assert (Hne : key b0 <> key a0).
    { intros E. apply (Hab a0 b0); [left|left|]; auto. }
    rewrite (Hcmp b0 a0 Hne).
    cbn [Datatypes.length] in Hfuel.
    destruct (key b0 <? key a0) eqn:E.
    + apply Z.ltb_lt in E.
      destruct (Datatypes.length b' =? 0)%nat eqn:E1.
      { apply length0 in E1. subst b'. cbn [fst]. order key. }
      destruct (_ <=? _)%nat; apply (IH _ _ _ _ _ (a0 :: a') b');
        try exact Htop; try (cbn [Datatypes.length]; lia); order key.
    + apply Z.ltb_ge in E.
      assert (Htop' : In top a').
      { destruct Htop as [->|H]; [|exact H]. exfalso. order key. }
      clear Htop.
      destruct (Datatypes.length a' =? 1)%nat eqn:E1.
      { apply length1 in E1. destruct E1 as [y ->]. in_cases.
        cbn [fst]. order key. }
      destruct (_ <=? _)%nat; apply (IH _ _ _ _ _ a' (b0 :: b'));
        try exact Htop'; try (cbn [Datatypes.length]; lia); order key.
Qed.

Lemma MergeLow_sorted (top : A) (mg : nat) (a b : list A) :
  increasing key a -> increasing key b -> apart key a b ->
  In top a -> allBelow key b (key top) ->
  (forall b0, In b0 (firstn 1 b) -> allAbove key a (key b0)) ->
  increasing key (fst (V8.MergeLow Compare mg a b)).
Proof.
  intros Ha Hb Hab Htop Hbt Hb0. unfold V8.MergeLow.
  destruct b as [|b0 b']; [exact Ha|].
  specialize (Hb0 b0 ltac:(left; reflexivity)).
  destruct (Datatypes.length b' =? 0)%nat eqn:E1.
  { apply length0 in E1. subst b'. cbn [fst]. order key. }
  destruct (Datatypes.length a =? 1)%nat eqn:E2.
  { apply length1 in E2. destruct E2 as [y ->]. in_cases.
    cbn [fst]. order key. }
  apply (MergeLow_loop_sorted top); try exact Htop; try lia; order key.
Qed.

Ltac and_true H Ha Hb :=
  apply andb_true_iff in H; destruct H as [Ha Hb];
  apply Nat.ltb_lt in Ha; apply Nat.eqb_eq in Hb.

Ltac and_false H :=
  apply andb_false_iff in H; destruct H as [H|H];
  [apply Nat.ltb_ge in H | apply Nat.eqb_neq in H].

Lemma length1_eq (l : list A) :
  Datatypes.length l = 1%nat -> exists y, l = [y].
Proof.
  destruct l as [|y [|z l]]; cbn; try discriminate.
  intros _. exists y. reflexivity.
Qed.

Lemma MergeHigh_loop_sorted (bot : A) (fuel : nat) :
  forall (g : bool) (mg nA nB : nat) (a b out : list A),
    (Datatypes.length a + Datatypes.length b <= fuel)%nat ->
    increasing key a -> increasing key b -> increasing key out ->
    below key a out -> below key b out -> apart key a b ->
    In bot b -> allAbove key a (key bot) -> a <> [] ->
    increasing key (fst (V8.MergeHigh_loop Compare fuel g mg nA nB a b out)).
Proof.
  induction fuel as [|fuel IH];
    intros g mg nA nB a b out Hfuel Ha Hb Hout Hao Hbo Hab Hbot Hat Hane.
  { destruct b; [destruct Hbot|].
    rewrite Nat.add_comm in Hfuel. cbn in Hfuel. lia. }
  cbn [V8.MergeHigh_loop]. destruct g.
  - (* galloping *)
    destruct (V8.unsnoc b) as [[b' bLast]|] eqn:Eb;
      [|apply unsnoc_None in Eb; subst b; destruct Hbot].
    apply unsnoc_Some in Eb. subst b. cbv zeta.
    assert (Ha0 : (Datatypes.length a - 1 < Datatypes.length a)%nat)
      by (destruct a; [congruence | cbn; lia]).
    assert (HapL : allApart key a (key bLast)).
    { intros x Hx. apply Hab; [exact Hx|].
      apply in_or_app. right. left. reflexivity. }
    pose proof (GallopRight_boundary a bLast _ Ha Ha0 HapL) as [Hf Hs].
    revert Hf Hs.
    destruct (cut_at (V8.GallopRight Compare a bLast
                        (Datatypes.length a - 1)) a)
      as [f [s [Ea [-> [-> [_ [_ [Hlf Hls]]]]]]]].
    generalize dependent (V8.GallopRight Compare a bLast
                            (Datatypes.length a - 1)).
    intros k Hlf Hls Hf Hs. clear Ha0.
    destruct ((0 <? Datatypes.length a - k)%nat &&
              (Datatypes.length f =? 0)%nat) eqn:E1.
    { and_true E1 E1a E1b. destruct f; [|discriminate]. subst a.
      cbn [fst]. order key. }
    assert (Hbot' : In bot b').
    { apply in_app_or in Hbot. destruct Hbot as [H|[<-|[]]]; [exact H|].
      exfalso. subst a.
      destruct f as [|x f]; [|order key].
      destruct s as [|y s]; [exact (Hane eq_refl)|].
      cbn [app Datatypes.length] in *. and_false E1; lia. }
    clear Hbot.
    destruct (Datatypes.length b' =? 1)%nat eqn:E2.
    { apply length1 in E2. destruct E2 as [y ->]. in_cases. subst.
      cbn [fst]. order key. }
    destruct (V8.unsnoc f) as [[a' aLast]|] eqn:Ef;
      [|apply unsnoc_None in Ef; subst; cbn [fst]; order key].
    apply unsnoc_Some in Ef. subst f.
    assert (Hb0 : (Datatypes.length b' - 1 < Datatypes.length b')%nat)
      by (destruct b'; [destruct Hbot' | cbn; lia]).
    assert (Hbi : increasing key b') by order key.
    assert (HapA : allApart key b' (key aLast)).
    { intros x Hx E. subst a. apply (Hab aLast x); [| |congruence].
      - apply in_or_app. left. apply in_or_app. right. left. reflexivity.
      - apply in_or_app. left. exact Hx. }
    pose proof (GallopLeft_boundary b' aLast _ Hbi Hb0 HapA) as [Hf2 Hs2].
    revert Hf2 Hs2.
    destruct (cut_at (V8.GallopLeft Compare b' aLast
                        (Datatypes.length b' - 1)) b')
      as [f2 [s2 [Eb [-> [-> [_ [_ [Hlf2 Hls2]]]]]]]].
    generalize dependent (V8.GallopLeft Compare b' aLast
                            (Datatypes.length b' - 1)).
    intros k2 Hlf2 Hls2 Hf2 Hs2. clear Hb0. subst a b'.
    assert (Hbot2 : In bot f2).
    { in_cases; [assumption|]. exfalso. order key. }
    clear Hbot'.
    destruct ((0 <? Datatypes.length (f2 ++ s2) - k2)%nat &&
              (Datatypes.length f2 =? 1)%nat) eqn:E3.
    { and_true E3 E3a E3b. apply length1_eq in E3b.
      destruct E3b as [y ->]. in_cases. cbn [fst]. order key. }
    destruct ((0 <? Datatypes.length (f2 ++ s2) - k2)%nat &&
              (Datatypes.length f2 =? 0)%nat) eqn:E4.
    { and_true E4 E4a E4b. destruct f2; [destruct Hbot2 | discriminate]. }
    destruct (Datatypes.length a' =? 0)%nat eqn:E5.
    { apply length0 in E5. subst a'. cbn [fst]. order key. }
    assert (Hane' : a' <> []) by (intros ->; discriminate).
    rewrite ?length_app in Hfuel. cbn [Datatypes.length] in Hfuel.
    rewrite ?length_app in Hfuel. cbn [Datatypes.length] in Hfuel.
    destruct (_ || _); apply (IH _ _ _ _ a' f2); try exact Hbot2;
      try exact Hane'; try lia; order key.
  - (* one pair at a time *)
    destruct (V8.unsnoc a) as [[a' aLast]|] eqn:Ea;
      [|apply unsnoc_None in Ea; congruence].
    destruct (V8.unsnoc b) as [[b' bLast]|] eqn:Eb;
      [|apply unsnoc_None in Eb; subst b; destruct Hbot].
    apply unsnoc_Some in Ea, Eb. subst a b. cbv zeta.
    assert (Hne : key bLast <> key aLast).
    { intros E. apply (Hab aLast bLast); [| |congruence];
        apply in_or_app; right; left; reflexivity. }
    rewrite (Hcmp bLast aLast Hne).
    rewrite !length_app in Hfuel. cbn [Datatypes.length] in Hfuel.
    destruct (key bLast <? key aLast) eqn:E.
    + apply Z.ltb_lt in E.
      destruct (Datatypes.length a' =? 0)%nat eqn:E1.
      { apply length0 in E1. subst a'. cbn [fst]. order key. }
      assert (Hane' : a' <> []) by (intros ->; discriminate).
      destruct (_ <=? _)%nat; apply (IH _ _ _ _ a' (b' ++ [bLast]));
        try exact Hbot; try exact Hane';
        try (rewrite length_app; cbn [Datatypes.length]; lia); order key.
    + apply Z.ltb_ge in E.
      assert (Hbot' : In bot b').
      { apply in_app_or in Hbot. destruct Hbot as [H|[<-|[]]]; [exact H|].
        exfalso. order key. }
      clear Hbot.
      destruct (Datatypes.length b' =? 1)%nat eqn:E1.
      { apply length1 in E1. destruct E1 as [y ->]. in_cases.
        cbn [fst]. order key. }
      destruct (_ <=? _)%nat; apply (IH _ _ _ _ (a' ++ [aLast]) b');
        try exact Hbot'; try exact Hane;
        try (rewrite length_app; cbn [Datatypes.length]; lia); order key.
Qed.

Lemma MergeHigh_sorted (bot : A) (mg : nat) (a b : list A) :
  increasing key a -> increasing key b -> apart key a b ->
  In bot b -> allAbove key a (key bot) ->
  (forall a' x, a = a' ++ [x] -> allBelow key b (key x)) ->
  increasing key (fst (V8.MergeHigh Compare mg a b)).
Proof.
  intros Ha Hb Hab Hbot Hat Hlast. unfold V8.MergeHigh.
  destruct (V8.unsnoc a) as [[a' aLast]|] eqn:Ea; [|exact Hb].
  apply unsnoc_Some in Ea. subst a.
  specialize (Hlast a' aLast eq_refl).
  destruct (Datatypes.length a' =? 0)%nat eqn:E1.
  { apply length0 in E1. subst a'. cbn [fst]. order key. }
  destruct (Datatypes.length b =? 1)%nat eqn:E2.
  { apply length1 in E2. destruct E2 as [y ->]. in_cases.
    cbn [fst]. order key. }
  assert (Hane : a' <> []) by (intros ->; discriminate).
  apply (MergeHigh_loop_sorted bot); try exact Hbot; try exact Hane;
    try lia; order key.
Qed.

Lemma MergeAt_sorted (mg : nat) (a b : list A) :
  increasing key a -> increasing key b -> apart key a b ->
  increasing key (fst (V8.MergeAt Compare mg a b)).
Proof.
  intros Ha Hb Hab. unfold V8.MergeAt.
  destruct b as [|keyRight b']; [cbn [fst]; order key|].
  destruct a as [|a0 a1]; [rewrite skipn_nil; exact Hb|].
  set (a := a0 :: a1) in *.
  assert (Ha0 : (0 < Datatypes.length a)%nat) by (cbn; lia).
  clearbody a. clear a0 a1.
  assert (HapR : allApart key a (key keyRight))
    by (intros x Hx; apply Hab; [exact Hx | left; reflexivity]).
  pose proof (GallopRight_boundary a keyRight 0 Ha Ha0 HapR) as [Hf Hs].
  revert Hf Hs.
  destruct (cut_at (V8.GallopRight Compare a keyRight 0) a)
    as [f [s [Ea [-> [-> _]]]]].
  generalize (V8.GallopRight Compare a keyRight 0). intros k Hf Hs.
  clear Ha0 HapR. subst a.
  destruct (V8.unsnoc s) as [[s' keyLeft]|] eqn:Es.
  2:{ apply unsnoc_None in Es. subst s. cbn [fst]. order key. }
  apply unsnoc_Some in Es. subst s.
  assert (Hb0 : (Datatypes.length (keyRight :: b') - 1 <
                 Datatypes.length (keyRight :: b'))%nat) by (cbn; lia).
  assert (HapL : allApart key (keyRight :: b') (key keyLeft)).
  { intros x Hx E. apply (Hab keyLeft x); [|exact Hx|congruence].
    apply in_or_app. right. apply in_or_app. right. left. reflexivity. }
  pose proof (GallopLeft_boundary (keyRight :: b') keyLeft _ Hb Hb0 HapL)
    as [Hf2 Hs2].
  revert Hf2 Hs2.
  generalize (V8.GallopLeft Compare (keyRight :: b') keyLeft
                (Datatypes.length (keyRight :: b') - 1)).
  intros lengthB Hf2 Hs2. clear Hb0 HapL.
  destruct lengthB as [|n]; cbn [Nat.eqb].
  { cbn [firstn skipn] in Hs2. cbn [fst]. order key. }
  cbn [firstn skipn] in Hf2, Hs2 |- *.
  revert Hf2 Hs2.
  destruct (cut_at n b') as [f2 [s2 [Eb [-> [-> _]]]]].
  intros Hf2 Hs2. subst b'.
  assert (Hm : forall m : list A * nat,
             increasing key (fst m) ->
             Permutation (fst m) ((s' ++ [keyLeft]) ++ keyRight :: f2) ->
             increasing key (fst (let '(merged, minGallop) := m in
                                  (f ++ merged ++ s2, minGallop)))).
  { intros [m mg'] Hinc Hperm. cbn [fst] in *.
    assert (Hin : forall x, In x m ->
                            In x ((s' ++ [keyLeft]) ++ keyRight :: f2))
      by (intros x Hx; apply (Permutation_in _ Hperm Hx)).
    rewrite !increasing_app. split; [order key|].
    split; [split; [exact Hinc | split; [order key|]]|].
    - intros x y Hx Hy. apply Hin in Hx. in_cases; order key.
    - rewrite below_app_r. split.
      + intros x y Hx Hy. apply Hin in Hy. in_cases; order key.
      + order key. }
  apply Hm.
  - destruct (_ <=? _)%nat.
    + apply (MergeLow_sorted keyLeft); try order key.
      * apply in_or_app. right. left. reflexivity.
      * intros b0 [<-|[]]. order key.
    + apply (MergeHigh_sorted keyRight); try order key.
      * left. reflexivity.
      * intros a' x E. apply app_inj_tail in E. destruct E as [_ <-].
        order key.
  - destruct (_ <=? _)%nat; [apply MergeLow_perm | apply MergeHigh_perm].
Qed.

Lemma distinctKeys_app (l1 l2 : list A) :
  distinctKeys key (l1 ++ l2) ->
  distinctKeys key l1 /\ distinctKeys key l2 /\ apart key l1 l2.
Proof.
  unfold distinctKeys. rewrite map_app. intros H.
  split; [exact (NoDup_app_remove_r _ _ H)|].
  split; [exact (NoDup_app_remove_l _ _ H)|].
  intros x y Hx Hy E.
  induction l1 as [|z l1 IH]; [destruct Hx|].
  cbn [map app] in H. inversion H as [|? ? Hnot Hnd]; subst.
  destruct Hx as [->|Hx].
  - apply Hnot. apply in_or_app. right. rewrite E. apply in_map. exact Hy.
  - apply IH; assumption.
Qed.

Lemma distinctKeys_cons (x : A) (l : list A) :
  distinctKeys key (x :: l) -> allApart key l (key x) /\ distinctKeys key l.
Proof.
  unfold distinctKeys. cbn [map]. intros H.
  inversion H as [|? ? Hnot Hnd]; subst. split; [|exact Hnd].
  intros y Hy E. apply Hnot. rewrite <- E. apply in_map. exact Hy.
Qed.

Lemma distinctKeys_perm (l1 l2 : list A) :
  Permutation l1 l2 -> distinctKeys key l1 -> distinctKeys key l2.
Proof.
  unfold distinctKeys. intros Hp. apply Permutation_NoDup.
  apply Permutation_map. exact Hp.
Qed.

Lemma run_extend_increasing (l : list A) :
  forall (p : A) (taken rest : list A),
    distinctKeys key (p :: l) ->
    V8.run_extend Compare false p l = (taken, rest) ->
    increasing key (p :: taken).
Proof.
  induction l as [|c l IH]; intros p taken rest Hd; cbn [V8.run_extend].
  - intros [= <- <-]. order key.
  - destruct (distinctKeys_cons _ _ Hd) as [Hp Hd'].
    rewrite (Hcmp c p (Hp c ltac:(left; reflexivity))).
    destruct (key c <? key p) eqn:E.
    + intros [= <- <-]. order key.
    + apply Z.ltb_ge in E.
      destruct (V8.run_extend Compare false c l) as [t r] eqn:Er.
      intros [= <- <-].
      specialize (IH c t r Hd' Er).
      pose proof (Hp c ltac:(left; reflexivity)).
      order key.
Qed.

Lemma run_extend_decreasing (l : list A) :
  forall (p : A) (taken rest : list A),
    distinctKeys key (p :: l) ->
    V8.run_extend Compare true p l = (taken, rest) ->
    increasing key (rev (p :: taken)).
Proof.
  induction l as [|c l IH]; intros p taken rest Hd; cbn [V8.run_extend].
  - intros [= <- <-]. cbn. order key.
  - destruct (distinctKeys_cons _ _ Hd) as [Hp Hd'].
    rewrite Z.leb_antisym.
    rewrite (Hcmp c p (Hp c ltac:(left; reflexivity))).
    destruct (key c <? key p) eqn:E; cbn [negb].
    + apply Z.ltb_lt in E.
      destruct (V8.run_extend Compare true c l) as [t r] eqn:Er.
      intros [= <- <-].
      specialize (IH c t r Hd' Er).
      cbn [rev] in IH |- *.
      rewrite !increasing_app in *. order key.
    + intros [= <- <-]. cbn. order key.
Qed.

Lemma CountAndMakeRun_sorted (l run rest : list A) :
  distinctKeys key l ->
  V8.CountAndMakeRun Compare l = (run, rest) ->
  increasing key run.
Proof.
  intros Hd. unfold V8.CountAndMakeRun.
  destruct l as [|x0 [|x1 l]].
  - intros [= <- <-]. exact I.
  - intros [= <- <-]. order key.
  - destruct (distinctKeys_cons _ _ Hd) as [Hp Hd'].
    rewrite (Hcmp x1 x0 (Hp x1 ltac:(left; reflexivity))).
    destruct (key x1 <? key x0) eqn:E.
    + apply Z.ltb_lt in E.
      destruct (V8.run_extend Compare true x1 l) as [t r] eqn:Er.
      intros [= <- <-].
      pose proof (run_extend_decreasing l x1 t r Hd' Er) as H.
      change (rev (x0 :: x1 :: t)) with (rev (x1 :: t) ++ [x0]).
      rewrite increasing_app. split; [exact H|]. split; [order key|].
      cbn [rev] in H. rewrite increasing_app in H.
      destruct H as [_ [_ H]].
      revert H. generalize (rev t). intros rt H. order key.
    + apply Z.ltb_ge in E.
      destruct (V8.run_extend Compare false x1 l) as [t r] eqn:Er.
      intros [= <- <-].
      pose proof (run_extend_increasing l x1 t r Hd' Er) as H.
      pose proof (Hp x1 ltac:(left; reflexivity)).
      order key.
Qed.

Lemma BinaryInsertionSort_sorted (ext : list A) :
  forall run : list A,
    increasing key run -> distinctKeys key (run ++ ext) ->
    increasing key (V8.BinaryInsertionSort Compare run ext).
Proof.
  induction ext as [|pivot ext IH]; intros run Hrun Hd;
    cbn [V8.BinaryInsertionSort]; [exact Hrun|].
  cbv zeta.
  assert (Hap : allApart key run (key pivot)).
  { destruct (distinctKeys_app _ _ Hd) as [_ [_ H]].
    intros x Hx. apply H; [exact Hx | left; reflexivity]. }
  pose proof (bisect_bracket
                (fun mid => Compare pivot (nth mid run pivot) <? 0)
                (Datatypes.length run) 0 (Datatypes.length run)
                ltac:(lia) ltac:(lia)) as B.
  cbv zeta in B.
  assert (Hb : bracketed (fun m => Compare pivot (nth m run pivot) <? 0)
                 (Datatypes.length run)
                 (V8.bisect (Datatypes.length run)
                    (fun mid => Compare pivot (nth mid run pivot) <? 0)
                    0 (Datatypes.length run))).
  { destruct B as [B1 [B2 B3]]. split; [lia|]. split; assumption. }
  destruct (bracketed_boundary run pivot _ Hb Hrun Hap) as [Hf Hs].
  revert Hf Hs. unfold V8.insertAt.
  destruct (cut_at (V8.bisect (Datatypes.length run)
                      (fun mid => Compare pivot (nth mid run pivot) <? 0)
                      0 (Datatypes.length run)) run)
    as [f [s [Er [-> [-> _]]]]].
  intros Hf Hs. subst run.
  apply IH.
  - order key.
  - apply (distinctKeys_perm ((f ++ s) ++ pivot :: ext)); [|exact Hd].
    perm_solve.
Qed.

Lemma MergeAt_step (mg : nat) (a b : list A) (rest : list (list A)) :
  increasing key a -> increasing key b ->
  distinctKeys key (a ++ b ++ List.concat rest) ->
  increasing key (fst (V8.MergeAt Compare mg a b)) /\
  distinctKeys key (fst (V8.MergeAt Compare mg a b) ++ List.concat rest).
Proof.
  intros Ha Hb Hd. split.
  - apply MergeAt_sorted; [exact Ha | exact Hb |].
    rewrite app_assoc in Hd.
    destruct (distinctKeys_app _ _ Hd) as [Hd' _].
    destruct (distinctKeys_app _ _ Hd') as [_ [_ H]]. exact H.
  - apply (distinctKeys_perm (a ++ b ++ List.concat rest)); [|exact Hd].
    rewrite (MergeAt_perm Compare mg a b). perm_solve.
Qed.

Lemma MergeCollapse_sorted (fuel : nat) :
  forall (mg : nat) (runs : list (list A)),
    Forall (increasing key) runs -> distinctKeys key (List.concat runs) ->
    Forall (increasing key) (fst (V8.MergeCollapse Compare fuel mg runs)).
Proof.
  induction fuel as [|fuel IH]; intros mg runs Hinc Hd;
    cbn [V8.MergeCollapse]; [exact Hinc|].
  destruct runs as [|r0 [|r1 below]]; try exact Hinc.
  inversion Hinc as [|? ? H0 Hinc1]; subst.
  inversion Hinc1 as [|? ? H1 Hinc2]; subst.
  cbn [List.concat] in Hd.
  assert (top2 : forall mg',
             Forall (increasing key)
               (fst (let '(m, minGallop) := V8.MergeAt Compare mg' r1 r0 in
                     V8.MergeCollapse Compare fuel minGallop (m :: below)))).
  { intros mg'.
    destruct (MergeAt_step mg' r1 r0 below H1 H0) as [Hm Hdm].
    { apply (distinctKeys_perm (r0 ++ r1 ++ List.concat below));
        [perm_solve | exact Hd]. }
    destruct (V8.MergeAt Compare mg' r1 r0) as [m mg''].
    apply IH; [constructor; assumption | exact Hdm]. }
  destruct (_ || _).
  - destruct below as [|r2 below']; [apply top2|].
    destruct (_ <? _)%nat; [|apply top2].
    inversion Hinc2 as [|? ? H2 Hinc3]; subst.
    cbn [List.concat] in Hd.
    destruct (MergeAt_step mg r2 r1 (r0 :: below') H2 H1) as [Hm Hdm].
    { apply (distinctKeys_perm (r0 ++ r1 ++ r2 ++ List.concat below'));
        [cbn [List.concat]; perm_solve | exact Hd]. }
    destruct (V8.MergeAt Compare mg r2 r1) as [m mg''].
    apply IH; [repeat constructor; assumption|].
    apply (distinctKeys_perm (fst (m, mg'') ++ List.concat (r0 :: below')));
      [cbn [fst List.concat]; perm_solve | exact Hdm].
  - destruct (_ <=? _)%nat; [apply top2 | exact Hinc].
Qed.

Lemma MergeForceCollapse_sorted (fuel : nat) :
  forall (mg : nat) (runs : list (list A)),
    Forall (increasing key) runs -> distinctKeys key (List.concat runs) ->
    Forall (increasing key)
      (fst (V8.MergeForceCollapse Compare fuel mg runs)).
Proof.
  induction fuel as [|fuel IH]; intros mg runs Hinc Hd;
    cbn [V8.MergeForceCollapse]; [exact Hinc|].
  destruct runs as [|r0 [|r1 below]]; try exact Hinc.
  inversion Hinc as [|? ? H0 Hinc1]; subst.
  inversion Hinc1 as [|? ? H1 Hinc2]; subst.
  cbn [List.concat] in Hd.
  assert (top2 : forall mg',
             Forall (increasing key)
               (fst (let '(m, minGallop) := V8.MergeAt Compare mg' r1 r0 in
                     V8.MergeForceCollapse Compare fuel minGallop
                       (m :: below)))).
  { intros mg'.
    destruct (MergeAt_step mg' r1 r0 below H1 H0) as [Hm Hdm].
    { apply (distinctKeys_perm (r0 ++ r1 ++ List.concat below));
        [perm_solve | exact Hd]. }
    destruct (V8.MergeAt Compare mg' r1 r0) as [m mg''].
    apply IH; [constructor; assumption | exact Hdm]. }
  destruct below as [|r2 below']; [apply top2|].
  destruct (_ <? _)%nat; [|apply top2].
  inversion Hinc2 as [|? ? H2 Hinc3]; subst.
  cbn [List.concat] in Hd.
  destruct (MergeAt_step mg r2 r1 (r0 :: below') H2 H1) as [Hm Hdm].
  { apply (distinctKeys_perm (r0 ++ r1 ++ r2 ++ List.concat below'));
      [cbn [List.concat]; perm_solve | exact Hd]. }
  destruct (V8.MergeAt Compare mg r2 r1) as [m mg''].
  apply IH; [repeat constructor; assumption|].
  apply (distinctKeys_perm (fst (m, mg'') ++ List.concat (r0 :: below')));
    [cbn [fst List.concat]; perm_solve | exact Hdm].
Qed.

Lemma MergeForceCollapse_single (fuel : nat) :
  forall (mg : nat) (runs : list (list A)),
    (Datatypes.length runs <= S fuel)%nat ->
    (Datatypes.length (fst (V8.MergeForceCollapse Compare fuel mg runs))
     <= 1)%nat.
Proof.
  induction fuel as [|fuel IH]; intros mg runs Hlen;
    cbn [V8.MergeForceCollapse]; [exact Hlen|].
  destruct runs as [|r0 [|r1 below]]; cbn [fst Datatypes.length]; try lia.
  cbn [Datatypes.length] in Hlen.
  destruct below as [|r2 below'].
  - destruct (V8.MergeAt _ _ _ _). apply IH. cbn. lia.
  - cbn [Datatypes.length] in Hlen.
    destruct (_ <? _)%nat; destruct (V8.MergeAt _ _ _ _); apply IH; cbn; lia.
Qed.

Lemma ArrayTimSortImpl_loop_sorted (fuel : nat) :
  forall (minRun mg : nat) (runs : list (list A)) (remaining : list A),
    (Datatypes.length remaining <= fuel)%nat ->
    Forall (increasing key) runs ->
    distinctKeys key (List.concat runs ++ remaining) ->
    Forall (increasing key)
      (fst (V8.ArrayTimSortImpl_loop Compare fuel minRun mg runs remaining)).
Proof.
  induction fuel as [|fuel IH]; intros minRun mg runs remaining Hfuel Hinc Hd.
  { destruct remaining; [exact Hinc | cbn in Hfuel; lia]. }
  cbn [V8.ArrayTimSortImpl_loop].
  destruct remaining as [|x remaining']; [exact Hinc|].
  set (remaining := x :: remaining') in *.
  destruct (distinctKeys_app _ _ Hd) as [Hdr [Hdrem Hap]].
  destruct (V8.CountAndMakeRun Compare remaining) as [run rest] eqn:Erun.
  pose proof (CountAndMakeRun_sorted _ _ _ Hdrem Erun) as Hrun.
  pose proof (CountAndMakeRun_perm _ _ _ _ Erun) as Hperm.
  apply CountAndMakeRun_length in Erun. destruct Erun as [Elen Epos].
  specialize (Epos ltac:(discriminate)).
  assert (H : forall run' rest',
             (if (Datatypes.length run <? minRun)%nat
              then (V8.BinaryInsertionSort Compare run
                      (firstn (Nat.min minRun (Datatypes.length remaining)
                               - Datatypes.length run) rest),
                    skipn (Nat.min minRun (Datatypes.length remaining)
                           - Datatypes.length run) rest)
              else (run, rest)) = (run', rest') ->
             (Datatypes.length rest' < Datatypes.length remaining)%nat /\
             increasing key run' /\
             Permutation (run' ++ rest') remaining).
  { intros run' rest'. destruct (_ <? _)%nat; intros [= <- <-].
    - split; [rewrite length_skipn; lia|]. split.
      + apply BinaryInsertionSort_sorted; [exact Hrun|].
        apply (distinctKeys_perm _ _ (Permutation_sym Hperm)) in Hdrem.
        rewrite <- (firstn_skipn
                      (Nat.min minRun (Datatypes.length remaining)
                       - Datatypes.length run) rest) in Hdrem.
        rewrite app_assoc in Hdrem.
        apply (distinctKeys_app _ _ Hdrem).
      + rewrite BinaryInsertionSort_perm, <- app_assoc, firstn_skipn.
        exact Hperm.
    - split; [lia|]. split; [exact Hrun | exact Hperm]. }
  destruct (if (_ <? _)%nat then _ else _) as [run' rest'].
  destruct (H _ _ eq_refl) as [Hlen [Hrun' Hperm']].
  assert (Hd' : distinctKeys key (List.concat (run' :: runs) ++ rest')).
  { apply (distinctKeys_perm (List.concat runs ++ remaining)); [|exact Hd].
    rewrite <- Hperm'. cbn [List.concat]. perm_solve. }
  pose proof (MergeCollapse_sorted (S (Datatypes.length runs)) mg
                (run' :: runs) ltac:(constructor; assumption)
                (proj1 (distinctKeys_app _ _ Hd'))) as HC.
  pose proof (MergeCollapse_perm Compare (S (Datatypes.length runs)) mg
                (run' :: runs)) as HP.
  destruct (V8.MergeCollapse _ _ _ _) as [runs' mg'].
  cbn [fst] in HC, HP.
  apply IH; [lia | exact HC |].
  apply (distinctKeys_perm (List.concat (run' :: runs) ++ rest'));
    [|exact Hd'].
  rewrite HP. reflexivity.
Qed.

Theorem ArrayTimSortImpl_sorted (l : list A) :
  distinctKeys key l -> increasing key (V8.ArrayTimSortImpl Compare l).
Proof.
  intros Hd. unfold V8.ArrayTimSortImpl.
  destruct (Datatypes.length l <? 2)%nat eqn:E.
  { apply Nat.ltb_lt in E.
    destruct l as [|x [|y l]]; cbn in E; try lia; cbn; auto.
    split; [intros z []|exact I]. }
  pose proof (ArrayTimSortImpl_loop_sorted (Datatypes.length l)
                (V8.ComputeMinRunLength (Datatypes.length l))
                V8.kMinGallopWins [] l (Nat.le_refl _)
                (Forall_nil _) Hd) as HL.
  pose proof (ArrayTimSortImpl_loop_perm Compare (Datatypes.length l)
                (V8.ComputeMinRunLength (Datatypes.length l))
                V8.kMinGallopWins [] l) as HP.
  destruct (V8.ArrayTimSortImpl_loop _ _ _ _ _ _) as [runs mg].
  cbn [fst List.concat app] in HL, HP.
  pose proof (MergeForceCollapse_sorted (Datatypes.length runs) mg runs HL
                (distinctKeys_perm _ _ (Permutation_sym HP) Hd)) as HF.
  pose proof (MergeForceCollapse_single (Datatypes.length runs) mg runs
                ltac:(lia)) as H1.
  destruct (V8.MergeForceCollapse _ _ _ _) as [runs' mg'].
  cbn [fst] in HF, H1.
  destruct runs' as [|r [|r' runs']]; cbn in H1; try lia.
  - exact I.
  - cbn. rewrite app_nil_r. inversion HF; assumption.
Qed.

End SortSorted.

(** ** The query engine *)

(** *** Filters, total and pagination *)

(** The sorted array holds the elements of the array. *)
Lemma sort_perm {A : Type} (comparefn : A -> A -> Z) (l : list A) :
  Permutation (V8.sort comparefn l) l.
Proof. apply ArrayTimSortImpl_perm. Qed.

Lemma sort_length {A : Type} (comparefn : A -> A -> Z) (l : list A) :
  List.length (V8.sort comparefn l) = List.length l.
Proof. apply Permutation_length, sort_perm. Qed.

Lemma filter_true {A : Type} (l : list A) : filter (fun _ => true) l = l.
Proof. induction l; simpl; congruence. Qed.

Lemma filter_filter {A : Type} (f g : A -> bool) (l : list A) :
  filter g (filter f l) = filter (fun x => f x && g x) l.
Proof.
  induction l as [|x l IH]; simpl; [reflexivity|].
  destruct (f x); simpl; [destruct (g x)|]; rewrite IH; reflexivity.
Qed.

Lemma statusFilter_passes (status_ : option string) (l : list Invoice) :
  statusFilter status_ l = filter (passesStatus status_) l.
Proof.
  unfold statusFilter, passesStatus.
  destruct status_ as [s|]; [|symmetry; apply filter_true].
  destruct (String.eqb s EmptyString); simpl.
  - symmetry; apply filter_true.
  - destruct (String.eqb s "all"); simpl;
      [symmetry; apply filter_true | reflexivity].
Qed.

Lemma searchFilter_passes (search : option string) (l : list Invoice) :
  searchFilter search l = filter (passesSearch search) l.
Proof.
  unfold searchFilter, passesSearch.
  destruct search as [s|]; [|symmetry; apply filter_true].
  destruct (String.eqb s EmptyString); simpl.
  - symmetry; apply filter_true.
  - reflexivity.
Qed.

Lemma filters_passing (store : Store) (q : Query) :
  searchFilter (q_search q) (statusFilter (q_status q) (Map_values store)) =
  passing store q.
Proof.
  rewrite statusFilter_passes, searchFilter_passes, filter_filter.
  reflexivity.
Qed.

(** [total] is the number of records that pass the filters. *)
Lemma total_passing (store : Store) (q : Query) :
  total (listInvoices store q) = Z.of_nat (List.length (passing store q)).
Proof.
  unfold listInvoices. cbn [total].
  rewrite sort_length, filters_passing. reflexivity.
Qed.

(** C4. For every store and every query (so for every page >= 1 and
    limit >= 1), [total] is the number of records that pass the status
    filter and the text filter, and it is the same whatever page, limit
    (and sort parameters) the query carries. *)
Theorem C4_total_counts_filtered :
  forall (store : Store) (q : Query),
    total (listInvoices store q) = Z.of_nat (List.length (passing store q)) /\
    forall page' limit' sortBy' sortOrder',
      total (listInvoices store
               (mkQuery page' limit' sortBy' sortOrder'
                        (q_status q) (q_search q))) =
      total (listInvoices store q).
Proof.
  intros store q. split.
  - apply total_passing.
  - intros. rewrite !total_passing. reflexivity.
Qed.

(** A slice that starts at or beyond the length is empty. *)
Lemma slice_beyond {A : Type} (l : list A) (start end_ : Z) :
  Z.of_nat (List.length l) <= start -> JS.slice l start end_ = [].
Proof.
  intros H. unfold JS.slice.
  assert (Hs : (start <? 0) = false) by (apply Z.ltb_ge; lia).
  rewrite Hs. cbv zeta.
  rewrite (Z.min_r start) by lia.
  rewrite skipn_all2 by lia.
  apply firstn_nil.
Qed.

(** C5. A page p >= 1 whose start (p-1)*limit is at or beyond the number
    of filtered records gets an empty [data], and [total] is still the
    number of filtered records. *)
Theorem C5_page_beyond_last_is_empty :
  forall (store : Store) (q : Query),
    1 <= JS.parseIntOr (q_page q) 1 ->
    Z.of_nat (List.length (passing store q)) <=
      (JS.parseIntOr (q_page q) 1 - 1) * JS.parseIntOr (q_limit q) 10 ->
    data (listInvoices store q) = [] /\
    total (listInvoices store q) = Z.of_nat (List.length (passing store q)).
Proof.
  intros store q Hp Hstart. split; [|apply total_passing].
  unfold listInvoices. cbn [data].
  apply slice_beyond.
  rewrite sort_length, filters_passing. exact Hstart.
Qed.

(** The scenario of C5: page 3, limit 10, five records. *)
Lemma C5_witness :
  data (listInvoices fiveInvoices (pageQuery "3" "10")) = [] /\
  total (listInvoices fiveInvoices (pageQuery "3" "10")) = 5.
Proof.
  refine (C5_page_beyond_last_is_empty fiveInvoices (pageQuery "3" "10") _ _);
    vm_compute; discriminate.
Defined.

(** C6. With the status parameter "all", and with the status parameter
    absent, the engine returns what it returns with no status filter. *)
Theorem C6_status_all_or_absent_is_no_filter :
  forall (store : Store) (q : Query),
    listInvoices store (withStatus q (Some "all"%string)) =
      listWithoutStatusFilter store q /\
    listInvoices store (withStatus q None) =
      listWithoutStatusFilter store q.
Proof.
  intros store q. split; reflexivity.
Qed.

(** *** The text search *)












(** *** A page that is not positive *)

(** [data] is the slice of the sorted records. *)
Lemma data_slice (store : Store) (q : Query) :
  data (listInvoices store q) =
  JS.slice (sortedInvoices store q)
    ((JS.parseIntOr (q_page q) 1 - 1) * JS.parseIntOr (q_limit q) 10)
    ((JS.parseIntOr (q_page q) 1 - 1) * JS.parseIntOr (q_limit q) 10
     + JS.parseIntOr (q_limit q) 10).
Proof.
  unfold listInvoices, sortedInvoices. cbn [data].
  rewrite filters_passing. reflexivity.
Qed.

(** [slice] with two negative bounds counts both from the end. *)
Lemma slice_negative {A : Type} (l : list A) (start end_ : Z) :
  start < 0 -> end_ < 0 ->
  JS.slice l start end_ =
  JS.slice l (Z.max (Z.of_nat (List.length l) + start) 0)
             (Z.max (Z.of_nat (List.length l) + end_) 0).
Proof.
  intros Hs He. unfold JS.slice. cbv zeta.
  assert (E1 : (start <? 0) = true) by (apply Z.ltb_lt; lia).
  assert (E2 : (end_ <? 0) = true) by (apply Z.ltb_lt; lia).
  rewrite E1, E2.
  assert (E3 : (Z.max (Z.of_nat (List.length l) + start) 0 <? 0) = false)
    by (apply Z.ltb_ge; lia).
  assert (E4 : (Z.max (Z.of_nat (List.length l) + end_) 0 <? 0) = false)
    by (apply Z.ltb_ge; lia).
  rewrite E3, E4.
  rewrite !Z.min_l by lia. reflexivity.
Qed.

(** C10. The page parameter is not checked for being positive.  A page
    that parses to 0 gives the response of an absent page (page 1).  A
    page that parses to a negative number p is echoed and used as it is:
    [data] is the slice from (p-1)*limit to p*limit, which for a limit
    >= 1 are two negative indices, counted from the end of the sorted
    records.  With page -1 and limit 1 over two records, [data] is not
    empty. *)
Theorem C10_page_is_not_validated :
  (forall (store : Store) (q : Query) (s : string),
      q_page q = Some s -> JS.parseInt s = Some 0 ->
      listInvoices store q = listInvoices store (withPage q None)) /\
  (forall (store : Store) (q : Query) (s : string) (p : Z),
      q_page q = Some s -> JS.parseInt s = Some p -> p < 0 ->
      let lim := JS.parseIntOr (q_limit q) 10 in
      let sorted := sortedInvoices store q in
      let len := Z.of_nat (List.length sorted) in
      page (listInvoices store q) = p /\
      data (listInvoices store q) =
        JS.slice sorted ((p - 1) * lim) ((p - 1) * lim + lim) /\
      (1 <= lim ->
       data (listInvoices store q) =
         JS.slice sorted (Z.max (len + (p - 1) * lim) 0)
                         (Z.max (len + p * lim) 0))) /\
  JS.parseInt "-1" = Some (-1) /\
  data (listInvoices twoInvoices (pageQuery "-1" "1")) <> [].
Proof.
  split; [|split; [|split]].
  - intros store q s Hq Hs.
    unfold listInvoices, withPage. cbn [q_page q_limit q_sortBy q_sortOrder
                                         q_status q_search].
    rewrite Hq.
    assert (E : JS.parseIntOr (Some s) 1 = JS.parseIntOr None 1)
      by (unfold JS.parseIntOr; rewrite Hs; reflexivity).
    rewrite E. reflexivity.
  - intros store q s p Hq Hs Hp lim sorted len.
    assert (Hpage : JS.parseIntOr (q_page q) 1 = p).
    { unfold JS.parseIntOr. rewrite Hq, Hs. destruct p; [lia|reflexivity..]. }
    pose proof (data_slice store q) as Hd. rewrite Hpage in Hd.
    split; [|split].
    + unfold listInvoices. cbn [page]. exact Hpage.
    + exact Hd.
    + intros Hlim. rewrite Hd. subst lim sorted len.
      rewrite slice_negative by nia.
      f_equal. f_equal. lia.
  - reflexivity.
  - vm_compute. discriminate.
Qed.

(** C10 with page -1 and limit 1 over two records: the slice is taken
    from -2 to -1. *)
Lemma C10_witness :
  page (listInvoices twoInvoices (pageQuery "-1" "1")) = -1 /\
  data (listInvoices twoInvoices (pageQuery "-1" "1")) =
    JS.slice (sortedInvoices twoInvoices (pageQuery "-1" "1")) (-2) (-1).
Proof.
  destruct C10_page_is_not_validated as [_ [H _]].
  destruct (H twoInvoices (pageQuery "-1" "1") "-1"%string (-1)
              eq_refl eq_refl eq_refl) as [H1 [H2 _]].
  split; [exact H1 | exact H2].
Defined.

(** *** The order of the sorted records: equal keys *)

(** No value is less than itself. *)
Lemma JS_lt_irrefl (v : JS.value) : JS.lt v v = false.
Proof.
  destruct v as [|n|s|t]; cbn; try apply Z.ltb_irrefl; try reflexivity.
  unfold String.ltb.
  pose proof (String.compare_antisym s s) as E.
  destruct (String.compare s s); [reflexivity | discriminate E | reflexivity].
Qed.

(** Two records that hold the same value in the sort field: the
    comparator answers -1, in both directions. *)
Lemma compareInvoices_tie (sortBy sortOrder : string) (a b : Invoice) :
  getField sortBy a = getField sortBy b ->
  compareInvoices sortBy sortOrder a b = -1.
Proof.
  intros E. unfold compareInvoices. rewrite E.
  destruct (String.eqb sortBy "uploadDate");
    destruct (String.eqb sortOrder "asc"); unfold JS.gt;
    rewrite JS_lt_irrefl; reflexivity.
Qed.

(** Records that all hold the same value in the sort field (among them:
    a sort field the records do not have) come back in reversed order. *)
Lemma sort_ties_reversed (sortBy sortOrder : string) (l : list Invoice) :
  (forall a b, In a l -> In b l -> getField sortBy a = getField sortBy b) ->
  V8.sort (compareInvoices sortBy sortOrder) l = rev l.
Proof.
  intros H. apply sort_all_negative.
  intros a b Ha Hb. rewrite compareInvoices_tie by (apply H; assumption).
  lia.
Qed.

(** C1. The scenario of the claim: amounts 500, 100, 100, 900 sorted by
    amount.  The two records with amount 100 come out in the reverse of
    their upload order, ascending and descending: the sort of the engine
    is not stable. *)
Theorem C1_equal_amounts_are_reversed :
  map id (data (listInvoices fourAmounts (sortQuery "amount" "asc"))) =
    ["inv-3"; "inv-2"; "inv-1"; "inv-4"]%string /\
  map id (data (listInvoices fourAmounts (sortQuery "amount" "desc"))) =
    ["inv-4"; "inv-1"; "inv-3"; "inv-2"]%string.
Proof. split; vm_compute; reflexivity. Qed.

(** *** The order of the sorted records: pairwise distinct amounts *)

(** Two increasing arrangements of the same elements are the same. *)
Lemma increasing_perm_unique {A : Type} (key : A -> Z) (l1 : list A) :
  forall l2 : list A,
    increasing key l1 -> increasing key l2 -> Permutation l1 l2 -> l1 = l2.
Proof.
  induction l1 as [|x l1 IH]; intros l2 H1 H2 Hp.
  - apply Permutation_nil in Hp. auto.
  - destruct l2 as [|y l2];
      [apply Permutation_sym, Permutation_nil in Hp; discriminate|].
    destruct H1 as [Hx H1]. destruct H2 as [Hy H2].
    assert (E : x = y).
    { assert (Hxin : In x (y :: l2))
        by (apply (Permutation_in _ Hp); left; reflexivity).
      assert (Hyin : In y (x :: l1))
        by (apply (Permutation_in _ (Permutation_sym Hp)); left; reflexivity).
      destruct Hxin as [->|Hxin]; [reflexivity|].
      destruct Hyin as [->|Hyin]; [reflexivity|].
      specialize (Hx y Hyin). specialize (Hy x Hxin). lia. }
    subst y. f_equal. apply IH; try assumption.
    apply (Permutation_cons_inv Hp).
Qed.

(** A list with falling keys, reversed, has growing keys. *)
Lemma increasing_rev_opp {A : Type} (key : A -> Z) (l : list A) :
  increasing (fun x => - key x) l -> increasing key (rev l).
Proof.
  induction l as [|x l IH]; cbn [rev increasing]; [auto|].
  intros [Hx Hl]. rewrite increasing_app.
  split; [apply IH, Hl|]. split; [cbn; split; [intros y []|exact I]|].
  intros y z Hy [<-|[]]. apply in_rev in Hy. specialize (Hx y Hy).
  cbn in Hx. lia.
Qed.

Lemma compareInvoices_amount_asc (a b : Invoice) :
  amount a <> amount b ->
  (compareInvoices "amount" "asc" a b <? 0) = (amount a <? amount b).
Proof.
  intros Hne. unfold compareInvoices, getField. cbn.
  unfold JS.gt, JS.lt. cbn.
  destruct (amount b <? amount a) eqn:E1;
    destruct (amount a <? amount b) eqn:E2; try reflexivity;
    rewrite ?Z.ltb_lt, ?Z.ltb_ge in *; lia.
Qed.

Lemma compareInvoices_amount_desc (a b : Invoice) :
  amount a <> amount b ->
  (compareInvoices "amount" "desc" a b <? 0) = (- amount a <? - amount b).
Proof.
  intros Hne. unfold compareInvoices, getField. cbn.
  unfold JS.lt. cbn.
  destruct (amount a <? amount b) eqn:E1;
    destruct (- amount a <? - amount b) eqn:E2; try reflexivity;
    rewrite ?Z.ltb_lt, ?Z.ltb_ge in *; lia.
Qed.

(** Records with pairwise distinct amounts come out of the ascending sort
    with growing amounts. *)
Lemma sort_amount_asc_increasing (l : list Invoice) :
  distinctKeys amount l ->
  increasing amount (V8.sort (compareInvoices "amount" "asc") l).
Proof.
  intros Hd. apply ArrayTimSortImpl_sorted; [|exact Hd].
  intros a b. apply compareInvoices_amount_asc.
Qed.

Lemma distinctKeys_opp {A : Type} (key : A -> Z) (l : list A) :
  distinctKeys key l -> distinctKeys (fun x => - key x) l.
Proof.
  unfold distinctKeys. intros H.
  rewrite <- (map_map key Z.opp).
  apply NoDup_map_NoDup_ForallPairs; [|exact H].
  intros x y _ _ E. lia.
Qed.

(** Records with pairwise distinct amounts: the descending sort returns
    exactly the reverse of the ascending sort. *)
Lemma sort_amount_desc_is_reverse (l : list Invoice) :
  distinctKeys amount l ->
  V8.sort (compareInvoices "amount" "desc") l =
  rev (V8.sort (compareInvoices "amount" "asc") l).
Proof.
  intros Hd.
  assert (Hdesc : increasing (fun r => - amount r)
                    (V8.sort (compareInvoices "amount" "desc") l)).
  { apply ArrayTimSortImpl_sorted; [|apply distinctKeys_opp, Hd].
    intros a b Hne. apply compareInvoices_amount_desc. lia. }
  apply increasing_rev_opp in Hdesc.
  rewrite <- (rev_involutive (V8.sort (compareInvoices "amount" "desc") l)).
  f_equal.
  apply (increasing_perm_unique amount); [exact Hdesc | |].
  - apply sort_amount_asc_increasing, Hd.
  - rewrite <- Permutation_rev.
    rewrite (ArrayTimSortImpl_perm (compareInvoices "amount" "desc") l).
    symmetry. apply ArrayTimSortImpl_perm.
Qed.

(** *** The order of the sorted records: a sort field the records do not
    have *)

Section SortZero.

Context {A : Type}.
Variable Compare : A -> A -> Z.

Lemma run_extend_all_zero (l : list A) :
  forall p : A,
    (forall a b, In a (p :: l) -> In b (p :: l) -> Compare a b = 0) ->
    V8.run_extend Compare false p l = (l, []).
Proof.
  induction l as [|c l IH]; intros p H; cbn [V8.run_extend].
  - reflexivity.
  - rewrite (H c p) by (simpl; auto). change (0 <? 0) with false. cbv iota.
    rewrite IH; [reflexivity|].
    intros a b Ha Hb. apply H; right; assumption.
Qed.

(** A comparator that answers 0 on every pair leaves the array as it
    is: the whole array is one ascending run. *)
Lemma sort_all_zero (l : list A) :
  (forall a b, In a l -> In b l -> Compare a b = 0) ->
  V8.sort Compare l = l.
Proof.
  intros H. unfold V8.sort, V8.ArrayTimSortImpl.
  destruct l as [|x0 [|x1 l]]; try reflexivity.
  change (Datatypes.length (x0 :: x1 :: l) <? 2)%nat with false. cbv iota.
  change (Datatypes.length (x0 :: x1 :: l))
    with (S (Datatypes.length (x1 :: l))) at 1.
  cbn [V8.ArrayTimSortImpl_loop V8.CountAndMakeRun].
  rewrite (H x1 x0) by (simpl; auto). change (0 <? 0) with false. cbv iota.
  rewrite run_extend_all_zero
    by (intros a b Ha Hb; apply H; right; assumption).
  assert (Hlen : (Datatypes.length (x0 :: x1 :: l) <?
                  V8.ComputeMinRunLength (Datatypes.length (x0 :: x1 :: l)))%nat
                 = false).
  { apply Nat.ltb_ge. apply ComputeMinRunLength_le. }
  rewrite Hlen.
  cbn [Datatypes.length V8.MergeCollapse V8.ArrayTimSortImpl_loop].
  destruct (Datatypes.length (x1 :: l)) eqn:E; [discriminate E|].
  cbn [V8.ArrayTimSortImpl_loop Datatypes.length V8.MergeForceCollapse
       rev List.concat app].
  rewrite app_nil_r. reflexivity.
Qed.

End SortZero.

(** A name that is none of the field names reads [undefined] from every
    record. *)
Lemma getField_absent (sortBy : string) (r : Invoice) :
  absentKey sortBy -> getField sortBy r = JS.JUndefined.
Proof.
  unfold absentKey, fieldNames, getField. intros H.
  repeat match goal with
         | |- context [String.eqb sortBy ?s] =>
             destruct (String.eqb_spec sortBy s) as [->|?];
               [exfalso; apply H; simpl; tauto|]
         end.
  reflexivity.
Qed.

(** C2. What the code does with a sort field the records do not have.
    The comparator answers -1 on every pair of records, in both
    directions, and the sorted records are the filtered records in
    reverse store order: two records stored as inv-1, inv-2 and sorted by
    "priority" come back as inv-2, inv-1, ascending and descending, where
    the claim asks for no reordering.  The same sort with a comparator
    that answers 0 on such pairs (the equal case the comparator lacks)
    leaves the order as it is. *)
Theorem C2_absent_key_reverses_the_order :
  (forall (store : Store) (q : Query),
     absentKey (JS.stringOr (q_sortBy q) "uploadDate") ->
     (forall a b,
        compareInvoices (JS.stringOr (q_sortBy q) "uploadDate")
                        (JS.stringOr (q_sortOrder q) "desc") a b = -1) /\
     sortedInvoices store q = rev (passing store q)) /\
  map id (Map_values twoFiles) = ["inv-1"; "inv-2"]%string /\
  map id (data (listInvoices twoFiles (sortQuery "priority" "asc"))) =
    ["inv-2"; "inv-1"]%string /\
  map id (data (listInvoices twoFiles (sortQuery "priority" "desc"))) =
    ["inv-2"; "inv-1"]%string /\
  (forall (comparefn : Invoice -> Invoice -> Z) (l : list Invoice),
     (forall a b, In a l -> In b l -> comparefn a b = 0) ->
     V8.sort comparefn l = l).
Proof.
  split; [|repeat split; try reflexivity].
  - intros store q Habsent. split.
    + intros a b. apply compareInvoices_tie.
      rewrite !getField_absent by exact Habsent. reflexivity.
    + apply sort_ties_reversed. intros a b _ _.
      rewrite !getField_absent by exact Habsent. reflexivity.
  - intros comparefn l H. apply sort_all_zero. exact H.
Qed.

(** ** The store *)

Lemma Map_get_mutate_same (k : string) (f : Invoice -> Invoice) (m : Store)
    (v : Invoice) :
  Map_get k m = Some v -> Map_get k (Map_mutate k f m) = Some (f v).
Proof.
  induction m as [|[k0 v0] m IH]; simpl; [discriminate|].
  destruct (String.eqb k0 k) eqn:E; simpl; rewrite E.
  - intros [= ->]. reflexivity.
  - exact IH.
Qed.

Lemma Map_get_mutate_other (k k' : string) (f : Invoice -> Invoice)
    (m : Store) :
  k' <> k -> Map_get k' (Map_mutate k f m) = Map_get k' m.
Proof.
  intros Hne. induction m as [|[k0 v0] m IH]; simpl; [reflexivity|].
  destruct (String.eqb k0 k) eqn:E; simpl.
  - apply String.eqb_eq in E. subst k0.
    destruct (String.eqb k k') eqn:E'; [|reflexivity].
    apply String.eqb_eq in E'. congruence.
  - rewrite IH. reflexivity.
Qed.

Lemma Map_mutate_absent (k : string) (f : Invoice -> Invoice) (m : Store) :
  Map_get k m = None -> Map_mutate k f m = m.
Proof.
  induction m as [|[k0 v0] m IH]; simpl; [reflexivity|].
  destruct (String.eqb k0 k); [discriminate|].
  intros H. rewrite IH by exact H. reflexivity.
Qed.

Lemma Map_mutate_keys (k : string) (f : Invoice -> Invoice) (m : Store) :
  map fst (Map_mutate k f m) = map fst m.
Proof.
  induction m as [|[k0 v0] m IH]; simpl; [reflexivity|].
  destruct (String.eqb k0 k); simpl; congruence.
Qed.

Lemma Map_get_set_same (k : string) (v : Invoice) (m : Store) :
  Map_get k (Map_set k v m) = Some v.
Proof.
  induction m as [|[k0 v0] m IH]; simpl.
  - rewrite String.eqb_refl. reflexivity.
  - destruct (String.eqb k0 k) eqn:E; simpl; rewrite E; auto.
Qed.

Lemma Map_get_set_other (k k' : string) (v : Invoice) (m : Store) :
  k' <> k -> Map_get k' (Map_set k v m) = Map_get k' m.
Proof.
  intros Hne. induction m as [|[k0 v0] m IH]; simpl.
  - destruct (String.eqb k k') eqn:E; [|reflexivity].
    apply String.eqb_eq in E. congruence.
  - destruct (String.eqb k0 k) eqn:E; simpl.
    + apply String.eqb_eq in E. subst k0.
      destruct (String.eqb k k') eqn:E'; [|reflexivity].
      apply String.eqb_eq in E'. congruence.
    + rewrite IH. reflexivity.
Qed.

(** ** The status simulator *)

(** *** Start and Finish on one record *)

(** C9. When the identifier is not in the store, Start
    ([simulateProcessing]) and Finish (its callback) return without an
    error and change nothing: not the store, and no timer is set. *)
Theorem C9_absent_id_is_silent_noop :
  forall (s : Server) (invoiceId : string) (t : Z) (u : Q),
    Map_get invoiceId (invoices s) = None ->
    simulateProcessing invoiceId t u s = s /\
    finishProcessing invoiceId t u s = s.
Proof.
  intros s invoiceId t u H.
  unfold simulateProcessing, finishProcessing. rewrite H. auto.
Qed.

(** C9 on a store that holds inv-1 only, with the identifier inv-9. *)
Lemma C9_witness :
  simulateProcessing "inv-9" 2000 (1 # 2) afterUpload = afterUpload /\
  finishProcessing "inv-9" 2000 (1 # 2) afterUpload = afterUpload.
Proof.
  apply (C9_absent_id_is_silent_noop afterUpload "inv-9" 2000 (1 # 2)).
  reflexivity.
Defined.

(** The record after Start and then Finish. *)
Lemma start_then_finish (s : Server) (invoiceId : string) (t1 t2 : Z)
    (u1 u2 : Q) (r : Invoice) :
  Map_get invoiceId (invoices s) = Some r ->
  Map_get invoiceId
    (invoices (finishProcessing invoiceId t2 u2
                 (simulateProcessing invoiceId t1 u1 s))) =
  Some (finishFields (negb (Qle_bool (8 # 10) u2)) t2 (startFields t1 r)).
Proof.
  intros H.
  pose proof (Map_get_mutate_same invoiceId (startFields t1) _ _ H) as H1.
  unfold simulateProcessing. rewrite H.
  unfold finishProcessing. cbn [invoices timers]. rewrite H1.
  cbn [invoices]. apply Map_get_mutate_same. exact H1.
Qed.

(** C8. Finish on a record that is in the store: the record gets status
    Processed or Failed (Failed exactly when the draw is not below 0.8)
    and its processingEndTime, every other field keeps its value, and the
    other records, the order of the store and the timers are untouched.
    After Start at [t1] and Finish at [t] on the same record,
    processingStartTime is still [t1]. *)
Theorem C8_finish_frame :
  forall (s : Server) (invoiceId : string) (t : Z) (u : Q) (r : Invoice),
    Map_get invoiceId (invoices s) = Some r ->
    let isSuccess := negb (Qle_bool (8 # 10) u) in
    let outcome := if isSuccess then Processed else Failed in
    let s' := finishProcessing invoiceId t u s in
    Map_get invoiceId (invoices s') =
      Some (mkInvoice (id r) (fileName r) (fileSize r) (clientName r)
              (amount r) (uploadDate r) outcome (filePath r)
              (processingStartTime r) (Some t)) /\
    (forall other, other <> invoiceId ->
        Map_get other (invoices s') = Map_get other (invoices s)) /\
    map fst (invoices s') = map fst (invoices s) /\
    timers s' = timers s /\
    (~ (u < 8 # 10)%Q -> outcome = Failed) /\
    (forall t1 u1,
        Map_get invoiceId
          (invoices (finishProcessing invoiceId t u
                       (simulateProcessing invoiceId t1 u1 s))) =
        Some (mkInvoice (id r) (fileName r) (fileSize r) (clientName r)
                (amount r) (uploadDate r) outcome (filePath r)
                (Some t1) (Some t))).
Proof.
  intros s invoiceId t u r H isSuccess outcome s'.
  assert (Es' : s' = {| invoices :=
                         Map_mutate invoiceId (finishFields isSuccess t)
                           (invoices s);
                       timers := timers s |}).
  { subst s'. unfold finishProcessing. rewrite H. reflexivity. }
  rewrite Es'. cbn [invoices timers]. clear Es' s'.
  split; [|split; [|split; [|split; [|split]]]].
  - rewrite (Map_get_mutate_same _ _ _ _ H). reflexivity.
  - intros other Hne. apply Map_get_mutate_other. exact Hne.
  - apply Map_mutate_keys.
  - reflexivity.
  - intros Hn. subst outcome isSuccess.
    assert (E : Qle_bool (8 # 10) u = true)
      by (apply Qle_bool_iff, Qnot_lt_le; exact Hn).
    rewrite E. reflexivity.
  - intros t1 u1. rewrite (start_then_finish s invoiceId t1 t u1 u r H).
    reflexivity.
Qed.

(** The scenario of C8: Start at 2000, then Finish at 30000 with the draw
    0.9, which is the failure outcome. *)
Lemma C8_witness :
  Map_get "inv-1" (invoices (finishProcessing "inv-1" 30000 (9 # 10)
                               afterStart)) =
  Some (mkInvoice "inv-1" "jan.pdf" 2048 "Innovate Industries" 5100 1000
          Failed "uploads/1-jan.pdf" (Some 2000) (Some 30000)).
Proof.
  exact (proj1 (C8_finish_frame afterStart "inv-1" 30000 (9 # 10)
                  (mkInvoice "inv-1" "jan.pdf" 2048 "Innovate Industries"
                     5100 1000 Processing "uploads/1-jan.pdf" (Some 2000)
                     None)
                  eq_refl)).
Defined.

(** *** The status only moves forward *)

Lemma timer_has_record (s : Server) (t : Timer) :
  timersAgree s -> In t (timers s) -> statusOf s (timerId t) <> None.
Proof.
  intros [_ [HS HF]] Hin. destruct t as [i d|i d]; simpl.
  - rewrite (HS i d Hin). discriminate.
  - rewrite (HF i d Hin). discriminate.
Qed.

Lemma no_timer_for_absent (s : Server) (i : string) :
  timersAgree s -> Map_get i (invoices s) = None ->
  ~ In i (map timerId (timers s)).
Proof.
  intros Hagree Hnone Hin.
  apply in_map_iff in Hin. destruct Hin as [t [<- Hin]].
  apply (timer_has_record s t Hagree Hin).
  unfold statusOf. rewrite Hnone. reflexivity.
Qed.

Lemma NoDup_snoc {A : Type} (l : list A) (x : A) :
  NoDup l -> ~ In x l -> NoDup (l ++ [x]).
Proof.
  intros Hl Hx.
  apply (Permutation_NoDup (l := x :: l)).
  - apply Permutation_cons_append.
  - constructor; assumption.
Qed.

Lemma createInvoice_agree (s : Server) (file : UploadedFile) :
  timersAgree s -> Map_get (uuid file) (invoices s) = None ->
  timersAgree (createInvoice s file).
Proof.
  intros Hagree Hfresh.
  pose proof (no_timer_for_absent s _ Hagree Hfresh) as Hnot.
  destruct Hagree as [Hnd [HS HF]].
  unfold createInvoice, timersAgree, statusOf. cbn [id invoices timers].
  split; [|split].
  - rewrite map_app. apply NoDup_snoc; assumption.
  - intros i d Hin. apply in_app_or in Hin. destruct Hin as [Hin|Hin].
    + rewrite Map_get_set_other; [exact (HS i d Hin)|].
      intros ->. apply Hnot. apply in_map_iff.
      exists (StartTimer (uuid file) d). auto.
    + destruct Hin as [[= <- <-]|[]].
      rewrite Map_get_set_same. reflexivity.
  - intros i d Hin. apply in_app_or in Hin. destruct Hin as [Hin|Hin].
    + rewrite Map_get_set_other; [exact (HF i d Hin)|].
      intros ->. apply Hnot. apply in_map_iff.
      exists (FinishTimer (uuid file) d). auto.
    + destruct Hin as [[=]|[]].
Qed.

(** What one created record does to the records already there. *)
Lemma createInvoice_records (s : Server) (file : UploadedFile) (i : string) :
  Map_get (uuid file) (invoices s) = None ->
  (forall r, Map_get i (invoices s) = Some r ->
             Map_get i (invoices (createInvoice s file)) = Some r) /\
  (forall r', Map_get i (invoices s) = None ->
              Map_get i (invoices (createInvoice s file)) = Some r' ->
              status r' = Pending).
Proof.
  intros Hfresh. unfold createInvoice. cbn [id invoices].
  destruct (string_dec i (uuid file)) as [->|Hne].
  - split.
    + intros r Hr. congruence.
    + intros r' _. rewrite Map_get_set_same. intros [= <-]. reflexivity.
  - rewrite Map_get_set_other by exact Hne. split.
    + auto.
    + intros r' H1 H2. congruence.
Qed.

Lemma uploadInvoices_agree (files : list UploadedFile) :
  forall s,
    timersAgree s ->
    NoDup (map uuid files) ->
    (forall f, In f files -> Map_get (uuid f) (invoices s) = None) ->
    timersAgree (uploadInvoices files s) /\
    forall i,
      (forall r, Map_get i (invoices s) = Some r ->
                 Map_get i (invoices (uploadInvoices files s)) = Some r) /\
      (forall r', Map_get i (invoices s) = None ->
                  Map_get i (invoices (uploadInvoices files s)) = Some r' ->
                  status r' = Pending).
Proof.
  induction files as [|file files IH]; intros s Hagree Hnd Hfresh.
  - split; [exact Hagree|]. intros i. split; [auto|].
    simpl. intros r' H1 H2. congruence.
  - cbn [uploadInvoices fold_left].
    change (fold_left createInvoice files (createInvoice s file))
      with (uploadInvoices files (createInvoice s file)).
    inversion Hnd as [|x l Hnotin Hnd']; subst.
    assert (Hf : Map_get (uuid file) (invoices s) = None)
      by (apply Hfresh; left; reflexivity).
    destruct (IH (createInvoice s file)) as [Hagree' Hrec].
    + apply createInvoice_agree; assumption.
    + exact Hnd'.
    + intros f Hin. unfold createInvoice. cbn [id invoices].
      rewrite Map_get_set_other.
      * apply Hfresh. right. exact Hin.
      * intros E. apply Hnotin. rewrite <- E. apply in_map. exact Hin.
    + split; [exact Hagree'|]. intros i.
      destruct (createInvoice_records s file i Hf) as [Hold Hnew].
      destruct (Hrec i) as [Hold' Hnew']. split.
      * intros r Hr. apply Hold', Hold, Hr.
      * intros r' Hnone Hsome.
        destruct (Map_get i (invoices (createInvoice s file))) as [r1|] eqn:E.
        -- rewrite (Hold' r1 eq_refl) in Hsome. injection Hsome as <-.
           apply (Hnew r1 Hnone eq_refl).
        -- apply (Hnew' r' eq_refl Hsome).
Qed.

Lemma nth_error_removeNth {A : Type} (k : nat) (l : list A) (x : A) :
  nth_error l k = Some x ->
  l = firstn k l ++ x :: skipn (S k) l.
Proof.
  revert l. induction k as [|k IH]; intros [|y l]; simpl; try discriminate.
  - intros [= ->]. reflexivity.
  - intros H. f_equal. apply IH, H.
Qed.

Lemma fired_timer_unique (s : Server) (k : nat) (t : Timer) :
  NoDup (map timerId (timers s)) ->
  nth_error (timers s) k = Some t ->
  NoDup (map timerId (removeNth k (timers s))) /\
  ~ In (timerId t) (map timerId (removeNth k (timers s))) /\
  In t (timers s) /\
  (forall t', In t' (removeNth k (timers s)) -> In t' (timers s)).
Proof.
  intros Hnd Hk. unfold removeNth.
  pose proof (nth_error_removeNth k _ _ Hk) as E.
  rewrite E in Hnd. rewrite map_app in Hnd. cbn [map] in Hnd.
  split; [|split; [|split]].
  - rewrite map_app. eapply NoDup_remove_1. exact Hnd.
  - rewrite map_app. eapply NoDup_remove_2. exact Hnd.
  - rewrite E. apply in_elt.
  - intros t' Hin. rewrite E. apply in_app_or in Hin.
    apply in_or_app. destruct Hin; [left|right; right]; assumption.
Qed.

Lemma forward_refl (st : Status) : forward st st.
Proof. left. reflexivity. Qed.

Lemma fire_agree (s : Server) (k : nat) (t : Z) (u : Q) :
  timersAgree s ->
  timersAgree (fire k t u s) /\
  forall i,
    (forall r, Map_get i (invoices s) = Some r ->
               exists r', Map_get i (invoices (fire k t u s)) = Some r' /\
                          forward (status r) (status r')) /\
    (Map_get i (invoices s) = None ->
     Map_get i (invoices (fire k t u s)) = None).
Proof.
  intros Hagree. unfold fire.
  destruct (nth_error (timers s) k) as [timer|] eqn:Hk.
  2:{ split; [exact Hagree|]. intros i. split; [|auto].
      intros r Hr. exists r. split; [exact Hr | apply forward_refl]. }
  destruct Hagree as [Hnd [HS HF]].
  destruct (fired_timer_unique s k timer Hnd Hk) as [Hnd' [Hnot [Hin Hsub]]].
  set (rest := removeNth k (timers s)) in *.
  destruct timer as [i0 d|i0 d]; cbn [timerId] in Hnot.
  - (* Start *)
    pose proof (HS i0 d Hin) as Hst. unfold statusOf in Hst.
    destruct (Map_get i0 (invoices s)) as [r0|] eqn:Hr0; [|discriminate].
    injection Hst as Hst.
    unfold simulateProcessing. cbn [invoices timers]. rewrite Hr0.
    split.
    + unfold timersAgree, statusOf. cbn [invoices timers].
      split; [|split].
      * rewrite map_app. apply NoDup_snoc; assumption.
      * intros i d' Hi. apply in_app_or in Hi.
        destruct Hi as [Hi|[[=]|[]]].
        rewrite Map_get_mutate_other; [exact (HS i d' (Hsub _ Hi))|].
        intros ->. apply Hnot. apply in_map_iff.
        exists (StartTimer i0 d'). auto.
      * intros i d' Hi. apply in_app_or in Hi.
        destruct Hi as [Hi|[[= <- <-]|[]]].
        -- rewrite Map_get_mutate_other; [exact (HF i d' (Hsub _ Hi))|].
           intros ->. apply Hnot. apply in_map_iff.
           exists (FinishTimer i0 d'). auto.
        -- rewrite (Map_get_mutate_same _ _ _ _ Hr0). reflexivity.
    + intros i. cbn [invoices].
      destruct (string_dec i i0) as [->|Hne].
      * split; [|congruence].
        intros r Hr. rewrite Hr0 in Hr. injection Hr as <-.
        exists (startFields t r0).
        rewrite (Map_get_mutate_same _ _ _ _ Hr0).
        split; [reflexivity|]. right. left. auto.
      * rewrite Map_get_mutate_other by exact Hne. split; [|auto].
        intros r Hr. exists r. split; [exact Hr | apply forward_refl].
  - (* Finish *)
    pose proof (HF i0 d Hin) as Hst. unfold statusOf in Hst.
    destruct (Map_get i0 (invoices s)) as [r0|] eqn:Hr0; [|discriminate].
    injection Hst as Hst.
    unfold finishProcessing. cbn [invoices timers]. rewrite Hr0.
    split.
    + unfold timersAgree, statusOf. cbn [invoices timers].
      split; [exact Hnd'|split].
      * intros i d' Hi.
        rewrite Map_get_mutate_other; [exact (HS i d' (Hsub _ Hi))|].
        intros ->. apply Hnot. apply in_map_iff.
        exists (StartTimer i0 d'). auto.
      * intros i d' Hi.
        rewrite Map_get_mutate_other; [exact (HF i d' (Hsub _ Hi))|].
        intros ->. apply Hnot. apply in_map_iff.
        exists (FinishTimer i0 d'). auto.
    + intros i. cbn [invoices].
      destruct (string_dec i i0) as [->|Hne].
      * split; [|congruence].
        intros r Hr. rewrite Hr0 in Hr. injection Hr as <-.
        eexists. rewrite (Map_get_mutate_same _ _ _ _ Hr0).
        split; [reflexivity|]. right. right. split; [exact Hst|].
        cbn. destruct (negb _); auto.
      * rewrite Map_get_mutate_other by exact Hne. split; [|auto].
        intros r Hr. exists r. split; [exact Hr | apply forward_refl].
Qed.

(** The timers agree with the records in every reachable state. *)
Lemma reachable_agree (s : Server) : reachable s -> timersAgree s.
Proof.
  induction 1 as [|s e Hreach IH Hfresh].
  - unfold timersAgree, initialServer. cbn.
    split; [constructor|]. split; intros i d [].
  - destruct e as [files|k t u]; cbn [step].
    + destruct Hfresh as [Hnd Hf].
      apply (uploadInvoices_agree files s IH Hnd Hf).
    + apply (fire_agree s k t u IH).
Qed.

(** C3. In every state the process can reach, whatever happens next (an
    upload, or any pending Start or Finish firing), every record is still
    there and its status has stayed or moved one step along
    Pending -> Processing -> Processed/Failed: a record in a terminal
    state keeps its status, a record that becomes terminal was Processing,
    and a record that appears is Pending. *)
Theorem C3_status_moves_forward :
  forall (s : Server) (e : Event),
    reachable s -> freshIds s e ->
    forall i : string,
      (forall r, Map_get i (invoices s) = Some r ->
         exists r', Map_get i (invoices (step s e)) = Some r' /\
                    forward (status r) (status r') /\
                    (terminal (status r) -> status r' = status r) /\
                    (terminal (status r') -> ~ terminal (status r) ->
                     status r = Processing)) /\
      (forall r', Map_get i (invoices s) = None ->
                  Map_get i (invoices (step s e)) = Some r' ->
                  status r' = Pending).
Proof.
  intros s e Hreach Hfresh i.
  pose proof (reachable_agree s Hreach) as Hagree.
  assert (Hfw : forall st st', forward st st' ->
            (terminal st -> st' = st) /\
            (terminal st' -> ~ terminal st -> st = Processing)).
  { unfold forward, terminal. intros st st' H.
    destruct st, st'; intuition congruence. }
  destruct e as [files|k t u]; cbn [step].
  - destruct Hfresh as [Hnd Hf].
    destruct (uploadInvoices_agree files s Hagree Hnd Hf) as [_ Hrec].
    destruct (Hrec i) as [Hold Hnew]. split; [|exact Hnew].
    intros r Hr. exists r. split; [apply Hold, Hr|].
    split; [apply forward_refl|]. apply Hfw, forward_refl.
  - destruct (fire_agree s k t u Hagree) as [_ Hrec].
    destruct (Hrec i) as [Hold Hnew]. split.
    + intros r Hr. destruct (Hold r Hr) as [r' [Hr' Hf]].
      exists r'. split; [exact Hr'|]. split; [exact Hf|]. apply Hfw, Hf.
    + intros r' Hnone Hsome. rewrite (Hnew Hnone) in Hsome. discriminate.
Qed.

(** One upload of one file with a fresh identifier is a run of the
    process. *)
Lemma reachable_afterUpload : reachable afterUpload.
Proof.
  apply reachable_step; [apply reachable_init|].
  split.
  - repeat constructor. simpl. tauto.
  - intros f _. reflexivity.
Qed.

(** C3 on the state after one upload, when the Start timer fires. *)
Lemma C3_witness :
  exists r',
    Map_get "inv-1" (invoices afterStart) = Some r' /\
    forward Pending (status r').
Proof.
  destruct (C3_status_moves_forward afterUpload (EFire 0 2000 (1 # 4))
              reachable_afterUpload I "inv-1"%string) as [H _].
  destruct (H _ eq_refl) as [r' [H1 [H2 _]]].
  exists r'. split; [exact H1 | exact H2].
Defined.

(* ================================================================== *)
(** ** The helper functions *)
(* ================================================================== *)

(** [Math.floor(Math.random() * k)] is one of 0, ..., k - 1. *)
Lemma Qfloor_scaled (u : Q) (k : Z) :
  unitInterval u -> 0 < k -> 0 <= Qfloor (u * inject_Z k) < k.
Proof.
  intros [H0 H1] Hk. split.
  - rewrite <- (Qfloor_Z 0) at 1.
    apply Qfloor_resp_le.
    apply Qmult_le_0_compat; [exact H0|].
    change 0%Q with (inject_Z 0). rewrite <- Zle_Qle. lia.
  - apply Z.lt_nge. intros Hge.
    assert (inject_Z k <= u * inject_Z k)%Q as Hle.
    { eapply Qle_trans; [|apply Qfloor_le]. rewrite <- Zle_Qle. exact Hge. }
    assert (u * inject_Z k < 1 * inject_Z k)%Q as Hlt.
    { apply Qmult_lt_compat_r; [|exact H1].
      change 0%Q with (inject_Z 0). rewrite <- Zlt_Qlt. lia. }
    rewrite Qmult_1_l in Hlt.
    exact (Qlt_irrefl _ (Qle_lt_trans _ _ _ Hle Hlt)).
Qed.

Lemma generateMockAmount_bounds (u : Q) :
  unitInterval u -> 100 <= generateMockAmount u <= 10099.
Proof.
  intros Hu. unfold generateMockAmount.
  pose proof (Qfloor_scaled u 10000 Hu ltac:(lia)) as H.
  change (inject_Z 10000) with 10000%Q in H. lia.
Qed.

Lemma getRandomClient_member (u : Q) :
  unitInterval u -> In (getRandomClient u) mockClients.
Proof.
  intros Hu. unfold getRandomClient.
  apply nth_In.
  pose proof (Qfloor_scaled u (Z.of_nat (List.length mockClients)) Hu
                ltac:(cbn; lia)) as H.
  lia.
Qed.

Lemma unitInterval_half : unitInterval (1 # 2).
Proof. split; [discriminate | reflexivity]. Qed.

(** X1. [generateMockAmount] returns an amount between 100 and 10099
    (cents) for every value [Math.random()] can return, and both bounds
    are reached: the largest amount is 100.99 dollars, not the 100.00 of
    the comment beside the function. *)
Theorem X1_generateMockAmount_range :
  (forall u : Q, unitInterval u -> 100 <= generateMockAmount u <= 10099) /\
  (exists u, unitInterval u /\ generateMockAmount u = 100) /\
  (exists u, unitInterval u /\ generateMockAmount u = 10099).
Proof.
  split; [exact generateMockAmount_bounds|]. split.
  - exists 0%Q. split; [split; [discriminate | reflexivity] | reflexivity].
  - exists (9999 # 10000).
    split; [split; [discriminate | reflexivity] | reflexivity].
Qed.

(** X2. [getRandomClient] always returns a name of the [mockClients]
    roster (never [undefined]), and every name of the roster can be
    drawn. *)
Theorem X2_getRandomClient_from_roster :
  forall u : Q, unitInterval u ->
    In (getRandomClient u) mockClients /\
    (forall c, In c mockClients ->
       exists u', unitInterval u' /\ getRandomClient u' = c).
Proof.
  intros u Hu. split; [exact (getRandomClient_member u Hu)|].
  intros c Hc.
  destruct (In_nth _ _ EmptyString Hc) as [n [Hn Hnth]].
  exists (Z.of_nat n # 10). split.
  - cbn in Hn. split.
    + unfold Qle; cbn. lia.
    + unfold Qlt; cbn. lia.
  - unfold getRandomClient. rewrite <- Hnth. f_equal.
    cbn in Hn. do 10 (destruct n as [|n]; [reflexivity|]). lia.
Qed.

Lemma X2_witness :
  In (getRandomClient (1 # 2)) mockClients /\
  (forall c, In c mockClients ->
     exists u', unitInterval u' /\ getRandomClient u' = c).
Proof.
  exact (X2_getRandomClient_from_roster (1 # 2) unitInterval_half).
Defined.

(* ================================================================== *)
(** ** The store, the upload handler and the timers *)
(* ================================================================== *)

(** *** The store *)

(** [set] on a key the map does not have puts the entry last. *)
Lemma Map_set_absent (k : string) (v : Invoice) (m : Store) :
  Map_get k m = None -> Map_set k v m = m ++ [(k, v)].
Proof.
  induction m as [|[k0 v0] m IH]; cbn; [reflexivity|].
  destruct (String.eqb k0 k); [discriminate|].
  intros H. rewrite (IH H). reflexivity.
Qed.

(** [get] on two stores one after the other reads the first one first. *)
Lemma Map_get_app (k : string) (m1 m2 : Store) :
  Map_get k (m1 ++ m2) =
  match Map_get k m1 with
  | Some v => Some v
  | None => Map_get k m2
  end.
Proof.
  induction m1 as [|[k0 v0] m1 IH]; cbn; [reflexivity|].
  destruct (String.eqb k0 k); [reflexivity | exact IH].
Qed.

(** What [get] reads after the record under [k] has been changed in place. *)
Lemma Map_get_mutate (k i : string) (f : Invoice -> Invoice) (m : Store) :
  Map_get i (Map_mutate k f m) =
  if String.eqb k i then option_map f (Map_get i m) else Map_get i m.
Proof.
  destruct (String.eqb_spec k i) as [->|Hne].
  - destruct (Map_get i m) as [v|] eqn:E.
    + apply Map_get_mutate_same. exact E.
    + rewrite (Map_mutate_absent _ _ _ E). exact E.
  - apply Map_get_mutate_other. congruence.
Qed.

(** What [get] returns is an entry of the store. *)
Lemma Map_get_In (k : string) (m : Store) (v : Invoice) :
  Map_get k m = Some v -> In (k, v) m.
Proof.
  induction m as [|[k0 v0] m IH]; cbn; [discriminate|].
  destruct (String.eqb_spec k0 k) as [->|Hne].
  - intros [= ->]. left. reflexivity.
  - intros H. right. exact (IH H).
Qed.

(** [get] returns nothing exactly for the keys the store does not have. *)
Lemma Map_get_None (k : string) (m : Store) :
  Map_get k m = None <-> ~ In k (map fst m).
Proof.
  induction m as [|[k0 v0] m IH]; cbn; [tauto|].
  destruct (String.eqb_spec k0 k) as [->|Hne].
  - split; [discriminate|]. intros H. exfalso. apply H. left. reflexivity.
  - rewrite IH. tauto.
Qed.

(** When no key occurs twice, every entry is what [get] returns for its key. *)
Lemma In_Map_get (k : string) (m : Store) (v : Invoice) :
  NoDup (map fst m) -> In (k, v) m -> Map_get k m = Some v.
Proof.
  induction m as [|[k0 v0] m IH]; cbn; [contradiction|].
  intros Hnd [H|H].
  - injection H as -> ->. rewrite String.eqb_refl. reflexivity.
  - inversion Hnd as [|? ? Hnot Hnd']; subst.
    destruct (String.eqb_spec k0 k) as [->|Hne].
    + exfalso. apply Hnot. apply in_map_iff. exists (k, v). auto.
    + exact (IH Hnd' H).
Qed.

(** *** The upload handler *)

Lemma newEntries_get_absent (files : list UploadedFile) (i : string) :
  ~ In i (map uuid files) -> Map_get i (newEntries files) = None.
Proof.
  intros H. apply Map_get_None. unfold newEntries.
  rewrite map_map. exact H.
Qed.

Lemma newEntries_get (files : list UploadedFile) (f : UploadedFile) :
  NoDup (map uuid files) -> In f files ->
  Map_get (uuid f) (newEntries files) = Some (newInvoice f).
Proof.
  intros Hnd Hin. apply In_Map_get.
  - unfold newEntries. rewrite map_map. exact Hnd.
  - unfold newEntries. apply in_map_iff. exists f. auto.
Qed.

(** An upload with new identifiers appends its entries and its timers. *)
Lemma uploadInvoices_fresh (files : list UploadedFile) :
  forall s,
    freshIds s (EUpload files) ->
    uploadInvoices files s =
    {| invoices := invoices s ++ newEntries files;
       timers := timers s ++ newTimers files |}.
Proof.
  unfold uploadInvoices, newEntries, newTimers.
  induction files as [|f files IH]; intros s [Hnd Hf]; cbn [fold_left map].
  - rewrite !app_nil_r. destruct s; reflexivity.
  - inversion Hnd as [|? ? Hnot Hnd']; subst.
    rewrite IH.
    + unfold createInvoice. cbn [invoices timers id].
      rewrite Map_set_absent by (apply Hf; left; reflexivity).
      rewrite <- !app_assoc. reflexivity.
    + split; [exact Hnd'|].
      intros g Hg. unfold createInvoice. cbn [invoices id].
      rewrite Map_get_set_other.
      * apply Hf. right. exact Hg.
      * intros E. apply Hnot. rewrite <- E. apply in_map. exact Hg.
Qed.

(** What [get] reads after an upload with new identifiers. *)
Lemma uploadInvoices_get (files : list UploadedFile) (s : Server)
    (i : string) :
  freshIds s (EUpload files) ->
  Map_get i (invoices (uploadInvoices files s)) =
  match Map_get i (invoices s) with
  | Some r => Some r
  | None => Map_get i (newEntries files)
  end.
Proof.
  intros Hfresh. rewrite (uploadInvoices_fresh files s Hfresh).
  cbn [invoices]. apply Map_get_app.
Qed.

(** *** One timer fires *)

(** The three things a firing timer can do when the timers agree with the
    records. *)
Lemma fire_cases (s : Server) (k : nat) (t : Z) (u : Q) :
  timersAgree s -> fired s k t u.
Proof.
  intros [Hnd [HS HF]].
  destruct (nth_error (timers s) k) as [timer|] eqn:Hk.
  2:{ apply fired_none; [exact Hk|]. unfold fire. rewrite Hk. reflexivity. }
  pose proof (nth_error_In _ _ Hk) as Hin.
  destruct timer as [i d|i d].
  - pose proof (HS i d Hin) as Hst. unfold statusOf in Hst.
    destruct (Map_get i (invoices s)) as [r|] eqn:Hr; [|discriminate].
    injection Hst as Hst.
    apply (fired_start s k t u i d r Hk Hr Hst).
    unfold fire. rewrite Hk. unfold simulateProcessing. cbn [invoices timers].
    rewrite Hr. reflexivity.
  - pose proof (HF i d Hin) as Hst. unfold statusOf in Hst.
    destruct (Map_get i (invoices s)) as [r|] eqn:Hr; [|discriminate].
    injection Hst as Hst.
    apply (fired_finish s k t u i d r Hk Hr Hst).
    unfold fire. rewrite Hk. unfold finishProcessing. cbn [invoices timers].
    rewrite Hr. reflexivity.
Qed.

Lemma In_newEntries_get (files : list UploadedFile) (i : string)
    (r : Invoice) :
  Map_get i (newEntries files) = Some r ->
  exists f, In f files /\ uuid f = i /\ r = newInvoice f.
Proof.
  intros H. apply Map_get_In in H. unfold newEntries in H.
  apply in_map_iff in H. destruct H as [f [[= <- <-] Hf]].
  exists f. auto.
Qed.

(** The five things one event can do to the record under an identifier. *)
Lemma step_moved (s : Server) (e : Event) (i : string) :
  timersAgree s -> freshIds s e -> moved s e i.
Proof.
  intros Hagree Hfresh. destruct e as [files|k t u].
  - pose proof (uploadInvoices_get files s i Hfresh) as Hget.
    destruct (Map_get i (invoices s)) as [r|] eqn:Hr.
    + apply (moved_kept s (EUpload files) i r Hr). exact Hget.
    + destruct (Map_get i (newEntries files)) as [r'|] eqn:Hn.
      * destruct (In_newEntries_get _ _ _ Hn) as [f [Hf [Hi ->]]].
        apply (moved_created s (EUpload files) i f Hr Hget Hi).
        exists files. auto.
      * apply (moved_absent s (EUpload files) i); assumption.
  - destruct (fire_cases s k t u Hagree)
      as [Hk E|j d r Hk Hr Hst E|j d r Hk Hr Hst E].
    + destruct (Map_get i (invoices s)) as [r|] eqn:Hr.
      * apply (moved_kept s (EFire k t u) i r Hr).
        cbn [step]. rewrite E. exact Hr.
      * apply (moved_absent s (EFire k t u) i); [exact Hr|].
        cbn [step]. rewrite E. exact Hr.
    + destruct (String.eqb_spec j i) as [->|Hne].
      * apply (moved_started s (EFire k t u) i r t Hr Hst);
          [|exists k, u; reflexivity].
        cbn [step]. rewrite E.
        cbn [invoices]. apply Map_get_mutate_same. exact Hr.
      * destruct (Map_get i (invoices s)) as [r'|] eqn:Hr'.
        -- apply (moved_kept s (EFire k t u) i r' Hr'). cbn [step].
           rewrite E. cbn [invoices].
           rewrite Map_get_mutate_other by congruence. exact Hr'.
        -- apply (moved_absent s (EFire k t u) i); [exact Hr'|]. cbn [step].
           rewrite E. cbn [invoices].
           rewrite Map_get_mutate_other by congruence. exact Hr'.
    + destruct (String.eqb_spec j i) as [->|Hne].
      * apply (moved_finished s (EFire k t u) i r t
                 (negb (Qle_bool (8 # 10) u)) Hr Hst);
          [|exists k, u; reflexivity].
        cbn [step]. rewrite E.
        cbn [invoices]. apply Map_get_mutate_same. exact Hr.
      * destruct (Map_get i (invoices s)) as [r'|] eqn:Hr'.
        -- apply (moved_kept s (EFire k t u) i r' Hr'). cbn [step].
           rewrite E. cbn [invoices].
           rewrite Map_get_mutate_other by congruence. exact Hr'.
        -- apply (moved_absent s (EFire k t u) i); [exact Hr'|]. cbn [step].
           rewrite E. cbn [invoices].
           rewrite Map_get_mutate_other by congruence. exact Hr'.
Qed.

(** *** Invariants of the reachable states *)

Lemma startFields_persistent (t : Z) (r : Invoice) :
  persistent r (startFields t r).
Proof. repeat split. Qed.

Lemma finishFields_persistent (b : bool) (t : Z) (r : Invoice) :
  persistent r (finishFields b t r).
Proof. repeat split. Qed.

Lemma persistent_refl (r : Invoice) : persistent r r.
Proof. repeat split. Qed.

(** No event makes a key occur twice. *)
Lemma step_keys (s : Server) (e : Event) :
  timersAgree s -> freshIds s e ->
  NoDup (map fst (invoices s)) -> NoDup (map fst (invoices (step s e))).
Proof.
  intros Hagree Hfresh Hnd. destruct e as [files|k t u]; cbn [step].
  - rewrite (uploadInvoices_fresh files s Hfresh). cbn [invoices].
    rewrite map_app. unfold newEntries. rewrite map_map. cbn [fst].
    destruct Hfresh as [Hnd' Hf].
    apply NoDup_app; [exact Hnd | exact Hnd'|].
    intros x Hx Hx'. apply in_map_iff in Hx'. destruct Hx' as [f [<- Hin]].
    apply (proj1 (Map_get_None _ _) (Hf f Hin)). exact Hx.
  - destruct (fire_cases s k t u Hagree) as [_ E|? ? ? _ _ _ E|? ? ? _ _ _ E];
      rewrite E; cbn [invoices]; rewrite ?Map_mutate_keys; exact Hnd.
Qed.

(** Every reachable store is keyed. *)
Lemma reachable_keyed (s : Server) : reachable s -> keyed (invoices s).
Proof.
  induction 1 as [|s e Hreach [IHnd IHid] Hfresh].
  - split; [constructor|]. intros k r H. discriminate H.
  - pose proof (reachable_agree s Hreach) as Hagree. split.
    + apply step_keys; assumption.
    + intros k r Hr.
      destruct (step_moved s e k Hagree Hfresh)
        as [f H0 H1 Hi _|H0 H1|r0 H0 H1|r0 t H0 Hst H1 _|r0 t b H0 Hst H1 _];
        rewrite H1 in Hr; try discriminate; injection Hr as <-.
      * exact Hi.
      * exact (IHid k r0 H0).
      * exact (IHid k r0 H0).
      * exact (IHid k r0 H0).
Qed.

(** In a keyed store the ids of the records are the keys, in order. *)
Lemma keyed_ids (m : Store) : keyed m -> map id (Map_values m) = map fst m.
Proof.
  intros [Hnd Hid]. unfold Map_values. rewrite map_map.
  apply map_ext_in. intros [k r] Hin. cbn.
  apply Hid. apply In_Map_get; assumption.
Qed.

(** The time stamps agree with the status in every reachable state. *)
Lemma reachable_stamps (s : Server) :
  reachable s ->
  forall i r, Map_get i (invoices s) = Some r -> stampsAgree r.
Proof.
  induction 1 as [|s e Hreach IH Hfresh]; intros i r Hr.
  - discriminate Hr.
  - pose proof (reachable_agree s Hreach) as Hagree.
    destruct (step_moved s e i Hagree Hfresh)
      as [f H0 H1 Hi _|H0 H1|r0 H0 H1|r0 t H0 Hst H1 _|r0 t b H0 Hst H1 _];
      rewrite H1 in Hr; try discriminate; injection Hr as <-.
    + split; reflexivity.
    + exact (IH i r0 H0).
    + pose proof (IH i r0 H0) as Hs. unfold stampsAgree in *.
      rewrite Hst in Hs. cbn. split; [discriminate | apply Hs].
    + pose proof (IH i r0 H0) as Hs. unfold stampsAgree in *.
      rewrite Hst in Hs. cbn.
      destruct b; (split; [apply Hs | discriminate]).
Qed.

(** Removing the [k]-th element removes nothing else. *)
Lemma In_removeNth {A : Type} (k : nat) (l : list A) (x y : A) :
  nth_error l k = Some x -> In y l -> y <> x -> In y (removeNth k l).
Proof.
  intros Hk Hy Hne. unfold removeNth.
  rewrite (nth_error_removeNth k l x Hk) in Hy.
  apply in_app_or in Hy. apply in_or_app.
  destruct Hy as [Hy|[Hy|Hy]]; [left; exact Hy | congruence | right; exact Hy].
Qed.

(** The timers cover the open records in every reachable state. *)
Lemma reachable_cover (s : Server) : reachable s -> timersCover s.
Proof.
  induction 1 as [|s e Hreach IH Hfresh]; intros i r Hr.
  - discriminate Hr.
  - pose proof (reachable_agree s Hreach) as Hagree.
    destruct e as [files|k t u]; cbn [step] in *.
    + pose proof (uploadInvoices_get files s i Hfresh) as Hget.
      rewrite (uploadInvoices_fresh files s Hfresh). cbn [timers].
      rewrite Hr in Hget.
      destruct (Map_get i (invoices s)) as [r0|] eqn:H0.
      * injection Hget as ->. destruct (IH i r0 H0) as [HP HQ].
        split; intros Hst;
          [destruct (HP Hst) as [d Hd] | destruct (HQ Hst) as [d Hd]];
          exists d; apply in_or_app; left; exact Hd.
      * symmetry in Hget.
        destruct (In_newEntries_get _ _ _ Hget) as [f [Hf [Hi ->]]].
        split; [|discriminate]. intros _. exists 1000.
        apply in_or_app. right. unfold newTimers. apply in_map_iff.
        exists f. split; [congruence | exact Hf].
    + destruct (fire_cases s k t u Hagree)
        as [Hk E|j d r0 Hk H0 Hst E|j d r0 Hk H0 Hst E];
        rewrite E in *; cbn [invoices timers] in *.
      * exact (IH i r Hr).
      * rewrite Map_get_mutate in Hr.
        destruct (String.eqb_spec j i) as [Eji|Hne].
        -- subst i. rewrite H0 in Hr. injection Hr as <-. cbn.
           split; [discriminate|]. intros _. eexists.
           apply in_or_app. right. left. reflexivity.
        -- destruct (IH i r Hr) as [HP HQ].
           split; intros Hs;
             [destruct (HP Hs) as [d' Hd] | destruct (HQ Hs) as [d' Hd]];
             exists d'; apply in_or_app; left;
             apply (In_removeNth k _ _ _ Hk Hd); congruence.
      * rewrite Map_get_mutate in Hr.
        destruct (String.eqb_spec j i) as [Eji|Hne].
        -- subst i. rewrite H0 in Hr. injection Hr as <-. cbn.
           destruct (negb _); split; discriminate.
        -- destruct (IH i r Hr) as [HP HQ].
           split; intros Hs;
             [destruct (HP Hs) as [d' Hd] | destruct (HQ Hs) as [d' Hd]];
             exists d';
             apply (In_removeNth k _ _ _ Hk Hd); congruence.
Qed.

(** Every pending Start has the delay the upload handler gave it. *)
Lemma reachable_start_delay (s : Server) :
  reachable s -> forall i d, In (StartTimer i d) (timers s) -> d = 1000.
Proof.
  induction 1 as [|s e Hreach IH Hfresh]; intros i d Hin.
  - destruct Hin.
  - pose proof (reachable_agree s Hreach) as Hagree.
    destruct e as [files|k t u]; cbn [step] in *.
    + rewrite (uploadInvoices_fresh files s Hfresh) in Hin. cbn [timers] in Hin.
      apply in_app_or in Hin. destruct Hin as [Hin|Hin]; [exact (IH i d Hin)|].
      unfold newTimers in Hin. apply in_map_iff in Hin.
      destruct Hin as [f [[= _ <-] _]]. reflexivity.
    + destruct (fire_cases s k t u Hagree)
        as [Hk E|j d0 r0 Hk H0 Hst E|j d0 r0 Hk H0 Hst E];
        rewrite E in *; cbn [invoices timers] in *.
      * exact (IH i d Hin).
      * apply in_app_or in Hin. destruct Hin as [Hin|[[=]|[]]].
        apply (IH i d).
        destruct (fired_timer_unique s k _ (proj1 Hagree) Hk)
          as [_ [_ [_ Hsub]]].
        exact (Hsub _ Hin).
      * apply (IH i d).
        destruct (fired_timer_unique s k _ (proj1 Hagree) Hk)
          as [_ [_ [_ Hsub]]].
        exact (Hsub _ Hin).
Qed.

Lemma reachable_afterStart : reachable afterStart.
Proof.
  apply (reachable_step afterUpload (EFire 0 2000 (1 # 4))).
  - exact reachable_afterUpload.
  - exact I.
Qed.

(** X3. Whatever happens (an upload whose draws are values of
    [Math.random()], or a timer firing), if every record of the store had
    an amount between 100 and 10099 and a client of the roster, every
    record still has: records are created that way and neither field is
    written again. *)
Theorem X3_records_keep_drawn_ranges :
  forall (s : Server) (e : Event),
    reachable s -> freshIds s e -> validDraws e ->
    (forall i r, Map_get i (invoices s) = Some r -> wellDrawn r) ->
    forall i r, Map_get i (invoices (step s e)) = Some r -> wellDrawn r.
Proof.
  intros s e Hreach Hfresh Hdraws Hs i r Hr.
  pose proof (reachable_agree s Hreach) as Hagree.
  destruct (step_moved s e i Hagree Hfresh)
    as [f H0 H1 Hi [files [-> Hf]]|H0 H1|r0 H0 H1
       |r0 t H0 Hst H1 _|r0 t b H0 Hst H1 _];
    rewrite H1 in Hr; try discriminate; injection Hr as <-.
  - destruct (Hdraws f Hf) as [Hc Ha]. split; cbn.
    + apply generateMockAmount_bounds. exact Ha.
    + apply getRandomClient_member. exact Hc.
  - exact (Hs i r0 H0).
  - exact (Hs i r0 H0).
  - exact (Hs i r0 H0).
Qed.

Lemma X3_witness :
  wellDrawn (newInvoice sampleFile).
Proof.
  apply (X3_records_keep_drawn_ranges initialServer (EUpload [sampleFile])
           reachable_init) with (i := "inv-1"%string).
  - split; [repeat constructor; intros [] | intros f _; reflexivity].
  - intros f [<-|[]]. repeat split; discriminate || reflexivity.
  - intros i r H. discriminate H.
  - reflexivity.
Defined.

(** X4. In every reachable state a pending Start has the delay 1000 ms
    the upload handler gave it; when it fires, its record is there and
    Pending, the record is marked by [startFields], and the Start is
    replaced by one Finish for the same record whose delay is between
    15000 and 44999 ms. *)
Theorem X4_start_timer_schedules_finish :
  forall (s : Server) (k : nat) (t : Z) (u : Q) (i : string) (d : Z),
    reachable s ->
    nth_error (timers s) k = Some (StartTimer i d) ->
    unitInterval u ->
    d = 1000 /\
    exists (r : Invoice) (d' : Z),
      Map_get i (invoices s) = Some r /\
      status r = Pending /\
      15000 <= d' <= 44999 /\
      fire k t u s =
        {| invoices := Map_mutate i (startFields t) (invoices s);
           timers := removeNth k (timers s) ++ [FinishTimer i d'] |}.
Proof.
  intros s k t u i d Hreach Hk Hu.
  pose proof (reachable_agree s Hreach) as Hagree.
  split.
  - apply (reachable_start_delay s Hreach i). exact (nth_error_In _ _ Hk).
  - destruct (fire_cases s k t u Hagree)
      as [Hk' E|j d0 r Hk' Hr Hst E|j d0 r Hk' Hr Hst E];
      rewrite Hk in Hk'; try discriminate.
    injection Hk' as <- <-.
    exists r, (Qfloor (u * 30000) + 15000).
    repeat split; try assumption.
    + pose proof (Qfloor_scaled u 30000 Hu ltac:(lia)) as H.
      change (inject_Z 30000) with 30000%Q in H. lia.
    + pose proof (Qfloor_scaled u 30000 Hu ltac:(lia)) as H.
      change (inject_Z 30000) with 30000%Q in H. lia.
Qed.

Lemma X4_witness :
  1000 = 1000 /\
  exists (r : Invoice) (d' : Z),
    Map_get "inv-1" (invoices afterUpload) = Some r /\
    status r = Pending /\
    15000 <= d' <= 44999 /\
    fire 0 2000 (1 # 4) afterUpload =
      {| invoices :=
           Map_mutate "inv-1" (startFields 2000) (invoices afterUpload);
         timers := removeNth 0 (timers afterUpload) ++
                   [FinishTimer "inv-1" d'] |}.
Proof.
  apply (X4_start_timer_schedules_finish afterUpload 0 2000 (1 # 4) "inv-1" 1000
           reachable_afterUpload eq_refl).
  split; [discriminate | reflexivity].
Defined.

(** X5. An upload with new identifiers keeps the records of the store in
    their order and puts the records of the files after them, in the order
    of the files; it adds one Start timer of 1000 ms per file, in the same
    order, after the pending timers. *)
Theorem X5_upload_appends_in_order :
  forall (files : list UploadedFile) (s : Server),
    freshIds s (EUpload files) ->
    Map_values (invoices (uploadInvoices files s)) =
      Map_values (invoices s) ++ map newInvoice files /\
    timers (uploadInvoices files s) =
      timers s ++ map (fun f => StartTimer (uuid f) 1000) files.
Proof.
  intros files s Hfresh.
  rewrite (uploadInvoices_fresh files s Hfresh). cbn [invoices timers].
  split; [|reflexivity].
  unfold Map_values, newEntries. rewrite map_app, map_map. reflexivity.
Qed.

Lemma X5_witness :
  Map_values (invoices (uploadInvoices [sampleFile] initialServer)) =
    [newInvoice sampleFile] /\
  timers (uploadInvoices [sampleFile] initialServer) =
    [StartTimer "inv-1" 1000].
Proof.
  apply (X5_upload_appends_in_order [sampleFile] initialServer).
  split; [repeat constructor; intros [] | intros f _; reflexivity].
Defined.

(** X6. After an accepted upload with new identifiers the response lists
    one record per file; every listed record is Pending and is what
    [GET /api/invoices/:id] returns for its id; every record that could be
    fetched before is fetched unchanged; and every other identifier is
    answered as before the upload. *)
Theorem X6_uploaded_records_can_be_fetched :
  forall (files : list UploadedFile) (s s' : Server)
         (response : UploadResponse),
    freshIds s (EUpload files) ->
    postUpload files s = (s', Json response) ->
    List.length (createdInvoices response) = List.length files /\
    (forall r, In r (createdInvoices response) ->
       status r = Pending /\ getInvoice (invoices s') (id r) = Json r) /\
    (forall i r, getInvoice (invoices s) i = Json r ->
       getInvoice (invoices s') i = Json r) /\
    (forall i, ~ In i (map id (createdInvoices response)) ->
       getInvoice (invoices s') i = getInvoice (invoices s) i).
Proof.
  intros files s s' response Hfresh Hpost.
  unfold postUpload in Hpost.
  destruct files as [|f0 files0] eqn:Efiles; [discriminate|].
  rewrite <- Efiles in *. clear Efiles f0 files0.
  injection Hpost as <- <-. cbn [createdInvoices].
  assert (Hget : forall i,
             Map_get i (invoices (uploadInvoices files s)) =
             match Map_get i (invoices s) with
             | Some r => Some r
             | None => Map_get i (newEntries files)
             end)
    by (intros i; apply uploadInvoices_get; exact Hfresh).
  destruct Hfresh as [Hnd Hf].
  split; [apply length_map|]. split; [|split].
  - intros r Hr. apply in_map_iff in Hr. destruct Hr as [f [<- Hin]].
    split; [reflexivity|].
    unfold getInvoice. cbn [newInvoice id]. rewrite Hget, (Hf f Hin).
    rewrite (newEntries_get files f Hnd Hin). reflexivity.
  - intros i r. unfold getInvoice. rewrite Hget.
    destruct (Map_get i (invoices s)); [auto | discriminate].
  - intros i Hi. unfold getInvoice. rewrite Hget.
    destruct (Map_get i (invoices s)) as [r|]; [reflexivity|].
    rewrite newEntries_get_absent; [reflexivity|].
    rewrite map_map in Hi. exact Hi.
Qed.

Lemma X6_witness :
  getInvoice (invoices afterUpload) "inv-1" = Json (newInvoice sampleFile).
Proof.
  refine (proj2 (proj1 (proj2
    (X6_uploaded_records_can_be_fetched [sampleFile] initialServer afterUpload
       {| success := true;
          createdInvoices := [newInvoice sampleFile];
          message := "Successfully uploaded 1 invoice(s)" |} _ eq_refl))
    (newInvoice sampleFile) (or_introl eq_refl))).
  split; [repeat constructor; intros [] | intros f _; reflexivity].
Defined.

(** X7. In every reachable state no two records have the same [id], the
    record [GET /api/invoices/:id] returns has the id it was asked for,
    and every record of the store is returned for its own id. *)
Theorem X7_ids_are_unique_keys :
  forall (s : Server),
    reachable s ->
    NoDup (map id (Map_values (invoices s))) /\
    (forall k r, getInvoice (invoices s) k = Json r -> id r = k) /\
    (forall r, In r (Map_values (invoices s)) ->
       getInvoice (invoices s) (id r) = Json r).
Proof.
  intros s Hreach.
  pose proof (reachable_keyed s Hreach) as Hkeyed.
  pose proof (keyed_ids _ Hkeyed) as Hids.
  destruct Hkeyed as [Hnd Hid].
  split; [rewrite Hids; exact Hnd|]. split.
  - intros k r. unfold getInvoice.
    destruct (Map_get k (invoices s)) as [r'|] eqn:E; [|discriminate].
    intros [= <-]. exact (Hid k r' E).
  - intros r Hr. unfold Map_values in Hr. apply in_map_iff in Hr.
    destruct Hr as [[k r'] [Er Hin]]. cbn in Er. subst r'.
    pose proof (In_Map_get k _ r Hnd Hin) as Hget.
    rewrite (Hid k r Hget). unfold getInvoice. rewrite Hget. reflexivity.
Qed.

Lemma X7_witness :
  NoDup (map id (Map_values (invoices afterStart))).
Proof.
  exact (proj1 (X7_ids_are_unique_keys afterStart reachable_afterStart)).
Defined.

(** X8. Whatever happens next in a reachable state, a record of the
    store is still there, with the same id, file name, file size, client,
    amount, upload date and file path: only the status and the two
    processing time stamps ever change. *)
Theorem X8_persistent_fields_never_change :
  forall (s : Server) (e : Event) (i : string) (r : Invoice),
    reachable s -> freshIds s e ->
    Map_get i (invoices s) = Some r ->
    exists r', Map_get i (invoices (step s e)) = Some r' /\ persistent r r'.
Proof.
  intros s e i r Hreach Hfresh Hr.
  pose proof (reachable_agree s Hreach) as Hagree.
  destruct (step_moved s e i Hagree Hfresh)
    as [f H0 H1 Hi _|H0 H1|r0 H0 H1|r0 t H0 Hst H1 _|r0 t b H0 Hst H1 _];
    rewrite H0 in Hr; try discriminate; injection Hr as <-;
    eexists; (split; [exact H1|]).
  - apply persistent_refl.
  - apply startFields_persistent.
  - apply finishFields_persistent.
Qed.

Lemma X8_witness :
  exists r',
    Map_get "inv-1" (invoices afterStart) = Some r' /\
    persistent (newInvoice sampleFile) r'.
Proof.
  apply (X8_persistent_fields_never_change afterUpload (EFire 0 2000 (1 # 4))
           "inv-1" (newInvoice sampleFile) reachable_afterUpload I eq_refl).
Defined.

(** X9. In every reachable state a record has no [processingStartTime]
    exactly when it is Pending, and has a [processingEndTime] exactly when
    it is Processed or Failed. *)
Theorem X9_timestamps_follow_status :
  forall (s : Server) (i : string) (r : Invoice),
    reachable s ->
    Map_get i (invoices s) = Some r ->
    (status r = Pending <-> processingStartTime r = None) /\
    (terminal (status r) <-> processingEndTime r <> None).
Proof.
  intros s i r Hreach Hr.
  pose proof (reachable_stamps s Hreach i r Hr) as H.
  unfold stampsAgree, terminal in *.
  destruct (status r); destruct H as [H1 H2]; repeat split;
    intros; try congruence; try tauto; intuition congruence.
Qed.

Lemma X9_witness :
  (Processing = Pending <-> Some 2000 = None) /\
  (terminal Processing <-> @None Z <> None).
Proof.
  exact (X9_timestamps_follow_status afterStart "inv-1"
           (startFields 2000 (newInvoice sampleFile))
           reachable_afterStart eq_refl).
Defined.

(** X10. In every reachable state the pending timers are exactly the
    open records: a record is Pending iff a Start for it is pending,
    Processing iff a Finish for it is pending, and Processed or Failed iff
    no timer names it.  So no record is left waiting without a timer. *)
Theorem X10_open_records_have_their_timer :
  forall (s : Server) (i : string) (r : Invoice),
    reachable s ->
    Map_get i (invoices s) = Some r ->
    (status r = Pending <-> exists d, In (StartTimer i d) (timers s)) /\
    (status r = Processing <-> exists d, In (FinishTimer i d) (timers s)) /\
    (terminal (status r) <-> ~ In i (map timerId (timers s))).
Proof.
  intros s i r Hreach Hr.
  pose proof (reachable_agree s Hreach) as [_ [HS HF]].
  destruct (reachable_cover s Hreach i r Hr) as [HP HQ].
  assert (HS' : forall d, In (StartTimer i d) (timers s) ->
                          status r = Pending).
  { intros d Hd. pose proof (HS i d Hd) as H. unfold statusOf in H.
    rewrite Hr in H. injection H as H. exact H. }
  assert (HF' : forall d, In (FinishTimer i d) (timers s) ->
                          status r = Processing).
  { intros d Hd. pose proof (HF i d Hd) as H. unfold statusOf in H.
    rewrite Hr in H. injection H as H. exact H. }
  split; [|split].
  - split; [exact HP|]. intros [d Hd]. exact (HS' d Hd).
  - split; [exact HQ|]. intros [d Hd]. exact (HF' d Hd).
  - unfold terminal. split.
    + intros Hterm Hin. apply in_map_iff in Hin.
      destruct Hin as [[j d|j d] [Hj Hd]]; cbn in Hj; subst j.
      * pose proof (HS' d Hd). destruct Hterm; congruence.
      * pose proof (HF' d Hd). destruct Hterm; congruence.
    + intros Hnot. destruct (status r) eqn:Est; auto; exfalso; apply Hnot.
      * destruct (HP eq_refl) as [d Hd]. apply in_map_iff.
        exists (StartTimer i d). auto.
      * destruct (HQ eq_refl) as [d Hd]. apply in_map_iff.
        exists (FinishTimer i d). auto.
Qed.

Lemma X10_witness :
  (status (startFields 2000 (newInvoice sampleFile)) = Pending <->
   exists d, In (StartTimer "inv-1" d) (timers afterStart)) /\
  (status (startFields 2000 (newInvoice sampleFile)) = Processing <->
   exists d, In (FinishTimer "inv-1" d) (timers afterStart)) /\
  (terminal (status (startFields 2000 (newInvoice sampleFile))) <->
   ~ In "inv-1"%string (map timerId (timers afterStart))).
Proof.
  exact (X10_open_records_have_their_timer afterStart "inv-1"
           (startFields 2000 (newInvoice sampleFile))
           reachable_afterStart eq_refl).
Defined.

(** *** The time stamps under a clock that never runs backwards *)

(** A state reached under a clock is reachable. *)
Lemma reachableAt_reachable (c : Z) (s : Server) :
  reachableAt c s -> reachable s.
Proof.
  induction 1 as [c|c c' s e _ IH Hfresh _ _]; [constructor|].
  apply reachable_step; assumption.
Qed.

Lemma reachableAt_afterStart : reachableAt 2000 afterStart.
Proof.
  apply (reachableAt_step 1000 2000 afterUpload (EFire 0 2000 (1 # 4))).
  - apply (reachableAt_step 1000 1000 initialServer (EUpload [sampleFile])).
    + constructor.
    + split; [repeat constructor; intros [] | intros f _; reflexivity].
    + lia.
    + intros f [<-|[]]. cbn. lia.
  - exact I.
  - lia.
  - cbn. lia.
Qed.

(** X11. With a clock that never runs backwards, every record of a state
    reached by time [c] has an upload date not after [c], a
    [processingStartTime] (when set) between the upload date and [c], and
    a [processingEndTime] (when set) between the start and [c]. *)
Theorem X11_time_stamps_are_in_order :
  forall (c : Z) (s : Server) (i : string) (r : Invoice),
    reachableAt c s ->
    Map_get i (invoices s) = Some r ->
    uploadDate r <= c /\
    (forall t1, processingStartTime r = Some t1 -> uploadDate r <= t1 <= c) /\
    (forall t1 t2, processingStartTime r = Some t1 ->
                   processingEndTime r = Some t2 -> t1 <= t2 <= c).
Proof.
  intros c s i r Hreach. revert i r.
  change (forall i r, Map_get i (invoices s) = Some r -> stampsOrdered c r).
  induction Hreach as [c|c c' s e Hreach IH Hfresh Hc Ht]; intros i r Hr.
  - discriminate Hr.
  - pose proof (reachableAt_reachable c s Hreach) as Hr0.
    pose proof (reachable_agree s Hr0) as Hagree.
    pose proof (reachable_stamps s Hr0) as Hstamps.
    destruct (step_moved s e i Hagree Hfresh)
      as [f H0 H1 Hi [files [-> Hf]]|H0 H1|r0 H0 H1
         |r0 t H0 Hst H1 [k [u ->]]|r0 t b H0 Hst H1 [k [u ->]]];
      rewrite H1 in Hr; try discriminate; injection Hr as <-.
    + specialize (Ht f Hf). unfold stampsOrdered. cbn.
      split; [lia|]. split; intros; discriminate.
    + destruct (IH i r0 H0) as [Hu [Hs He]].
      split; [lia|]. split.
      * intros t1 E. specialize (Hs t1 E). lia.
      * intros t1 t2 E1 E2. specialize (He t1 t2 E1 E2). lia.
    + destruct (IH i r0 H0) as [Hu [Hs He]]. cbn in Ht.
      pose proof (Hstamps i r0 H0) as Hsa. unfold stampsAgree in Hsa.
      rewrite Hst in Hsa. destruct Hsa as [_ Hend].
      unfold stampsOrdered. cbn. split; [lia|]. split.
      * intros t1 [= <-]. lia.
      * intros t1 t2 _ E. congruence.
    + destruct (IH i r0 H0) as [Hu [Hs He]]. cbn in Ht.
      pose proof (Hstamps i r0 H0) as Hsa. unfold stampsAgree in Hsa.
      rewrite Hst in Hsa. destruct Hsa as [Hstart _].
      unfold stampsOrdered. cbn. split; [lia|]. split.
      * intros t1 E. specialize (Hs t1 E). lia.
      * intros t1 t2 E [= <-]. specialize (Hs t1 E). lia.
Qed.

Lemma X11_witness :
  uploadDate (startFields 2000 (newInvoice sampleFile)) <= 2000 /\
  (forall t1,
     processingStartTime (startFields 2000 (newInvoice sampleFile)) = Some t1 ->
     uploadDate (startFields 2000 (newInvoice sampleFile)) <= t1 <= 2000) /\
  (forall t1 t2,
     processingStartTime (startFields 2000 (newInvoice sampleFile)) = Some t1 ->
     processingEndTime (startFields 2000 (newInvoice sampleFile)) = Some t2 ->
     t1 <= t2 <= 2000).
Proof.
  exact (X11_time_stamps_are_in_order 2000 afterStart "inv-1"
           (startFields 2000 (newInvoice sampleFile))
           reachableAt_afterStart eq_refl).
Defined.

(* ================================================================== *)
(** ** The upload route *)
(* ================================================================== *)

(** The file filter accepts the media type [application/pdf] and no
    other. *)
Lemma fileFilter_accepts (mimetype : string) :
  fileFilter mimetype = None <-> mimetype = "application/pdf"%string.
Proof.
  unfold fileFilter.
  destruct (String.eqb_spec mimetype "application/pdf") as [E|E].
  - tauto.
  - split; [discriminate | contradiction].
Qed.

(** The answer of the error middleware to a [MulterError] by its code and
    message. *)
Lemma errorMiddleware_MulterError (code message : string) :
  errorMiddleware (MulterError code message) =
  if String.eqb code "LIMIT_FILE_SIZE"
  then (400, "File size too large. Maximum size is 10MB."%string)
  else if String.eqb message "Only PDF files are allowed"
  then (400, "Only PDF files are allowed"%string)
  else (500, "Internal server error"%string).
Proof. reflexivity. Qed.

(** X12. An upload that is refused changes nothing and gets one of three
    fixed answers.  Whatever error multer hands to the error middleware,
    the store and the timers are as before and the answer is 400 "Only
    PDF files are allowed", 400 "File size too large. Maximum size is
    10MB." or 500 "Internal server error".  The file filter accepts the
    media type application/pdf and no other, and the error it raises is
    answered 400 "Only PDF files are allowed"; a MulterError with the code
    LIMIT_FILE_SIZE is answered 400 with the size message; a MulterError
    with any other code (such as LIMIT_UNEXPECTED_FILE, for a file sent
    under another field name) and another message is answered 500.  A
    request that reaches the handler with no file is answered 400 "No
    files uploaded", with nothing changed. *)
Theorem X12_refused_upload_changes_nothing :
  forall (s : Server),
    (forall error : UploadError,
       exists (code : Z) (msg : string),
         uploadRoute (inl error) s = (s, Refused code msg) /\
         (code = 400 /\ msg = "Only PDF files are allowed"%string \/
          code = 400 /\
            msg = "File size too large. Maximum size is 10MB."%string \/
          code = 500 /\ msg = "Internal server error"%string)) /\
    (forall mimetype : string,
       fileFilter mimetype = None <-> mimetype = "application/pdf"%string) /\
    (forall (mimetype : string) (error : UploadError),
       fileFilter mimetype = Some error ->
       uploadRoute (inl error) s =
         (s, Refused 400 "Only PDF files are allowed")) /\
    (forall message : string,
       uploadRoute (inl (MulterError "LIMIT_FILE_SIZE" message)) s =
         (s, Refused 400 "File size too large. Maximum size is 10MB.")) /\
    (forall code message : string,
       code <> "LIMIT_FILE_SIZE"%string ->
       message <> "Only PDF files are allowed"%string ->
       uploadRoute (inl (MulterError code message)) s =
         (s, Refused 500 "Internal server error")) /\
    uploadRoute (inr []) s = (s, Refused 400 "No files uploaded").
Proof.
  intros s. split; [|split; [|split; [|split; [|split]]]].
  - intros error. unfold uploadRoute, errorMiddleware.
    destruct (match error with
              | MulterError code _ => String.eqb code "LIMIT_FILE_SIZE"
              | OtherError _ => false
              end).
    + do 2 eexists. split; [reflexivity|]. right. left. auto.
    + destruct (String.eqb (errorMessage error)
                  "Only PDF files are allowed").
      * do 2 eexists. split; [reflexivity|]. left. auto.
      * do 2 eexists. split; [reflexivity|]. right. right. auto.
  - exact fileFilter_accepts.
  - intros mimetype error. unfold fileFilter.
    destruct (String.eqb mimetype "application/pdf"); [discriminate|].
    intros [= <-]. reflexivity.
  - intros message. reflexivity.
  - intros code message Hc Hm. unfold uploadRoute.
    rewrite errorMiddleware_MulterError.
    destruct (String.eqb_spec code "LIMIT_FILE_SIZE"); [contradiction|].
    destruct (String.eqb_spec message "Only PDF files are allowed");
      [contradiction | reflexivity].
  - reflexivity.
Qed.

Lemma X12_witness :
  uploadRoute (inl (MulterError "LIMIT_UNEXPECTED_FILE" "Unexpected field"))
              afterUpload =
    (afterUpload, Refused 500 "Internal server error").
Proof.
  apply (proj1 (proj2 (proj2 (proj2 (proj2
           (X12_refused_upload_changes_nothing afterUpload))))));
    discriminate.
Defined.

(* ================================================================== *)
(** ** The pages of the list endpoint *)
(* ================================================================== *)

(** *** Numbers as strings *)

(** The character of a digit has that digit as its value. *)
Lemma digitValue_digitChar (d : Z) :
  0 <= d < 10 -> JS.digitValue 10 (JS.digitChar d) = Some d.
Proof.
  intros H.
  assert (d = 0 \/ d = 1 \/ d = 2 \/ d = 3 \/ d = 4 \/ d = 5 \/ d = 6 \/
          d = 7 \/ d = 8 \/ d = 9) as C by lia.
  repeat destruct C as [->|C]; try subst d; reflexivity.
Qed.

Lemma isDigit_digitChar (d : Z) :
  0 <= d < 10 -> isDigit (JS.digitChar d) = true.
Proof.
  intros H.
  assert (d = 0 \/ d = 1 \/ d = 2 \/ d = 3 \/ d = 4 \/ d = 5 \/ d = 6 \/
          d = 7 \/ d = 8 \/ d = 9) as C by lia.
  repeat destruct C as [->|C]; try subst d; reflexivity.
Qed.

(** Reading the digits of [n] gives [n], when nothing or 0 has been read
    before. *)
Lemma parseDigits_digits (fuel : nat) :
  forall (n : Z) (rest : string) (a : option Z),
    0 <= n < 2 ^ (Z.of_nat fuel + 1) ->
    a = None \/ a = Some 0 ->
    JS.parseDigits 10 a (JS.digits fuel n rest) =
    JS.parseDigits 10 (Some n) rest.
Proof.
  induction fuel as [|fuel IH]; intros n rest a Hn Ha.
  - cbn [JS.digits]. change (2 ^ (Z.of_nat 0 + 1)) with 2 in Hn.
    rewrite Z.mod_small by lia. cbn [JS.parseDigits].
    rewrite digitValue_digitChar by lia.
    destruct Ha as [->| ->]; reflexivity.
  - cbn [JS.digits]. destruct (n <? 10) eqn:E.
    + apply Z.ltb_lt in E. rewrite Z.mod_small by lia. cbn [JS.parseDigits].
      rewrite digitValue_digitChar by lia.
      destruct Ha as [->| ->]; reflexivity.
    + apply Z.ltb_ge in E.
      rewrite IH; [| |exact Ha].
      * cbn [JS.parseDigits].
        rewrite digitValue_digitChar by (apply Z.mod_pos_bound; lia).
        f_equal. f_equal.
        pose proof (Z.div_mod n 10 ltac:(lia)). lia.
      * split; [apply Z.div_pos; lia|].
        apply Z.div_lt_upper_bound; [lia|].
        replace (Z.of_nat (S fuel) + 1) with (Z.succ (Z.of_nat fuel + 1))
          in Hn by lia.
        rewrite Z.pow_succ_r in Hn by lia. lia.
Qed.

(** The digits of a number are digits. *)
Lemma allDigits_digits (fuel : nat) :
  forall (n : Z) (rest : string),
    0 <= n -> allDigits rest = true ->
    allDigits (JS.digits fuel n rest) = true.
Proof.
  induction fuel as [|fuel IH]; intros n rest Hn Hr; cbn [JS.digits].
  - cbn [allDigits]. rewrite Hr, isDigit_digitChar; [reflexivity|].
    apply Z.mod_pos_bound. lia.
  - assert (Hd : allDigits (String (JS.digitChar (n mod 10)) rest) = true).
    { cbn [allDigits]. rewrite Hr, isDigit_digitChar; [reflexivity|].
      apply Z.mod_pos_bound. lia. }
    destruct (n <? 10); [exact Hd|].
    apply IH; [apply Z.div_pos; lia | exact Hd].
Qed.

Lemma digits_nonempty (fuel : nat) (n : Z) (rest : string) :
  JS.digits fuel n rest <> EmptyString.
Proof.
  revert n rest. induction fuel as [|fuel IH]; intros n rest; cbn [JS.digits].
  - discriminate.
  - destruct (n <? 10); [discriminate | apply IH].
Qed.

(** The ten digits. *)
Lemma isDigit_cases (c : ascii) :
  isDigit c = true ->
  c = "0"%char \/ c = "1"%char \/ c = "2"%char \/ c = "3"%char \/
  c = "4"%char \/ c = "5"%char \/ c = "6"%char \/ c = "7"%char \/
  c = "8"%char \/ c = "9"%char.
Proof.
  unfold isDigit. intros H.
  apply andb_prop in H. destruct H as [H1 H2].
  apply Nat.leb_le in H1. apply Nat.leb_le in H2.
  rewrite <- (ascii_nat_embedding c).
  remember (nat_of_ascii c) as n eqn:En. clear En.
  assert (n = 48 \/ n = 49 \/ n = 50 \/ n = 51 \/ n = 52 \/ n = 53 \/
          n = 54 \/ n = 55 \/ n = 56 \/ n = 57)%nat as C by lia.
  clear H1 H2.
  repeat destruct C as [->|C]; try subst n; cbn; tauto.
Qed.

(** On a string that starts with one or more digits and has nothing but
    digits, parseInt reads the decimal number; a minus sign in front
    negates it. *)
Lemma parseInt_allDigits (s : string) :
  s <> EmptyString -> allDigits s = true ->
  JS.parseInt s =
    match JS.parseDigits 10 None s with
    | Some n => Some (1 * n)
    | None => None
    end /\
  JS.parseInt (String "-" s) =
    match JS.parseDigits 10 None s with
    | Some n => Some (-1 * n)
    | None => None
    end.
Proof.
  intros Hne Hd. destruct s as [|c s]; [congruence|]. clear Hne.
  cbn [allDigits] in Hd. apply andb_prop in Hd. destruct Hd as [Hc Hs].
  apply isDigit_cases in Hc.
  destruct s as [|c' s].
  - repeat destruct Hc as [->|Hc]; try subst c; split; reflexivity.
  - cbn [allDigits] in Hs. apply andb_prop in Hs. destruct Hs as [Hc' _].
    apply isDigit_cases in Hc'.
    repeat destruct Hc as [->|Hc]; try subst c;
      (repeat destruct Hc' as [->|Hc']; try subst c'; split; reflexivity).
Qed.

(** The fuel [numberToString] gives [digits] is enough. *)
Lemma log2_fuel (n : Z) :
  0 <= n -> 0 <= n < 2 ^ (Z.of_nat (Z.to_nat (Z.log2 n)) + 1).
Proof.
  intros Hn. split; [exact Hn|].
  rewrite Z2Nat.id by apply Z.log2_nonneg.
  destruct (Z.eq_dec n 0) as [->|Hne]; [reflexivity|].
  replace (Z.log2 n + 1) with (Z.succ (Z.log2 n)) by lia.
  apply Z.log2_spec. lia.
Qed.

(** [parseInt] reads back what [toString] prints of a safe integer. *)
Lemma parseInt_numberToString (n : Z) :
  JS.isSafeInteger n ->
  JS.parseInt (JS.numberToString n) = Some n.
Proof.
  intros _. unfold JS.numberToString. destruct (n <? 0) eqn:E.
  - apply Z.ltb_lt in E.
    destruct (parseInt_allDigits
                (JS.digits (Z.to_nat (Z.log2 (- n))) (- n) EmptyString))
      as [_ H].
    + apply digits_nonempty.
    + apply allDigits_digits; [lia | reflexivity].
    + rewrite H. rewrite parseDigits_digits; [| apply log2_fuel; lia | auto].
      cbn [JS.parseDigits]. f_equal. lia.
  - apply Z.ltb_ge in E.
    destruct (parseInt_allDigits
                (JS.digits (Z.to_nat (Z.log2 n)) n EmptyString))
      as [H _].
    + apply digits_nonempty.
    + apply allDigits_digits; [lia | reflexivity].
    + rewrite H. rewrite parseDigits_digits; [| apply log2_fuel; lia | auto].
      cbn [JS.parseDigits]. f_equal. lia.
Qed.

(** A safe integer sent in decimal is the value of the parameter, unless
    it is 0. *)
Lemma parseIntOr_numberToString (n dflt : Z) :
  JS.isSafeInteger n ->
  JS.parseIntOr (Some (JS.numberToString n)) dflt =
  if n =? 0 then dflt else n.
Proof.
  intros Hn. unfold JS.parseIntOr.
  rewrite parseInt_numberToString by exact Hn.
  destruct n; reflexivity.
Qed.

(** A factor of a safe product of two positive integers is safe. *)
Lemma factor_isSafeInteger (a b : Z) :
  1 <= a -> 1 <= b -> a * b <= JS.MAX_SAFE_INTEGER -> JS.isSafeInteger a.
Proof. unfold JS.isSafeInteger. intros Ha Hb Hab. nia. Qed.

(** *** Pages *)

(** [slice] on a start and a length that are not negative. *)
Lemma slice_window {A : Type} (l : list A) (start len : Z) :
  0 <= start -> 0 <= len ->
  JS.slice l start (start + len) =
  firstn (Z.to_nat len) (skipn (Z.to_nat start) l).
Proof.
  intros Hs Hl. unfold JS.slice. cbv zeta.
  destruct (start <? 0) eqn:E1; [apply Z.ltb_lt in E1; lia|].
  destruct (start + len <? 0) eqn:E2; [apply Z.ltb_lt in E2; lia|].
  destruct (Z_le_gt_dec (Z.of_nat (List.length l)) start) as [Hge|Hlt].
  - rewrite (Z.min_r start) by lia. rewrite (Z.min_r (start + len)) by lia.
    rewrite Z.sub_diag. cbn [Z.to_nat firstn].
    rewrite (skipn_all2 l) by lia. rewrite firstn_nil. reflexivity.
  - rewrite (Z.min_l start) by lia.
    destruct (Z_le_gt_dec (start + len) (Z.of_nat (List.length l)))
      as [Hin|Hout].
    + rewrite (Z.min_l (start + len)) by lia. f_equal. lia.
    + rewrite (Z.min_r (start + len)) by lia.
      rewrite !firstn_all2; [reflexivity | |]; rewrite length_skipn; lia.
Qed.

Lemma In_firstn {A : Type} (n : nat) (l : list A) (x : A) :
  In x (firstn n l) -> In x l.
Proof.
  intros H. rewrite <- (firstn_skipn n l). apply in_or_app. left. exact H.
Qed.

Lemma In_skipn {A : Type} (n : nat) (l : list A) (x : A) :
  In x (skipn n l) -> In x l.
Proof.
  intros H. rewrite <- (firstn_skipn n l). apply in_or_app. right. exact H.
Qed.

(** [slice] returns elements of the array. *)
Lemma slice_incl {A : Type} (l : list A) (start end_ : Z) (x : A) :
  In x (JS.slice l start end_) -> In x l.
Proof.
  unfold JS.slice. cbv zeta. intros H.
  apply In_firstn in H. apply In_skipn in H. exact H.
Qed.

(** The first [a + b] elements are the first [a], then the first [b] of
    the rest. *)
Lemma firstn_plus {A : Type} (a b : nat) (l : list A) :
  firstn (a + b) l = firstn a l ++ firstn b (skipn a l).
Proof.
  revert l. induction a as [|a IH]; intros l; [reflexivity|].
  destruct l as [|x l]; cbn [Nat.add firstn skipn app].
  - rewrite firstn_nil. reflexivity.
  - rewrite IH. reflexivity.
Qed.

(** [data] as a window of the sorted records, for a page and a limit that
    are at least 1 and whose product (the end of the window) is a safe
    integer. *)
Lemma data_window (store : Store) (q : Query) :
  1 <= JS.parseIntOr (q_page q) 1 ->
  1 <= JS.parseIntOr (q_limit q) 10 ->
  JS.parseIntOr (q_page q) 1 * JS.parseIntOr (q_limit q) 10 <=
    JS.MAX_SAFE_INTEGER ->
  data (listInvoices store q) =
  firstn (Z.to_nat (JS.parseIntOr (q_limit q) 10))
    (skipn (Z.to_nat ((JS.parseIntOr (q_page q) 1 - 1) *
                      JS.parseIntOr (q_limit q) 10))
           (sortedInvoices store q)).
Proof.
  intros Hp Hl _. rewrite data_slice. apply slice_window; nia.
Qed.

Lemma sortedInvoices_length (store : Store) (q : Query) :
  List.length (sortedInvoices store q) = List.length (passing store q).
Proof. apply sort_length. Qed.

(** X13. For a page and a limit that are at least 1 and whose product
    is a safe integer (so that the program, which computes in doubles,
    has the same numbers), [data] is the window of the sorted records
    that starts after [(page - 1) * limit] records and has at most [limit]
    records; its length is [limit], or what is left of [total] after the
    earlier pages, or 0. *)
Theorem X13_page_is_a_window :
  forall (store : Store) (q : Query),
    let page_ := JS.parseIntOr (q_page q) 1 in
    let limit_ := JS.parseIntOr (q_limit q) 10 in
    1 <= page_ -> 1 <= limit_ ->
    page_ * limit_ <= JS.MAX_SAFE_INTEGER ->
    data (listInvoices store q) =
      firstn (Z.to_nat limit_)
        (skipn (Z.to_nat ((page_ - 1) * limit_)) (sortedInvoices store q)) /\
    Z.of_nat (List.length (data (listInvoices store q))) =
      Z.min limit_
        (Z.max 0 (total (listInvoices store q) - (page_ - 1) * limit_)).
Proof.
  intros store q page_ limit_ Hp Hl Hs.
  rewrite (data_window store q Hp Hl Hs). fold page_ limit_.
  split; [reflexivity|].
  rewrite total_passing, <- sortedInvoices_length.
  rewrite length_firstn, length_skipn. nia.
Qed.

Lemma X13_witness :
  data (listInvoices fiveInvoices (pageQuery "2" "2")) =
    firstn 2 (skipn 2 (sortedInvoices fiveInvoices (pageQuery "2" "2"))) /\
  Z.of_nat
    (List.length (data (listInvoices fiveInvoices (pageQuery "2" "2")))) =
    Z.min 2 (Z.max 0 (total (listInvoices fiveInvoices (pageQuery "2" "2"))
                      - (2 - 1) * 2)).
Proof.
  apply (X13_page_is_a_window fiveInvoices
           (pageQuery "2" "2")); vm_compute; discriminate.
Defined.

(** The page [p >= 1] as a window of the sorted records. *)
Lemma pageOf_window (store : Store) (q : Query) (p : Z) :
  1 <= p -> 1 <= JS.parseIntOr (q_limit q) 10 ->
  p * JS.parseIntOr (q_limit q) 10 <= JS.MAX_SAFE_INTEGER ->
  pageOf store q p =
  firstn (Z.to_nat (JS.parseIntOr (q_limit q) 10))
    (skipn (Z.to_nat (p - 1) * Z.to_nat (JS.parseIntOr (q_limit q) 10))
           (sortedInvoices store q)).
Proof.
  intros Hp Hl Hs. unfold pageOf.
  assert (E : JS.parseIntOr
                (q_page (withPage q (Some (JS.numberToString p)))) 1 = p).
  { cbn [withPage q_page].
    rewrite parseIntOr_numberToString
      by exact (factor_isSafeInteger p _ Hp Hl Hs).
    destruct (Z.eqb_spec p 0); [lia | reflexivity]. }
  rewrite data_window.
  - rewrite E.
    change (sortedInvoices store (withPage q (Some (JS.numberToString p))))
      with (sortedInvoices store q).
    cbn [withPage q_limit]. f_equal. f_equal. nia.
  - rewrite E. exact Hp.
  - exact Hl.
  - rewrite E. exact Hs.
Qed.

(** The first [n] pages, one after the other, are the first [n * limit]
    sorted records. *)
Lemma pages_concat (store : Store) (q : Query) (n : nat) :
  1 <= JS.parseIntOr (q_limit q) 10 ->
  Z.of_nat n * JS.parseIntOr (q_limit q) 10 <= JS.MAX_SAFE_INTEGER ->
  List.concat (map (pageOf store q) (map Z.of_nat (seq 1 n))) =
  firstn (n * Z.to_nat (JS.parseIntOr (q_limit q) 10))
         (sortedInvoices store q).
Proof.
  intros Hl. induction n as [|n IH]; intros Hs; [reflexivity|].
  rewrite seq_S, !map_app, concat_app, IH by nia.
  cbn [map List.concat Nat.add].
  rewrite app_nil_r.
  rewrite pageOf_window by (try exact Hl; try exact Hs; lia).
  replace (Z.to_nat (Z.of_nat (S n) - 1)) with n by lia.
  rewrite <- firstn_plus. f_equal. lia.
Qed.

(** X14. With a limit of at least 1, the pages 1 to [n] of a query, the
    page number sent in decimal, put one after the other are the sorted
    records, each exactly once, as soon as [n] pages cover [total]; [n]
    times the limit is a safe integer, so that every page number and every
    window bound is the same number in the program. *)
Theorem X14_pages_tile_the_sorted_records :
  forall (store : Store) (q : Query) (n : nat),
    1 <= JS.parseIntOr (q_limit q) 10 ->
    Z.of_nat n * JS.parseIntOr (q_limit q) 10 <= JS.MAX_SAFE_INTEGER ->
    total (listInvoices store q) <=
      Z.of_nat n * JS.parseIntOr (q_limit q) 10 ->
    List.concat (map (pageOf store q) (map Z.of_nat (seq 1 n))) =
    sortedInvoices store q.
Proof.
  intros store q n Hl Hs Hn.
  rewrite (pages_concat store q n Hl Hs).
  apply firstn_all2.
  rewrite total_passing, <- sortedInvoices_length in Hn. nia.
Qed.

Lemma X14_witness :
  List.concat (map (pageOf fiveInvoices (pageQuery "1" "2"))
                   (map Z.of_nat (seq 1 3))) =
  sortedInvoices fiveInvoices (pageQuery "1" "2").
Proof.
  apply (X14_pages_tile_the_sorted_records fiveInvoices (pageQuery "1" "2") 3);
    vm_compute; discriminate.
Defined.

(** *** A limit that is not positive *)

(** X15. The limit is not validated either: a negative limit [-k] is
    echoed in the response, and page 1 then holds all the sorted records
    but the last [k]. *)
Theorem X15_negative_limit_drops_the_tail :
  forall (store : Store) (q : Query) (k : Z),
    JS.parseIntOr (q_page q) 1 = 1 ->
    JS.parseIntOr (q_limit q) 10 = - k -> 0 < k ->
    limit (listInvoices store q) = - k /\
    data (listInvoices store q) =
      firstn (List.length (sortedInvoices store q) - Z.to_nat k)
             (sortedInvoices store q).
Proof.
  intros store q k Hp Hl Hk. split; [exact Hl|].
  rewrite data_slice, Hp, Hl. unfold JS.slice. cbv zeta.
  change ((1 - 1) * - k) with 0. cbn [Z.add].
  change (0 <? 0) with false. cbv iota.
  destruct (Z.ltb_spec (- k) 0); [|lia].
  rewrite (Z.min_l 0) by lia. rewrite Z.sub_0_r. cbn [Z.to_nat skipn].
  f_equal. lia.
Qed.

Lemma X15_witness :
  limit (listInvoices fiveInvoices (pageQuery "1" "-2")) = - 2 /\
  data (listInvoices fiveInvoices (pageQuery "1" "-2")) =
    firstn (List.length (sortedInvoices fiveInvoices (pageQuery "1" "-2"))
            - Z.to_nat 2)
           (sortedInvoices fiveInvoices (pageQuery "1" "-2")).
Proof.
  apply (X15_negative_limit_drops_the_tail fiveInvoices (pageQuery "1" "-2") 2);
    reflexivity.
Defined.

(* ================================================================== *)
(** ** What the list endpoint returns *)
(* ================================================================== *)

(** Every record of [data] passes the filters. *)
Lemma data_passing (store : Store) (q : Query) (r : Invoice) :
  In r (data (listInvoices store q)) -> In r (passing store q).
Proof.
  rewrite data_slice. intros H. apply slice_incl in H.
  unfold sortedInvoices in H.
  exact (Permutation_in _ (sort_perm _ _) H).
Qed.

(** X16. With a status filter that is not empty and not "all", every
    record of [data] has exactly that status string; the comparison is
    case sensitive, so a string that is not one of the four status names
    (such as "pending") gives an empty [data] and a [total] of 0. *)
Theorem X16_status_filter_is_exact :
  forall (store : Store) (q : Query) (s : string),
    q_status q = Some s -> s <> EmptyString -> s <> "all"%string ->
    (forall r, In r (data (listInvoices store q)) ->
       statusString (status r) = s) /\
    ((forall st, statusString st <> s) ->
       data (listInvoices store q) = [] /\ total (listInvoices store q) = 0).
Proof.
  intros store q s Hq Hne Hall.
  assert (Hpass : forall r, In r (passing store q) ->
                            statusString (status r) = s).
  { intros r Hr. unfold passing in Hr. apply filter_In in Hr.
    destruct Hr as [_ Hr]. apply andb_prop in Hr. destruct Hr as [Hr _].
    unfold passesStatus in Hr. rewrite Hq in Hr.
    destruct (String.eqb_spec s EmptyString); [contradiction|].
    destruct (String.eqb_spec s "all"); [contradiction|].
    cbn in Hr. apply String.eqb_eq. exact Hr. }
  split.
  - intros r Hr. apply Hpass. apply (data_passing store q r Hr).
  - intros Hnone.
    assert (E : passing store q = []).
    { destruct (passing store q) as [|r l] eqn:E; [reflexivity|].
      exfalso. apply (Hnone (status r)). apply Hpass. left. reflexivity. }
    split.
    + destruct (data (listInvoices store q)) as [|r l] eqn:Ed; [reflexivity|].
      assert (Hin : In r (passing store q)).
      { apply data_passing. rewrite Ed. left. reflexivity. }
      rewrite E in Hin. destruct Hin.
    + rewrite total_passing, E. reflexivity.
Qed.

Lemma X16_witness :
  (forall r, In r (data (listInvoices fiveInvoices (statusQuery "pending"))) ->
     statusString (status r) = "pending"%string) /\
  ((forall st, statusString st <> "pending"%string) ->
     data (listInvoices fiveInvoices (statusQuery "pending")) = [] /\
     total (listInvoices fiveInvoices (statusQuery "pending")) = 0).
Proof.
  apply (X16_status_filter_is_exact fiveInvoices
           (statusQuery "pending") "pending" eq_refl); discriminate.
Defined.

(** *** The order of numeric fields *)

(** On two records with different numbers in the sort field, the
    comparator is negative exactly when the first goes first in the
    direction asked for. *)
Lemma compareInvoices_numeric (sortBy sortOrder : string)
    (key : Invoice -> Z) (a b : Invoice) :
  numericField sortBy = Some key ->
  key a <> key b ->
  (compareInvoices sortBy sortOrder a b <? 0) =
  if String.eqb sortOrder "asc" then key a <? key b
  else - key a <? - key b.
Proof.
  unfold numericField. intros Hf Hne.
  assert (E : compareInvoices sortBy sortOrder a b =
              if String.eqb sortOrder "asc"
              then (if key b <? key a then 1 else -1)
              else (if key a <? key b then 1 else -1)).
  { destruct (String.eqb_spec sortBy "amount") as [->|H1];
      [injection Hf as <-; reflexivity|].
    destruct (String.eqb_spec sortBy "fileSize") as [->|H2];
      [injection Hf as <-; reflexivity|].
    destruct (String.eqb_spec sortBy "uploadDate") as [->|H3];
      [injection Hf as <-; reflexivity | discriminate]. }
  rewrite E. clear E.
  destruct (String.eqb sortOrder "asc");
    destruct (key b <? key a) eqn:E1; destruct (key a <? key b) eqn:E2;
    destruct (- key a <? - key b) eqn:E3; try reflexivity;
    rewrite ?Z.ltb_lt, ?Z.ltb_ge in *; lia.
Qed.

(** Pairwise distinct numbers come out of the sort in order. *)
Lemma sort_numeric_increasing (sortBy sortOrder : string)
    (key : Invoice -> Z) (l : list Invoice) :
  numericField sortBy = Some key ->
  distinctKeys key l ->
  if String.eqb sortOrder "asc"
  then increasing key (V8.sort (compareInvoices sortBy sortOrder) l)
  else increasing (fun r => - key r)
         (V8.sort (compareInvoices sortBy sortOrder) l).
Proof.
  intros Hf Hd.
  destruct (String.eqb sortOrder "asc") eqn:E.
  - apply ArrayTimSortImpl_sorted; [|exact Hd].
    intros a b Hne. rewrite (compareInvoices_numeric _ _ key a b Hf Hne), E.
    reflexivity.
  - apply ArrayTimSortImpl_sorted; [|apply distinctKeys_opp, Hd].
    intros a b Hne.
    rewrite (compareInvoices_numeric _ _ key a b Hf), E; [reflexivity | lia].
Qed.

(** X17. Sorting by a numeric field ([amount], [fileSize] or
    [uploadDate], the default) when the filtered records have pairwise
    distinct values in it: with order "asc" the values grow strictly
    along the result; with any other order (the default is "desc") they
    fall strictly, and the result is exactly the reverse of the ascending
    one. *)
Theorem X17_numeric_fields_sort_both_ways :
  forall (store : Store) (q : Query) (key : Invoice -> Z),
    numericField (JS.stringOr (q_sortBy q) "uploadDate") = Some key ->
    distinctKeys key (passing store q) ->
    increasing key
      (sortedInvoices store (withSortOrder q (Some "asc"%string))) /\
    (JS.stringOr (q_sortOrder q) "desc" <> "asc"%string ->
     increasing (fun r => - key r) (sortedInvoices store q) /\
     sortedInvoices store q =
       rev (sortedInvoices store (withSortOrder q (Some "asc"%string)))).
Proof.
  intros store q key Hf Hd.
  assert (Hasc : increasing key
            (sortedInvoices store (withSortOrder q (Some "asc"%string)))).
  { exact (sort_numeric_increasing _ "asc" key (passing store q) Hf Hd). }
  split; [exact Hasc|]. intros Hno.
  assert (Hdesc : increasing (fun r => - key r) (sortedInvoices store q)).
  { pose proof (sort_numeric_increasing _ (JS.stringOr (q_sortOrder q) "desc")
                  key (passing store q) Hf Hd) as H.
    destruct (String.eqb_spec (JS.stringOr (q_sortOrder q) "desc") "asc");
      [contradiction | exact H]. }
  split; [exact Hdesc|].
  rewrite <- (rev_involutive (sortedInvoices store q)). f_equal.
  apply (increasing_perm_unique key).
  - apply increasing_rev_opp. exact Hdesc.
  - exact Hasc.
  - rewrite <- Permutation_rev. unfold sortedInvoices.
    rewrite sort_perm. symmetry. apply sort_perm.
Qed.

Lemma X17_witness :
  increasing amount
    (sortedInvoices fiveInvoices
       (withSortOrder (sortQuery "amount" "desc") (Some "asc"%string))) /\
  (JS.stringOr (q_sortOrder (sortQuery "amount" "desc")) "desc" <>
     "asc"%string ->
   increasing (fun r => - amount r)
     (sortedInvoices fiveInvoices (sortQuery "amount" "desc")) /\
   sortedInvoices fiveInvoices (sortQuery "amount" "desc") =
     rev (sortedInvoices fiveInvoices
            (withSortOrder (sortQuery "amount" "desc") (Some "asc"%string)))).
Proof.
  apply (X17_numeric_fields_sort_both_ways fiveInvoices
           (sortQuery "amount" "desc") amount eq_refl).
  unfold distinctKeys. vm_compute.
  repeat constructor; cbn; intuition discriminate.
Defined.

(** X18. When all filtered records have the same value in the sort
    field (in particular when [sortBy] names no field of the record), the
    sorted records are the filtered records in reverse store order, in
    either direction; a first page that holds them all (with a limit that
    is a safe integer) shows them in that order. *)
Theorem X18_equal_keys_come_back_reversed :
  forall (store : Store) (q : Query),
    (forall a b, In a (passing store q) -> In b (passing store q) ->
       getField (JS.stringOr (q_sortBy q) "uploadDate") a =
       getField (JS.stringOr (q_sortBy q) "uploadDate") b) ->
    sortedInvoices store q = rev (passing store q) /\
    (1 <= JS.parseIntOr (q_limit q) 10 ->
     JS.parseIntOr (q_limit q) 10 <= JS.MAX_SAFE_INTEGER ->
     total (listInvoices store q) <= JS.parseIntOr (q_limit q) 10 ->
     JS.parseIntOr (q_page q) 1 = 1 ->
     data (listInvoices store q) = rev (passing store q)).
Proof.
  intros store q Hties.
  assert (E : sortedInvoices store q = rev (passing store q))
    by (apply sort_ties_reversed; exact Hties).
  split; [exact E|]. intros Hl Hs Ht Hp.
  rewrite data_window by lia. rewrite Hp, E. cbn [Z.sub Z.mul Z.to_nat skipn].
  change (Z.to_nat ((1 - 1) * JS.parseIntOr (q_limit q) 10)) with 0%nat.
  cbn [skipn]. apply firstn_all2.
  rewrite total_passing in Ht. rewrite length_rev. lia.
Qed.

Lemma X18_witness :
  sortedInvoices twoFiles (sortQuery "priority" "asc") =
    rev (passing twoFiles (sortQuery "priority" "asc")) /\
  (1 <= JS.parseIntOr (q_limit (sortQuery "priority" "asc")) 10 ->
   JS.parseIntOr (q_limit (sortQuery "priority" "asc")) 10 <=
     JS.MAX_SAFE_INTEGER ->
   total (listInvoices twoFiles (sortQuery "priority" "asc")) <=
     JS.parseIntOr (q_limit (sortQuery "priority" "asc")) 10 ->
   JS.parseIntOr (q_page (sortQuery "priority" "asc")) 1 = 1 ->
   data (listInvoices twoFiles (sortQuery "priority" "asc")) =
     rev (passing twoFiles (sortQuery "priority" "asc"))).
Proof.
  apply (X18_equal_keys_come_back_reversed twoFiles
           (sortQuery "priority" "asc")).
  intros a b _ _. reflexivity.
Defined.

(** *** No record twice *)

(** A filter keeps ids pairwise distinct. *)
Lemma filter_ids_distinct (keep : Invoice -> bool) (records : list Invoice) :
  NoDup (map id records) -> NoDup (map id (filter keep records)).
Proof.
  induction records as [|r records IH]; cbn [filter map]; [auto|].
  intros Hnd. inversion Hnd as [|? ? Hfresh Hrest]; subst.
  destruct (keep r); cbn [map]; [|exact (IH Hrest)].
  constructor; [|exact (IH Hrest)].
  rewrite in_map_iff. intros [r' [Eid Hin]].
  apply filter_In in Hin. apply Hfresh.
  rewrite in_map_iff. exists r'. tauto.
Qed.

Lemma NoDup_take {A : Type} (n : nat) (l : list A) :
  NoDup l -> NoDup (firstn n l).
Proof.
  intros H. rewrite <- (firstn_skipn n l) in H.
  exact (NoDup_app_remove_r _ _ H).
Qed.

Lemma NoDup_drop {A : Type} (n : nat) (l : list A) :
  NoDup l -> NoDup (skipn n l).
Proof.
  intros H. rewrite <- (firstn_skipn n l) in H.
  exact (NoDup_app_remove_l _ _ H).
Qed.

(** Every record of [data] is a record of the store. *)
Lemma data_in_store (store : Store) (q : Query) (r : Invoice) :
  In r (data (listInvoices store q)) -> In r (Map_values store).
Proof.
  intros H. apply data_passing in H. unfold passing in H.
  apply filter_In in H. tauto.
Qed.

(** X19. In every reachable state the list endpoint returns no record
    twice (the ids of [data] are pairwise distinct), and every record of
    [data] is what [GET /api/invoices/:id] returns for its id. *)
Theorem X19_listed_records_are_distinct_and_fetchable :
  forall (s : Server) (q : Query),
    reachable s ->
    NoDup (map id (data (listInvoices (invoices s) q))) /\
    (forall r, In r (data (listInvoices (invoices s) q)) ->
       getInvoice (invoices s) (id r) = Json r).
Proof.
  intros s q Hreach.
  pose proof (reachable_keyed s Hreach) as Hkeyed.
  pose proof (keyed_ids _ Hkeyed) as Hids.
  destruct Hkeyed as [Hnd Hid].
  split.
  - rewrite data_slice. unfold JS.slice. cbv zeta.
    rewrite <- firstn_map, <- skipn_map.
    apply NoDup_take, NoDup_drop.
    unfold sortedInvoices.
    apply (Permutation_NoDup
             (Permutation_sym (Permutation_map id (sort_perm _ _)))).
    unfold passing. apply filter_ids_distinct. rewrite Hids. exact Hnd.
  - intros r Hr. apply data_in_store in Hr.
    unfold Map_values in Hr. apply in_map_iff in Hr.
    destruct Hr as [[k r'] [Er Hin]]. cbn in Er. subst r'.
    pose proof (In_Map_get k _ r Hnd Hin) as Hget.
    rewrite (Hid k r Hget). unfold getInvoice. rewrite Hget. reflexivity.
Qed.

Lemma X19_witness :
  NoDup (map id (data (listInvoices (invoices afterStart)
                         (sortQuery "amount" "asc")))) /\
  (forall r, In r (data (listInvoices (invoices afterStart)
                           (sortQuery "amount" "asc"))) ->
     getInvoice (invoices afterStart) (id r) = Json r).
Proof.
  exact (X19_listed_records_are_distinct_and_fetchable afterStart
           (sortQuery "amount" "asc") reachable_afterStart).
Defined.

(* ================================================================== *)
(** ** The client *)
(* ================================================================== *)

(** *** App: the list request *)

(** A string parameter that is not sent is read as its default, like the
    empty string. *)
Lemma appendString_stringOr (s dflt : string) :
  JS.stringOr (api.appendString (Some s)) dflt = JS.stringOr (Some s) dflt.
Proof.
  unfold api.appendString.
  destruct (String.eqb_spec s EmptyString) as [->|H]; reflexivity.
Qed.

(** The status the client sends filters like the status of the filter bar. *)
Lemma passesStatus_sent (s : string) (r : Invoice) :
  passesStatus
    (api.appendString
       (if String.eqb s "all" then None else Some s)) r =
  passesStatus (Some s) r.
Proof.
  destruct (String.eqb_spec s "all") as [->|Hall]; [reflexivity|].
  unfold api.appendString.
  destruct (String.eqb_spec s EmptyString) as [->|Hne]; reflexivity.
Qed.

(** The search the client sends filters like the search of the filter bar. *)
Lemma passesSearch_sent (s : string) (r : Invoice) :
  passesSearch (api.appendString (Some s)) r = passesSearch (Some s) r.
Proof.
  unfold api.appendString.
  destruct (String.eqb_spec s EmptyString) as [->|Hne]; reflexivity.
Qed.

(** The server reads the page of the client, a safe integer other than
    0. *)
Lemma fetch_page (st : App.State) :
  JS.isSafeInteger (App.currentPage st) ->
  App.currentPage st <> 0 ->
  JS.parseIntOr (q_page (App.fetchInvoices st)) 1 = App.currentPage st.
Proof.
  intros Hs H. unfold App.fetchInvoices, api.getInvoices, App.fetchParams.
  cbn [q_page api.page api.appendNumber].
  rewrite parseIntOr_numberToString by exact Hs.
  destruct (Z.eqb_spec (App.currentPage st) 0); [contradiction | reflexivity].
Qed.

(** The server reads the page size of the client, a safe integer other
    than 0. *)
Lemma fetch_limit (st : App.State) :
  JS.isSafeInteger (App.itemsPerPage st) ->
  App.itemsPerPage st <> 0 ->
  JS.parseIntOr (q_limit (App.fetchInvoices st)) 10 = App.itemsPerPage st.
Proof.
  intros Hs H. unfold App.fetchInvoices, api.getInvoices, App.fetchParams.
  cbn [q_limit api.limit api.appendNumber].
  rewrite parseIntOr_numberToString by exact Hs.
  destruct (Z.eqb_spec (App.itemsPerPage st) 0); [contradiction | reflexivity].
Qed.

(** X20. The request [fetchInvoices] builds is read back by the server
    as the client meant it: a page and a page size that are safe integers
    other than 0 are echoed as [page] and [limit] (on safe integers
    [toString] prints the digits and [parseInt] reads them back);
    [total] counts the records that pass the status and the search
    of the filter bar, "all" and the empty search (which are not sent)
    filtering nothing; and a sort field and direction that are not empty
    are the ones the comparator gets. *)
Theorem X20_client_request_reaches_the_engine :
  forall (store : Store) (st : App.State),
    JS.isSafeInteger (App.currentPage st) ->
    JS.isSafeInteger (App.itemsPerPage st) ->
    App.currentPage st <> 0 -> App.itemsPerPage st <> 0 ->
    let response := listInvoices store (App.fetchInvoices st) in
    page response = App.currentPage st /\
    limit response = App.itemsPerPage st /\
    total response =
      Z.of_nat (List.length
        (filter (fun r =>
                   passesStatus (Some (App.status (App.filters st))) r &&
                   passesSearch (Some (App.search (App.filters st))) r)
                (Map_values store))) /\
    (App.field (App.sortConfig st) <> EmptyString ->
     App.direction (App.sortConfig st) <> EmptyString ->
     sortedInvoices store (App.fetchInvoices st) =
       V8.sort (compareInvoices (App.field (App.sortConfig st))
                                (App.direction (App.sortConfig st)))
               (passing store (App.fetchInvoices st))).
Proof.
  intros store st Hsp Hsl Hp Hl response. subst response.
  split; [exact (fetch_page st Hsp Hp)|].
  split; [exact (fetch_limit st Hsl Hl)|].
  split.
  - rewrite total_passing. unfold passing. f_equal. f_equal.
    apply filter_ext. intros r. cbn [App.fetchInvoices api.getInvoices
      App.fetchParams q_status q_search api.status api.search].
    rewrite passesStatus_sent, passesSearch_sent. reflexivity.
  - intros Hf Hd. unfold sortedInvoices.
    cbn [App.fetchInvoices api.getInvoices App.fetchParams q_sortBy
         q_sortOrder api.sortBy api.sortOrder].
    rewrite !appendString_stringOr.
    destruct (App.field (App.sortConfig st)) eqn:Ef; [contradiction|].
    destruct (App.direction (App.sortConfig st)) eqn:Ed; [contradiction|].
    reflexivity.
Qed.

Lemma X20_witness :
  page (listInvoices fiveInvoices (App.fetchInvoices App.initialState)) = 1 /\
  limit (listInvoices fiveInvoices (App.fetchInvoices App.initialState)) = 10.
Proof.
  destruct (X20_client_request_reaches_the_engine fiveInvoices
              App.initialState) as [H1 [H2 _]].
  - vm_compute. discriminate.
  - vm_compute. discriminate.
  - discriminate.
  - discriminate.
  - split; [exact H1 | exact H2].
Defined.

(** X21. [handleSort] selects the clicked field and goes back to page 1;
    a field other than the current one starts ascending; clicking the
    same field again flips the direction each time, so a third click
    gives the state of the first; and the request that follows asks the
    server for page 1. *)
Theorem X21_handleSort_toggles_the_direction :
  forall (field_ : string) (st : App.State),
    let st1 := App.handleSort field_ st in
    let st2 := App.handleSort field_ st1 in
    App.field (App.sortConfig st1) = field_ /\
    App.currentPage st1 = 1 /\
    (App.field (App.sortConfig st) <> field_ ->
     App.direction (App.sortConfig st1) = "asc"%string) /\
    (App.direction (App.sortConfig st1) = "asc"%string /\
     App.direction (App.sortConfig st2) = "desc"%string \/
     App.direction (App.sortConfig st1) = "desc"%string /\
     App.direction (App.sortConfig st2) = "asc"%string) /\
    App.handleSort field_ st2 = st1 /\
    forall store,
      page (listInvoices store (App.fetchInvoices st1)) = 1.
Proof.
  intros field_ st st1 st2. subst st1 st2.
  unfold App.handleSort. cbn [App.sortConfig App.field App.direction
    App.currentPage App.itemsPerPage App.filters].
  rewrite String.eqb_refl. cbn [andb].
  split; [reflexivity|]. split; [reflexivity|]. split.
  { intros Hne.
    destruct (String.eqb_spec (App.field (App.sortConfig st)) field_);
      [contradiction | reflexivity]. }
  destruct (String.eqb (App.field (App.sortConfig st)) field_ &&
            String.eqb (App.direction (App.sortConfig st)) "asc");
    cbn; (split; [auto|]); (split; [reflexivity|]); intros store; reflexivity.
Qed.

Lemma X21_witness :
  App.direction (App.sortConfig (App.handleSort "amount" App.initialState)) =
    "asc"%string.
Proof.
  apply (proj1 (proj2 (proj2 (X21_handleSort_toggles_the_direction "amount"
                                App.initialState)))).
  discriminate.
Defined.

(** *** App: the number of pages *)

(** [Math.ceil(a / b)] is the least integer [c] with [a <= c * b]. *)
Lemma ceilOfQuotient_spec (a b p : Z) :
  0 < b -> (p <= JS.ceilOfQuotient a b <-> (p - 1) * b < a).
Proof.
  intros Hb. unfold JS.ceilOfQuotient, Qceiling.
  destruct b as [|b|b]; try lia.
  unfold Qdiv, Qinv, Qmult, Qopp, Qfloor, inject_Z. cbn [Qnum Qden].
  rewrite Z.mul_1_r, Pos.mul_1_l.
  pose proof (Z.div_mod (- a) (Z.pos b) ltac:(lia)) as Hdm.
  pose proof (Z.mod_pos_bound (- a) (Z.pos b) ltac:(lia)) as Hmod.
  nia.
Qed.

(** A page has records exactly when the pages before it do not hold them
    all. *)
Lemma pageOf_nonempty (store : Store) (q : Query) (p : Z) :
  1 <= p -> 1 <= JS.parseIntOr (q_limit q) 10 ->
  p * JS.parseIntOr (q_limit q) 10 <= JS.MAX_SAFE_INTEGER ->
  (pageOf store q p <> [] <->
   (p - 1) * JS.parseIntOr (q_limit q) 10 < total (listInvoices store q)).
Proof.
  intros Hp Hl Hs. rewrite (pageOf_window store q p Hp Hl Hs).
  rewrite total_passing, <- sortedInvoices_length.
  set (l := sortedInvoices store q).
  set (L := JS.parseIntOr (q_limit q) 10) in *.
  rewrite <- length_zero_iff_nil, length_firstn, length_skipn. nia.
Qed.

(** X22. The page count the client computes,
    [Math.ceil(total / itemsPerPage)], is the number of the last page the
    server has records for: the page [p >= 1] selected with
    [handlePageChange] comes back with records iff [p <= totalPages]; and
    the count is 0 iff [total] is 0.  The page times the page size is a
    safe integer, so that the page number and the window bounds are the
    same numbers in the program. *)
Theorem X22_totalPages_is_the_last_page :
  forall (store : Store) (st : App.State) (p : Z),
    1 <= App.itemsPerPage st -> 1 <= p ->
    p * App.itemsPerPage st <= JS.MAX_SAFE_INTEGER ->
    let response := listInvoices store (App.fetchInvoices st) in
    let shown :=
      data (listInvoices store
              (App.fetchInvoices (App.handlePageChange p st))) in
    (shown <> [] <-> p <= App.totalPages response st) /\
    (total response = 0 <-> App.totalPages response st = 0).
Proof.
  intros store st p Hl Hp Hs response shown. subst response shown.
  change (data (listInvoices store
                  (App.fetchInvoices (App.handlePageChange p st))))
    with (pageOf store (App.fetchInvoices st) p).
  unfold App.totalPages.
  assert (El : JS.parseIntOr (q_limit (App.fetchInvoices st)) 10 =
               App.itemsPerPage st).
  { apply fetch_limit; [|lia].
    apply (factor_isSafeInteger _ p); [lia | lia |].
    rewrite Z.mul_comm. exact Hs. }
  split.
  - rewrite pageOf_nonempty by (rewrite ?El; assumption || lia).
    rewrite El. symmetry. apply ceilOfQuotient_spec. lia.
  - set (T := total (listInvoices store (App.fetchInvoices st))).
    assert (HT : 0 <= T) by (subst T; rewrite total_passing; lia).
    pose proof (ceilOfQuotient_spec T (App.itemsPerPage st) 1 ltac:(lia)) as H1.
    pose proof (ceilOfQuotient_spec T (App.itemsPerPage st) 0 ltac:(lia)) as H0.
    lia.
Qed.

Lemma X22_witness :
  (data (listInvoices fiveInvoices
           (App.fetchInvoices (App.handlePageChange 1 App.initialState)))
     <> [] <->
   1 <= App.totalPages
          (listInvoices fiveInvoices (App.fetchInvoices App.initialState))
          App.initialState) /\
  (total (listInvoices fiveInvoices (App.fetchInvoices App.initialState)) = 0
   <->
   App.totalPages
     (listInvoices fiveInvoices (App.fetchInvoices App.initialState))
     App.initialState = 0).
Proof.
  apply (X22_totalPages_is_the_last_page fiveInvoices
           App.initialState 1); vm_compute; discriminate.
Defined.

(** *** App: the auto-refresh *)

(** The test of the auto-refresh, on statuses. *)
Lemma hasProcessingInvoices_iff (l : list Invoice) :
  App.hasProcessingInvoices l = true <->
  exists r, In r l /\ (status r = Pending \/ status r = Processing).
Proof.
  unfold App.hasProcessingInvoices. rewrite existsb_exists.
  split; intros [r [Hin H]]; exists r; (split; [exact Hin|]).
  - destruct (status r); cbn in H; auto; discriminate.
  - destruct H as [-> | ->]; reflexivity.
Qed.

(** X23. The auto-refresh of the list follows the timers of the server:
    in every reachable state the list just fetched makes the client poll
    (some record shown is Pending or Processing) iff a record it shows has
    a pending timer; once no timer is pending, no answer makes it
    poll. *)
Theorem X23_auto_refresh_follows_the_timers :
  forall (s : Server) (q : Query),
    reachable s ->
    (App.hasProcessingInvoices (data (listInvoices (invoices s) q)) = true <->
     exists r, In r (data (listInvoices (invoices s) q)) /\
               In (id r) (map timerId (timers s))) /\
    (timers s = [] ->
     App.hasProcessingInvoices (data (listInvoices (invoices s) q)) = false).
Proof.
  intros s q Hreach.
  pose proof (reachable_agree s Hreach) as [_ [HS HF]].
  pose proof (reachable_cover s Hreach) as Hcover.
  pose proof (reachable_keyed s Hreach) as [Hnd Hid].
  assert (Hget : forall r, In r (data (listInvoices (invoices s) q)) ->
                           Map_get (id r) (invoices s) = Some r).
  { intros r Hr. apply data_in_store in Hr.
    unfold Map_values in Hr. apply in_map_iff in Hr.
    destruct Hr as [[k r'] [Er Hin]]. cbn in Er. subst r'.
    pose proof (In_Map_get k _ r Hnd Hin) as H.
    rewrite (Hid k r H). exact H. }
  assert (Hiff :
    App.hasProcessingInvoices (data (listInvoices (invoices s) q)) = true <->
    exists r, In r (data (listInvoices (invoices s) q)) /\
              In (id r) (map timerId (timers s))).
  { rewrite hasProcessingInvoices_iff.
    split; intros [r [Hin H]]; exists r; (split; [exact Hin|]).
    - destruct (Hcover (id r) r (Hget r Hin)) as [HP HQ].
      destruct H as [H|H];
        [destruct (HP H) as [d Hd] | destruct (HQ H) as [d Hd]];
        apply in_map_iff; eexists; (split; [|exact Hd]); reflexivity.
    - apply in_map_iff in H. destruct H as [[j d|j d] [Hj Hd]];
        cbn in Hj; subst j.
      + left. pose proof (HS _ _ Hd) as H. unfold statusOf in H.
        rewrite (Hget r Hin) in H. injection H as H. exact H.
      + right. pose proof (HF _ _ Hd) as H. unfold statusOf in H.
        rewrite (Hget r Hin) in H. injection H as H. exact H. }
  split; [exact Hiff|].
  intros Ht. apply not_true_is_false. rewrite Hiff, Ht.
  intros [r [_ []]].
Qed.

Lemma X23_witness :
  (App.hasProcessingInvoices
     (data (listInvoices (invoices afterStart)
              (App.fetchInvoices App.initialState))) = true <->
   exists r,
     In r (data (listInvoices (invoices afterStart)
                   (App.fetchInvoices App.initialState))) /\
     In (id r) (map timerId (timers afterStart))) /\
  (timers afterStart = [] ->
   App.hasProcessingInvoices
     (data (listInvoices (invoices afterStart)
              (App.fetchInvoices App.initialState))) = false).
Proof.
  exact (X23_auto_refresh_follows_the_timers afterStart
           (App.fetchInvoices App.initialState) reachable_afterStart).
Defined.

(** *** InvoiceTable *)

(** [substring(0, n)] of a string with at least [n] characters is its
    first [n] characters. *)
Lemma substring_prefix (n : nat) (s : string) :
  (n <= String.length s)%nat ->
  String.length (String.substring 0 n s) = n /\
  exists rest, s = (String.substring 0 n s ++ rest)%string.
Proof.
  revert s. induction n as [|n IH]; intros s Hn.
  - destruct s; cbn; (split; [reflexivity|]); eexists; reflexivity.
  - destruct s as [|c s]; cbn in Hn; [lia|].
    cbn [String.substring]. destruct (IH s ltac:(lia)) as [Hlen [rest Hrest]].
    cbn [String.length]. split; [lia|].
    exists rest. cbn. rewrite <- Hrest. reflexivity.
Qed.

Lemma length_append (s t : string) :
  String.length (s ++ t) = (String.length s + String.length t)%nat.
Proof.
  induction s as [|c s IH]; cbn; [reflexivity | rewrite IH; reflexivity].
Qed.

(** X24. [truncateName] with a limit that is not negative returns a name
    within the limit unchanged; of a longer name it keeps the first
    [maxLength] characters and adds three dots, so the result has
    [maxLength + 3] characters (more than the name itself when the name is
    one or two characters over the limit). *)
Theorem X24_truncateName_keeps_a_prefix :
  forall (name : string) (maxLength : Z),
    0 <= maxLength ->
    (Z.of_nat (String.length name) <= maxLength ->
     InvoiceTable.truncateName name maxLength = name) /\
    (maxLength < Z.of_nat (String.length name) ->
     exists kept rest : string,
       name = (kept ++ rest)%string /\
       Z.of_nat (String.length kept) = maxLength /\
       InvoiceTable.truncateName name maxLength = (kept ++ "...")%string /\
       Z.of_nat (String.length (InvoiceTable.truncateName name maxLength)) =
         maxLength + 3).
Proof.
  intros name maxLength Hm. unfold InvoiceTable.truncateName. split.
  - intros H. apply Z.leb_le in H. rewrite H. reflexivity.
  - intros H. destruct (Z.leb_spec (Z.of_nat (String.length name)) maxLength);
      [lia|].
    unfold JS.substring. cbv zeta.
    rewrite (Z.max_r 0 0), (Z.min_l 0), (Z.max_l maxLength 0) by lia.
    rewrite (Z.min_l maxLength) by lia.
    rewrite (Z.min_l 0), (Z.max_r 0 maxLength), Z.sub_0_r by lia.
    change (Z.to_nat 0) with 0%nat.
    destruct (substring_prefix (Z.to_nat maxLength) name ltac:(lia))
      as [Hlen [rest Hrest]].
    exists (String.substring 0 (Z.to_nat maxLength) name), rest.
    split; [exact Hrest|]. split; [lia|]. split; [reflexivity|].
    rewrite length_append, Hlen. cbn. lia.
Qed.

Lemma X24_witness :
  InvoiceTable.truncateName "Acme Corporation" 20 = "Acme Corporation"%string.
Proof.
  apply (proj1 (X24_truncateName_keeps_a_prefix "Acme Corporation" 20
                  ltac:(discriminate))).
  discriminate.
Defined.

(** *** FileUpload: polling *)

(** [poll] shows at most one answer per attempt that is left. *)
Lemma poll_length (maxAttempts : Z) (answers : list (option Status)) :
  forall attempts,
    attempts <= maxAttempts ->
    Z.of_nat (List.length (FileUpload.poll maxAttempts attempts answers)) <=
    maxAttempts - attempts + 1.
Proof.
  induction answers as [|[st|] answers IH]; intros attempts Ha;
    cbn [FileUpload.poll List.length]; try lia.
  destruct (match st with Processed | Failed => true | _ => false end ||
            (maxAttempts <=? attempts)) eqn:E; cbn [List.length]; [lia|].
  apply orb_false_elim in E. destruct E as [_ E]. apply Z.leb_gt in E.
  specialize (IH (attempts + 1) ltac:(lia)). lia.
Qed.

(** [poll] shows the answers in order, and stops at a finished status. *)
Lemma poll_prefix (maxAttempts : Z) (answers : list (option Status)) :
  forall attempts (n : nat) (st : Status),
    nth_error (FileUpload.poll maxAttempts attempts answers) n = Some st ->
    nth_error answers n = Some (Some st) /\
    (finished st = true ->
     S n = List.length (FileUpload.poll maxAttempts attempts answers)).
Proof.
  induction answers as [|[st0|] answers IH]; intros attempts n st H;
    cbn [FileUpload.poll] in *; try (destruct n; discriminate).
  destruct n as [|n]; cbn [nth_error] in *.
  - injection H as ->. split; [reflexivity|]. intros Hf.
    unfold finished in Hf. rewrite Hf. reflexivity.
  - destruct (match st0 with Processed | Failed => true | _ => false end ||
              (maxAttempts <=? attempts)); [destruct n; discriminate|].
    destruct (IH _ _ _ H) as [H1 H2]. split; [exact H1|].
    intros Hf. cbn [List.length]. f_equal. exact (H2 Hf).
Qed.

(** X25. The polling of an uploaded invoice stops: it shows at most 61
    answers, whatever the server answers; what it shows is the answers in
    order; nothing is shown after a Processed or Failed answer; and when
    the record stays Processing it gives up after exactly 61 requests. *)
Theorem X25_pollInvoiceStatus_stops :
  forall (answers : list (option Status)),
    (List.length (FileUpload.pollInvoiceStatus answers) <= 61)%nat /\
    (forall n st,
       nth_error (FileUpload.pollInvoiceStatus answers) n = Some st ->
       nth_error answers n = Some (Some st) /\
       (terminal st ->
        S n = List.length (FileUpload.pollInvoiceStatus answers))) /\
    (forall n : nat,
       (61 <= n)%nat ->
       List.length (FileUpload.pollInvoiceStatus (repeat (Some Processing) n))
       = 61%nat).
Proof.
  intros answers. unfold FileUpload.pollInvoiceStatus. split; [|split].
  - pose proof (poll_length 60 answers 0 ltac:(lia)). lia.
  - intros n st H. destruct (poll_prefix 60 answers 0 n st H) as [H1 H2].
    split; [exact H1|]. intros [-> | ->]; apply H2; reflexivity.
  - intros n Hn.
    assert (G : forall (k : nat) (a : Z) (m : nat),
               a = 60 - Z.of_nat k -> (k < m)%nat ->
               List.length (FileUpload.poll 60 a (repeat (Some Processing) m))
               = S k).
    { induction k as [|k IH]; intros a m Ha Hm;
        (destruct m as [|m]; [lia|]); cbn [repeat FileUpload.poll orb].
      - subst a. reflexivity.
      - destruct (Z.leb_spec 60 a); [lia|]. cbn [List.length]. f_equal.
        apply IH; lia. }
    apply (G 60%nat 0 n); lia.
Qed.
